(** * Summarizer workflow core: storage, chunker, completion tracker, combiner

    A shallow embedding of the Apps Script sources

    - [Utils.gs]      : [chunkContent], the page status control
                        ([initializePageStatusControl],
                        [updateItemStatusInControl]);
    - storage script  : [saveToStorage], [loadFromStorage],
                        [deleteFromStorage], [autoCleanupIfNeeded];
    - [NotionAPI.gs]  : [combineChunkResults];
    - handler script  : [findPageIdByTaskId], [doPost_HandleZapierLLMResult]
                        (the declaration that is loaded);
    - [Config.gs]     : [CHUNK_SIZE], [STORAGE_CONFIG].

    JavaScript strings are modelled by [string], array indices and lengths
    by [Z], objects used as dictionaries by [gmap string _].  Calls to
    [debugLog] only write to the console and are left out. *)

From Stdlib Require Import ZArith Lia Ascii Floats.
From stdpp Require Import base numbers list strings gmap pretty.

Local Open Scope Z_scope.

(** ** JavaScript string primitives *)

Module JS.

(** [s.length] *)
Definition length (s : string) : Z := Z.of_nat (String.length s).

Fixpoint take (n : nat) (s : string) : string :=
  match n, s with
  | S n', String c s' => String c (take n' s')
  | _, _ => ""
  end.

Fixpoint drop (n : nat) (s : string) : string :=
  match n, s with
  | S n', String _ s' => drop n' s'
  | _, _ => s
  end.

(** Index arguments are clamped to [0, s.length]. *)
Definition clamp (s : string) (i : Z) : nat :=
  Z.to_nat (Z.min (Z.max i 0) (length s)).

(** [s.substring(a, b)]: both ends are clamped and swapped when [a > b]. *)
Definition substring (s : string) (a b : Z) : string :=
  let a' := clamp s a in
  let b' := clamp s b in
  take (Nat.max a' b' - Nat.min a' b') (drop (Nat.min a' b') s).

(** [s.startsWith(pat)] *)
Fixpoint startsWith (pat s : string) : bool :=
  match pat, s with
  | "", _ => true
  | String p pat', String c s' => if decide (p = c) then startsWith pat' s' else false
  | String _ _, "" => false
  end.

(** One left-to-right pass: [s] is the suffix of the subject that starts
    at index [i]; [best] is the last match seen at an index below [i]. *)
Fixpoint lastIndexOf_from (pat s : string) (i limit best : Z) : Z :=
  if limit <? i then best
  else
    let best' := if startsWith pat s then i else best in
    match s with
    | "" => best'
    | String _ s' => lastIndexOf_from pat s' (i + 1) limit best'
    end.

(** [s.lastIndexOf(pat, pos)]: the greatest index [<= pos] at which [pat]
    occurs, or [-1]. *)
Definition lastIndexOf (s pat : string) (pos : Z) : Z :=
  lastIndexOf_from pat s 0 (Z.max pos 0) (-1).

(** [parts.join(sep)] *)
Fixpoint join (sep : string) (parts : list string) : string :=
  match parts with
  | [] => ""
  | [p] => p
  | p :: rest => p +:+ sep +:+ join sep rest
  end.

Fixpoint repeat_nat (c : ascii) (n : nat) : string :=
  match n with
  | O => ""
  | S n' => String c (repeat_nat c n')
  end.

(** [c.repeat(n)] for a one-character string [c]. *)
Definition repeat (c : ascii) (n : Z) : string := repeat_nat c (Z.to_nat n).

Definition newline : ascii := "010"%char.

(** [s.includes(pat)] *)
Fixpoint includes (pat s : string) : bool :=
  if startsWith pat s then true
  else match s with
       | "" => false
       | String _ s' => includes pat s'
       end.

(** [s.endsWith(pat)] *)
Definition endsWith (pat s : string) : bool :=
  startsWith (String.rev pat) (String.rev s).

(** Truthiness of a string value: every string but the empty one. *)
Definition truthy (s : string) : bool :=
  match s with "" => false | _ => true end.

End JS.

(** ** Text chunker ([Utils.gs], [chunkContent]) *)

(** [const CHUNK_SIZE = 15000] *)
Definition CHUNK_SIZE : Z := 15000.

Definition paragraphMark : string := String JS.newline (String JS.newline "").
Definition sentenceMark : string := ". ".

Section Chunker.

(** [above70 x currentIndex maxChunkSize] stands for the comparison
    [x > currentIndex + maxChunkSize * 0.7], which JavaScript evaluates in
    double precision.  The product is not always the exact rational
    (90 * 0.7 is 62.99999999999999), so the comparison is a parameter. *)
Variable above70 : Z → Z → Z → bool.

(** The body of one iteration of the [while] loop: the end of the chunk
    that starts at [currentIndex]. *)
Definition nextChunkEnd (content : string) (maxChunkSize currentIndex : Z) : Z :=
  let chunkEnd := currentIndex + maxChunkSize in
  if chunkEnd <? JS.length content then
    let paragraphBreak := JS.lastIndexOf content paragraphMark chunkEnd in
    if above70 paragraphBreak currentIndex maxChunkSize then paragraphBreak
    else
      let sentenceBreak := JS.lastIndexOf content sentenceMark chunkEnd in
      if above70 sentenceBreak currentIndex maxChunkSize then sentenceBreak + 1
      else chunkEnd
  else chunkEnd.

(** The [while (currentIndex < content.length)] loop; [None] when the
    loop is still running after [fuel] iterations. *)
Fixpoint chunkLoop (fuel : nat) (content : string) (maxChunkSize currentIndex : Z)
    (chunks : list string) : option (list string) :=
  if currentIndex <? JS.length content then
    match fuel with
    | O => None
    | S fuel' =>
        let chunkEnd := nextChunkEnd content maxChunkSize currentIndex in
        chunkLoop fuel' content maxChunkSize chunkEnd
          (chunks ++ [JS.substring content currentIndex chunkEnd])
    end
  else Some chunks.

(** [chunkContent(content, maxChunkSize)] for a string [content].  The loop
    is given one iteration per character, which is enough whenever every
    iteration advances. *)
Definition chunkContent (content : string) (maxChunkSize : Z) : option (list string) :=
  if JS.length content <=? maxChunkSize then Some [content]
  else chunkLoop (String.length content) content maxChunkSize 0 [].

End Chunker.

(** The comparison with the product taken exactly: [x > cur + 7 * max / 10]. *)
Definition above70_exact (x currentIndex maxChunkSize : Z) : bool :=
  10 * currentIndex + 7 * maxChunkSize <? 10 * x.


(** ** Bounded key-value store (storage script) *)

(** [STORAGE_CONFIG] of [Config.gs] (the path names are not used here). *)
Record storageConfig := StorageConfig {
  maxChunkSize : Z;
  maxTotalSize : Z;
  autoCleanup : bool;
  maxAge : Z;
  maxEntries : Z
}.

Definition STORAGE_CONFIG : storageConfig := {|
  maxChunkSize := 450000;
  maxTotalSize := 8000000;
  autoCleanup := true;
  maxAge := 24;
  maxEntries := 50
|}.

(** The [metadata] object of a stored entry: the caller's fields, then the
    fields [saveToStorage] adds. *)
Record metadata := Metadata {
  md_caller : list (string * string);
  md_timestamp : string;
  md_size : Z;
  md_chunked : bool;
  md_chunkCount : option Z
}.

(** What [JSON.parse] of a property gives, seen through the two fields the
    store reads: [content] and [metadata] ([None] for [undefined]). *)
Record storedDoc := StoredDoc {
  doc_content : option string;
  doc_metadata : option metadata
}.

(** Return value of [saveToStorage]. *)
Inductive saveResult :=
  | SaveOk (path : string) (size : Z) (chunked : bool) (chunkCount : option Z)
  | SaveFailed (error : string).

(** Return value of [loadFromStorage] when it is not [null];
    [ld_metadata = None] stands for the empty object. *)
Record loaded := Loaded {
  ld_content : option string;
  ld_metadata : option metadata
}.

(** The instant of a call: [Date.now()] and [new Date().toISOString()]. *)
Record clock := Clock { nowMs : Z; nowIso : string }.

Definition storageKey (path : string) : string := "STORAGE_" +:+ path.
Definition chunkKey (path : string) (index : nat) : string :=
  "STORAGE_" +:+ path +:+ "_CHUNK_" +:+ pretty index.
Definition metaKey (path : string) : string := "STORAGE_" +:+ path +:+ "_META".

Section Storage.

(** [JSON.stringify] and [JSON.parse] on the documents of the store;
    [JSON_parse] is [None] where JavaScript throws. *)
Variable JSON_stringify : storedDoc → string.
Variable JSON_parse : string → option storedDoc.

(** [new Date(timestamp)] in milliseconds; [None] for an invalid date. *)
Variable Date_parse : string → option Z.

(** The script property service may refuse a write (it throws, with the
    given message) depending on what it holds and what is written; reads
    and deletions are taken to succeed. *)
Variable rejects : gmap string string → string → string → option string.

(** [scriptProperties.setProperty(key, value)] *)
Definition setProperty (props : gmap string string) (key value : string)
  : string + gmap string string :=
  match rejects props key value with
  | Some err => inl err
  | None => inr (<[key := value]> props)
  end.

(** The [for] loop of [deleteFromStorage] over the chunk slots
    [from, from + 1, ..., chunkCount - 1]. *)
Fixpoint deleteChunks (path : string) (count : nat) (from : nat)
    (props : gmap string string) : gmap string string :=
  match count with
  | O => props
  | S count' => deleteChunks path count' (S from) (delete (chunkKey path from) props)
  end.

(** [deleteFromStorage(path)] *)
Definition deleteFromStorage (path : string) (props : gmap string string)
  : gmap string string :=
  let props1 := delete (storageKey path) props in
  match props1 !! metaKey path with
  | Some metaData =>
      if JS.truthy metaData then
        match JSON_parse metaData with
        | Some {| doc_metadata := Some md |} =>
            let chunkCount := default 0 (md_chunkCount md) in
            delete (metaKey path) (deleteChunks path (Z.to_nat chunkCount) 0 props1)
        | _ => props1
        end
      else props1
  | None => props1
  end.

(** The filter of [autoCleanupIfNeeded] and [cleanupOldStorageEntries]. *)
Definition isEntryKey (key : string) : bool :=
  JS.startsWith "STORAGE_" key && negb (JS.includes "_CHUNK_" key)
    && negb (JS.endsWith "_META" key).

(** [key.replace('STORAGE_', '')] on a key that starts with the prefix. *)
Definition pathOfKey (key : string) : string := JS.drop 8 key.

(** Whether [cleanupOldStorageEntries] marks the entry for deletion. *)
Definition isStale (cutoffTime : Z) (value : string) : bool :=
  match JSON_parse value with
  | Some {| doc_metadata := Some md |} =>
      if JS.truthy (md_timestamp md) then
        match Date_parse (md_timestamp md) with
        | Some entryTime => entryTime <? cutoffTime
        | None => false
        end
      else false
  | Some {| doc_metadata := None |} => false
  | None => true
  end.

(** [cleanupOldStorageEntries(olderThanHours)] *)
Definition cleanupOldStorageEntries (now : clock) (olderThanHours : Z)
    (props : gmap string string) : gmap string string :=
  let cutoffTime := nowMs now - olderThanHours * 60 * 60 * 1000 in
  let entriesToClean :=
    omap (λ kv : string * string,
            if isEntryKey kv.1 && isStale cutoffTime kv.2
            then Some (pathOfKey kv.1) else None)
         (map_to_list props) in
  foldl (λ acc path, deleteFromStorage path acc) props entriesToClean.

(** [autoCleanupIfNeeded()] *)
Definition autoCleanupIfNeeded (now : clock) (props : gmap string string)
  : gmap string string :=
  let storageKeys := filter (λ key, isEntryKey key = true) (map_to_list props).*1 in
  if maxEntries STORAGE_CONFIG <? Z.of_nat (List.length storageKeys)
  then cleanupOldStorageEntries now (maxAge STORAGE_CONFIG) props
  else props.

(** The split loop of [saveToStorage]:
    [for (i = 0; i < content.length; i += maxChunkSize) chunks.push(...)],
    one iteration per unit of [fuel]. *)
Fixpoint splitChunks (fuel : nat) (content : string) (size i : Z) : list string :=
  match fuel with
  | O => []
  | S fuel' =>
      if i <? JS.length content
      then JS.substring content i (i + size) :: splitChunks fuel' content size (i + size)
      else []
  end.

(** [chunks.forEach((chunk, index) => setProperty(chunk key, chunk))];
    the first refused write ends the loop with its error. *)
Fixpoint writeChunks (path : string) (chunks : list string) (index : nat)
    (props : gmap string string) : string * gmap string string + gmap string string :=
  match chunks with
  | [] => inr props
  | chunk :: rest =>
      match setProperty props (chunkKey path index) chunk with
      | inl err => inl (err, props)
      | inr props' => writeChunks path rest (S index) props'
      end
  end.

(** [saveToStorage(path, data, metadata)] for a string [data]. *)
Definition saveToStorage (now : clock) (path content : string)
    (callerMetadata : list (string * string)) (props : gmap string string)
  : saveResult * gmap string string :=
  let maxChunkSize := maxChunkSize STORAGE_CONFIG in
  let props0 :=
    if autoCleanup STORAGE_CONFIG then autoCleanupIfNeeded now props else props in
  if JS.length content <=? maxChunkSize then
    let propertyData := {|
      doc_content := Some content;
      doc_metadata := Some {|
        md_caller := callerMetadata;
        md_timestamp := nowIso now;
        md_size := JS.length content;
        md_chunked := false;
        md_chunkCount := None |} |} in
    match setProperty props0 (storageKey path) (JSON_stringify propertyData) with
    | inl err => (SaveFailed err, props0)
    | inr props1 => (SaveOk path (JS.length content) false None, props1)
    end
  else
    let chunks := splitChunks (String.length content) content maxChunkSize 0 in
    match writeChunks path chunks 0 props0 with
    | inl (err, props1) => (SaveFailed err, props1)
    | inr props1 =>
        let metadataObj := {|
          doc_content := None;
          doc_metadata := Some {|
            md_caller := callerMetadata;
            md_timestamp := nowIso now;
            md_size := JS.length content;
            md_chunked := true;
            md_chunkCount := Some (Z.of_nat (List.length chunks)) |} |} in
        match setProperty props1 (metaKey path) (JSON_stringify metadataObj) with
        | inl err => (SaveFailed err, props1)
        | inr props2 =>
            (SaveOk path (JS.length content) true
               (Some (Z.of_nat (List.length chunks))), props2)
        end
    end.

(** The reconstruction loop of [loadFromStorage]: a slot that is absent
    (or holds the empty string) adds nothing and the loop goes on. *)
Fixpoint readChunks (path : string) (count : nat) (i : nat)
    (props : gmap string string) (reconstructedContent : string) : string :=
  match count with
  | O => reconstructedContent
  | S count' =>
      let acc :=
        match props !! chunkKey path i with
        | Some chunk =>
            if JS.truthy chunk then reconstructedContent +:+ chunk
            else reconstructedContent
        | None => reconstructedContent
        end in
      readChunks path count' (S i) props acc
  end.

(** [loadFromStorage(path)]; [None] is [null]. *)
Definition loadFromStorage (path : string) (props : gmap string string)
  : option loaded :=
  let single :=
    match props !! storageKey path with
    | Some singleData => if JS.truthy singleData then Some singleData else None
    | None => None
    end in
  match single with
  | Some singleData =>
      match JSON_parse singleData with
      | Some parsed =>
          Some {| ld_content := doc_content parsed; ld_metadata := doc_metadata parsed |}
      | None => None
      end
  | None =>
      match props !! metaKey path with
      | Some metaData =>
          if JS.truthy metaData then
            match JSON_parse metaData with
            | Some {| doc_metadata := Some md |} =>
                let chunkCount := default 0 (md_chunkCount md) in
                Some {| ld_content :=
                          Some (readChunks path (Z.to_nat chunkCount) 0 props "");
                        ld_metadata := Some md |}
            | _ => None
            end
          else None
      | None => None
      end
  end.

End Storage.

(** ** Completion tracker ([Utils.gs], page status control) *)

(** The fields every tracked item has. *)
Record itemRecord := ItemRecord {
  it_itemId : string;
  it_contentId : string;
  it_status : string;                 (* 'pending', 'processing', 'completed' *)
  it_taskId : option string;
  it_processedFile : option string;
  it_completedAt : option string
}.

(** An entry of [tracking.subBlocks]. *)
Record subBlockRecord := SubBlockRecord {
  sb_item : itemRecord;
  sb_sourceType : string;
  sb_url : string;
  sb_title : string
}.

Record tracking := Tracking {
  mainPage : itemRecord;
  subBlocks : gmap string subBlockRecord;
  totalItems : Z;
  totalSubBlocks : Z;
  completedItems : Z;
  pendingItems : Z
}.

Record finalProcessing := FinalProcessing {
  fp_allCompleted : bool;
  fp_finalSummaryCreated : bool;
  fp_webhookSent : bool;
  fp_finalSummaryFile : option string;
  fp_completedAt : option string
}.

Record statusControl := StatusControl {
  sc_pageId : string;
  sc_pageTitle : string;
  sc_initialized : string;
  sc_lastUpdated : string;
  sc_tracking : tracking;
  sc_finalProcessing : finalProcessing
}.

(** The index a document is initialised from. *)
Record indexItem := IndexItem {
  ix_id : string;
  ix_contentId : string;
  ix_title : string;
  ix_sourceType : string;
  ix_url : string
}.

Record pageIndex := PageIndex {
  ix_main : indexItem;
  ix_subBlocks : list indexItem;
  ix_totalItems : Z
}.

(** What [savePageStatusControl] returns (the Drive file handle is left
    out). *)
Record savedControl := SavedControl {
  sv_statusControl : statusControl;
  sv_fileName : string
}.

(** What [updateItemStatusInControl] returns when it is not [null]. *)
Record updateResult := UpdateResult {
  ur_saved : savedControl;
  ur_allCompleted : bool;
  ur_readyForFinalProcessing : bool
}.

(** The log folder on Drive: the status file of a page, by file name, held
    as the document that [JSON.parse] reads back from it; the map
    [subBlocks] holds the own keys of [tracking.subBlocks].  Drive calls
    are taken to succeed. *)
Abbreviation folder := (gmap string statusControl).

Definition statusFileName (pageId : string) : string :=
  "page_status_" +:+ pageId +:+ ".json".

(** [loadPageStatusControl(pageId)], its [status] field. *)
Definition loadPageStatusControl (pageId : string) (drive : folder) : option statusControl :=
  drive !! statusFileName pageId.

Definition set_lastUpdated (now : string) (sc : statusControl) : statusControl :=
  {| sc_pageId := sc_pageId sc; sc_pageTitle := sc_pageTitle sc;
     sc_initialized := sc_initialized sc; sc_lastUpdated := now;
     sc_tracking := sc_tracking sc; sc_finalProcessing := sc_finalProcessing sc |}.

Definition set_tracking (t : tracking) (sc : statusControl) : statusControl :=
  {| sc_pageId := sc_pageId sc; sc_pageTitle := sc_pageTitle sc;
     sc_initialized := sc_initialized sc; sc_lastUpdated := sc_lastUpdated sc;
     sc_tracking := t; sc_finalProcessing := sc_finalProcessing sc |}.

(** [savePageStatusControl(pageId, statusControl)]: the file is updated when
    it exists and created otherwise. *)
Definition savePageStatusControl (now : string) (pageId : string) (sc : statusControl)
    (drive : folder) : savedControl * folder :=
  let sc' := set_lastUpdated now sc in
  ({| sv_statusControl := sc'; sv_fileName := statusFileName pageId |},
   <[statusFileName pageId := sc']> drive).

(** [initializePageStatusControl(pageId, index)] *)
Definition initializePageStatusControl (now : string) (pageId : string) (index : pageIndex)
    (drive : folder) : savedControl * folder :=
  let pending (x : indexItem) := {|
    it_itemId := ix_id x; it_contentId := ix_contentId x; it_status := "pending";
    it_taskId := None; it_processedFile := None; it_completedAt := None |} in
  let statusControl := {|
    sc_pageId := pageId;
    sc_pageTitle := ix_title (ix_main index);
    sc_initialized := now;
    sc_lastUpdated := now;
    sc_tracking := {|
      mainPage := pending (ix_main index);
      subBlocks :=
        foldl (λ acc subBlock,
                 <[ix_id subBlock := {| sb_item := pending subBlock;
                                        sb_sourceType := ix_sourceType subBlock;
                                        sb_url := ix_url subBlock;
                                        sb_title := ix_title subBlock |}]> acc)
              ∅ (ix_subBlocks index);
      totalItems := ix_totalItems index;
      totalSubBlocks := Z.of_nat (List.length (ix_subBlocks index));
      completedItems := 0;
      pendingItems := ix_totalItems index |};
    sc_finalProcessing := {|
      fp_allCompleted := false; fp_finalSummaryCreated := false;
      fp_webhookSent := false; fp_finalSummaryFile := None; fp_completedAt := None |}
  |} in
  savePageStatusControl now pageId statusControl drive.

(** The assignments common to both branches of [updateItemStatusInControl]:
    status, task id and processed file are overwritten; the completion time
    is set when the item turns 'completed'. *)
Definition markItem (now : string) (taskId status : string) (processedFile : option string)
    (it : itemRecord) : itemRecord :=
  {| it_itemId := it_itemId it;
     it_contentId := it_contentId it;
     it_status := status;
     it_taskId := Some taskId;
     it_processedFile := processedFile;
     it_completedAt :=
       if bool_decide (status = "completed") && negb (bool_decide (it_status it = "completed"))
       then Some now else it_completedAt it |}.

(** [completedItems++; pendingItems--] under the guard
    [status === 'completed' && previousStatus !== 'completed']. *)
Definition bumpCounters (status previousStatus : string) (t : tracking) : Z * Z :=
  if bool_decide (status = "completed") && negb (bool_decide (previousStatus = "completed"))
  then (completedItems t + 1, pendingItems t - 1)
  else (completedItems t, pendingItems t).

(** The names [Object.prototype] answers to in the V8 runtime (the script
    needs it: it uses optional chaining).  [tracking.subBlocks] is an
    object made by [JSON.parse], so [subBlocks[itemId]] reads an own key
    first and one of these members otherwise; every member is a function,
    [__proto__] is the prototype object itself: all are truthy. *)
Definition objectPrototypeMembers : list string :=
  [ "constructor"; "__defineGetter__"; "__defineSetter__"; "hasOwnProperty";
    "__lookupGetter__"; "__lookupSetter__"; "isPrototypeOf"; "propertyIsEnumerable";
    "toString"; "valueOf"; "__proto__"; "toLocaleString" ].

Definition inheritedMember (name : string) : bool :=
  bool_decide (name ∈ objectPrototypeMembers).

(** [updateItemStatusInControl(pageId, itemId, contentType, taskId, status,
    processedFile)]; the first component is [None] where the function
    returns [null].

    When [itemId] is no key of [tracking.subBlocks] but the name of a
    member of [Object.prototype], the test [subBlocks[itemId]] succeeds:
    status, task id and processed file are written on that member, which
    is no part of the manifest and is not saved, and the counters move as
    for an item whose previous status is [undefined].  Each call is taken
    to run in an execution of its own, as each callback does, so that
    what an earlier call wrote on such a member is not there. *)
Definition updateItemStatusInControl (now : string)
    (pageId itemId contentType taskId status : string) (processedFile : option string)
    (drive : folder) : option updateResult * folder :=
  match loadPageStatusControl pageId drive with
  | None => (None, drive)
  | Some statusControl =>
      let t := sc_tracking statusControl in
      let updated : option tracking :=
        if bool_decide (contentType = "main_page")
           && bool_decide (it_itemId (mainPage t) = itemId) then
          let previousStatus := it_status (mainPage t) in
          let counters := bumpCounters status previousStatus t in
          Some {| mainPage := markItem now taskId status processedFile (mainPage t);
                  subBlocks := subBlocks t;
                  totalItems := totalItems t;
                  totalSubBlocks := totalSubBlocks t;
                  completedItems := counters.1;
                  pendingItems := counters.2 |}
        else if bool_decide (contentType = "sub_block") then
          match subBlocks t !! itemId with
          | Some sb =>
              let previousStatus := it_status (sb_item sb) in
              let counters := bumpCounters status previousStatus t in
              let sb' := {| sb_item := markItem now taskId status processedFile (sb_item sb);
                            sb_sourceType := sb_sourceType sb;
                            sb_url := sb_url sb;
                            sb_title := sb_title sb |} in
              Some {| mainPage := mainPage t;
                      subBlocks := <[itemId := sb']> (subBlocks t);
                      totalItems := totalItems t;
                      totalSubBlocks := totalSubBlocks t;
                      completedItems := counters.1;
                      pendingItems := counters.2 |}
          | None =>
              if inheritedMember itemId then
                let counters :=
                  if bool_decide (status = "completed")
                  then (completedItems t + 1, pendingItems t - 1)
                  else (completedItems t, pendingItems t) in
                Some {| mainPage := mainPage t;
                        subBlocks := subBlocks t;
                        totalItems := totalItems t;
                        totalSubBlocks := totalSubBlocks t;
                        completedItems := counters.1;
                        pendingItems := counters.2 |}
              else None
          end
        else None in
      match updated with
      | None => (None, drive)
      | Some t' =>
          let (saved, drive') :=
            savePageStatusControl now pageId (set_tracking t' statusControl) drive in
          let allDone := bool_decide (completedItems t' = totalItems t') in
          (Some {| ur_saved := saved;
                   ur_allCompleted := allDone;
                   ur_readyForFinalProcessing := allDone |}, drive')
      end
  end.

(** One [MarkCompleted] call: the arguments the callback handler passes
    with status ['completed']. *)
Record completion := Completion {
  cp_now : string;
  cp_itemId : string;
  cp_contentType : string;
  cp_taskId : string;
  cp_processedFile : option string
}.

Definition markCompleted (pageId : string) (c : completion) (drive : folder)
  : option updateResult * folder :=
  updateItemStatusInControl (cp_now c) pageId (cp_itemId c) (cp_contentType c)
    (cp_taskId c) "completed" (cp_processedFile c) drive.

(** A sequence of [MarkCompleted] calls for one document, each on the
    folder the previous one left: the results in call order, and the final
    folder. *)
Fixpoint markCompletedAll (pageId : string) (calls : list completion) (drive : folder)
  : list (option updateResult) * folder :=
  match calls with
  | [] => ([], drive)
  | c :: rest =>
      let (r, drive') := markCompleted pageId c drive in
      let (rs, drive'') := markCompletedAll pageId rest drive' in
      (r :: rs, drive'')
  end.

(** Whether a call returned [allCompleted: true]. *)
Definition saysAllCompleted (r : option updateResult) : bool :=
  match r with
  | Some u => ur_allCompleted u
  | None => false
  end.

(** ** Combination of chunk results ([NotionAPI.gs], [combineChunkResults]) *)

(** An entry of [chunking.chunkResults]; [cr_result] is [None] when the
    entry has no [result] field. *)
Record chunkResult := ChunkResult { cr_result : option string }.

Record chunking := Chunking {
  totalChunks : Z;
  chunkResults : gmap string chunkResult
}.

Definition chunkId (pageId : string) (i : Z) : string :=
  pageId +:+ "_chunk_" +:+ pretty i.

Definition nl2 : string := String JS.newline (String JS.newline "").

Definition failedPlaceholder : string := "[Chunk processing failed or incomplete]".

(** The string pushed for chunk [i],
    [`## Chunk ${i + 1} of ${totalChunks}\n\n${body}`]: the test is
    [chunkResult && chunkResult.result], so an empty result counts as
    missing. *)
Definition chunkSummary (pageId : string) (ch : chunking) (i : Z) : string :=
  match chunkResults ch !! chunkId pageId i with
  | Some {| cr_result := Some result |} =>
      if JS.truthy result
      then "## Chunk " +:+ pretty (i + 1) +:+ " of " +:+ pretty (totalChunks ch)
             +:+ nl2 +:+ result
      else "## Chunk " +:+ pretty (i + 1) +:+ " of " +:+ pretty (totalChunks ch)
             +:+ nl2 +:+ failedPlaceholder
  | _ => "## Chunk " +:+ pretty (i + 1) +:+ " of " +:+ pretty (totalChunks ch)
           +:+ nl2 +:+ failedPlaceholder
  end.

(** [for (let i = 0; i < chunking.totalChunks; i++) chunkSummaries.push(...)],
    [count] iterations from index [i]. *)
Fixpoint collectSummaries (pageId : string) (ch : chunking) (count : nat) (i : Z)
    (chunkSummaries : list string) : list string :=
  match count with
  | O => chunkSummaries
  | S count' =>
      collectSummaries pageId ch count' (i + 1) (chunkSummaries ++ [chunkSummary pageId ch i])
  end.

Definition chunkSummaries (pageId : string) (ch : chunking) : list string :=
  collectSummaries pageId ch (Z.to_nat (totalChunks ch)) 0 [].

Definition summarySeparator : string := nl2 +:+ "---" +:+ nl2.

(** [chunkSummaries.join('\n\n---\n\n')] *)
Definition combinedSummaries (pageId : string) (ch : chunking) : string :=
  JS.join summarySeparator (chunkSummaries pageId ch).

(** The text of the multi-chunk [finalSummary] before and after the
    combined summaries; [contentLength] is [doc.cleanedContent.length] and
    [now] the completion time. *)
Definition finalSummaryHead (ch : chunking) : string :=
  "# Combined Document Summary" +:+ nl2
    +:+ "This document was processed in " +:+ pretty (totalChunks ch)
    +:+ " chunks and combined into a unified summary." +:+ nl2
    +:+ "## Individual Chunk Summaries" +:+ nl2.

Definition finalSummaryTail (now : string) (contentLength : Z) (ch : chunking) : string :=
  nl2 +:+ "## Processing Summary" +:+ String JS.newline ""
    +:+ "- Total chunks: " +:+ pretty (totalChunks ch) +:+ String JS.newline ""
    +:+ "- Content length: " +:+ pretty contentLength +:+ " characters"
    +:+ String JS.newline ""
    +:+ "- Processing completed: " +:+ now.

(** The [finalSummary] of [combineChunkResults]. *)
Definition finalSummary (now : string) (contentLength : Z) (pageId : string) (ch : chunking)
  : string :=
  if 1 <? totalChunks ch then
    finalSummaryHead ch +:+ combinedSummaries pageId ch
      +:+ finalSummaryTail now contentLength ch
  else
    match chunkSummaries pageId ch with
    | first :: _ => if JS.truthy first then first else "No results available"
    | [] => "No results available"
    end.

(** ** Task lookup among the workflow states (handler script) *)

Definition workflowStateKey (pageId : string) : string := "WORKFLOW_STATE_" +:+ pageId.

Section Handler.

(** [JSON.parse(value).taskId] for a stored workflow state: [None] where
    the parse throws, [Some None] for a state without task id. *)
Variable stateTaskId : string → option (option string).

(** The loop of [findPageIdByTaskId] over [Object.entries(allProperties)]. *)
Fixpoint findInEntries (taskId : string) (entries : list (string * string))
  : option string :=
  match entries with
  | [] => None
  | (key, value) :: rest =>
      if JS.startsWith "WORKFLOW_STATE_" key then
        match stateTaskId value with
        | Some (Some t) =>
            if bool_decide (t = taskId) then Some (JS.drop 15 key)
            else findInEntries taskId rest
        | _ => findInEntries taskId rest
        end
      else findInEntries taskId rest
  end.

(** [findPageIdByTaskId(taskId)]; [None] is [null]. *)
Definition findPageIdByTaskId (taskId : string) (props : gmap string string)
  : option string :=
  findInEntries taskId (map_to_list props).

End Handler.

(** ** Sample inputs *)

(** A text of 40,000 characters with paragraph breaks at 10501, 21002 and
    31503. *)
Definition textFourChunks : string :=
  JS.repeat "a" 10501 +:+ paragraphMark +:+ JS.repeat "b" 10499 +:+ paragraphMark
    +:+ JS.repeat "c" 10499 +:+ paragraphMark +:+ JS.repeat "d" 8495.

(** A text of 40,000 characters without any break. *)
Definition textNoBreak : string := JS.repeat "x" 40000.

(** A text of 40,000 characters whose only sentence end starts at index
    15000, the proposed cut itself. *)
Definition textSentenceAtCut : string :=
  JS.repeat "a" 15000 +:+ ". " +:+ JS.repeat "b" 24998.

Definition textShort : string := "First part. Second part. Third part.".

(** ** Manifests seen as item sets *)

Definition trackingOf (u : updateResult) : tracking :=
  sc_tracking (sv_statusControl (ur_saved u)).

Definition isCompleted (it : itemRecord) : Prop := it_status it = "completed".

(** The number of tracked items whose status is 'completed'. *)
Definition completedCount (t : tracking) : Z :=
  (if decide (isCompleted (mainPage t)) then 1 else 0)
  + Z.of_nat (size (filter (λ kv : string * subBlockRecord, isCompleted (sb_item kv.2))
                      (subBlocks t))).

(** The number of tracked items: the main page and the sub-blocks. *)
Definition itemCount (t : tracking) : Z := 1 + Z.of_nat (size (subBlocks t)).

(** The counters agree with the item records, as they do in a manifest
    made by [initializePageStatusControl] from an index whose [totalItems]
    counts the main page and its distinct sub-blocks. *)
Definition consistent (t : tracking) : Prop :=
  completedItems t = completedCount t ∧ totalItems t = itemCount t.

(** A document with a main page and one sub-block, and its callbacks. *)
Definition sampleIndex : pageIndex := {|
  ix_main := {| ix_id := "p1_main"; ix_contentId := "p1_main"; ix_title := "Page";
                ix_sourceType := ""; ix_url := "" |};
  ix_subBlocks :=
    [ {| ix_id := "p1_sub_1"; ix_contentId := "p1_sub_1"; ix_title := "External doc";
         ix_sourceType := "google_doc"; ix_url := "https://docs.google.com/document/d/1" |} ];
  ix_totalItems := 2
|}.

Definition sampleFolder : folder :=
  (initializePageStatusControl "t0" "p1" sampleIndex ∅).2.

Definition callMain : completion := {|
  cp_now := "t1"; cp_itemId := "p1_main"; cp_contentType := "main_page";
  cp_taskId := "task-1"; cp_processedFile := Some "processed_p1_main.md" |}.

Definition callSub : completion := {|
  cp_now := "t2"; cp_itemId := "p1_sub_1"; cp_contentType := "sub_block";
  cp_taskId := "task-2"; cp_processedFile := Some "processed_p1_sub_1.md" |}.

(** The same sub-block reported once more, after everything is complete. *)
Definition callSubAgain : completion := {|
  cp_now := "t3"; cp_itemId := "p1_sub_1"; cp_contentType := "sub_block";
  cp_taskId := "task-2"; cp_processedFile := Some "processed_p1_sub_1.md" |}.

Definition sampleManifest : statusControl :=
  sv_statusControl (initializePageStatusControl "t0" "p1" sampleIndex ∅).1.

(** The result recorded for chunk [i], when there is one that the test
    [chunkResult && chunkResult.result] accepts. *)
Definition recordedResult (pageId : string) (ch : chunking) (i : Z) : option string :=
  match chunkResults ch !! chunkId pageId i with
  | Some {| cr_result := Some result |} => if JS.truthy result then Some result else None
  | _ => None
  end.

(** Two chunks, the second without a recorded result. *)
Definition sampleChunking : chunking := {|
  totalChunks := 2;
  chunkResults := {[ chunkId "p1" 0 := {| cr_result := Some "Summary of part one." |} ]}
|}.

(** ** A sample callback *)

Definition quote : ascii := "034"%char.

(** The text of [s] up to the next double quote. *)
Fixpoint untilQuote (s : string) : option string :=
  match s with
  | "" => None
  | String c s' => if decide (c = quote) then Some "" else String c <$> untilQuote s'
  end.

(** What follows the first occurrence of [marker] in [s]. *)
Fixpoint afterMarker (marker s : string) : option string :=
  if JS.startsWith marker s then Some (JS.drop (String.length marker) s)
  else match s with
       | "" => None
       | String _ s' => afterMarker marker s'
       end.

Definition taskIdMarker : string :=
  String quote ("taskId" +:+ String quote (":" +:+ String quote "")).

(** A reader of the [taskId] field, enough for state texts written as one
    flat JSON object with string fields. *)
Definition sampleStateTaskId (value : string) : option (option string) :=
  if JS.startsWith "{" value
  then Some (afterMarker taskIdMarker value ≫= untilQuote)
  else None.

(** One document waits for task [task-A]. *)
Definition sampleProperties : gmap string string :=
  {[ workflowStateKey "page-1" :=
       "{" +:+ String quote ("taskId" +:+ String quote (":" +:+ String quote
         ("task-A" +:+ String quote "}"))) ]}.

(** ** A concrete instance of the store's parameters *)

#[global] Instance metadata_eq_dec : EqDecision metadata.
Proof. solve_decision. Defined.

#[global] Instance storedDoc_eq_dec : EqDecision storedDoc.
Proof. solve_decision. Defined.

#[global] Instance metadata_countable : Countable metadata.
Proof.
  refine (inj_countable'
            (λ m, (md_caller m, md_timestamp m, md_size m, md_chunked m, md_chunkCount m))
            (λ t, match t with (a, b, c, d, e) => Metadata a b c d e end) _).
  by intros [].
Defined.

#[global] Instance storedDoc_countable : Countable storedDoc.
Proof.
  refine (inj_countable' (λ d, (doc_content d, doc_metadata d))
            (λ t, match t with (a, b) => StoredDoc a b end) _).
  by intros [].
Defined.

(** A serialisation of the stored documents that can be read back, used
    where a closed example needs actual property texts: a letter, then the
    binary digits of the document's code. *)
Module Codec.

Fixpoint digits (p : positive) : string :=
  match p with
  | xH => ""
  | xO q => String "0" (digits q)
  | xI q => String "1" (digits q)
  end.

Fixpoint number (s : string) : option positive :=
  match s with
  | "" => Some xH
  | String c s' =>
      q ← number s';
      if decide (c = "0"%char) then Some (xO q)
      else if decide (c = "1"%char) then Some (xI q)
      else None
  end.

Definition stringify (d : storedDoc) : string := String "J" (digits (encode d)).

Definition parse (s : string) : option storedDoc :=
  match s with
  | String c r => if decide (c = "J"%char) then number r ≫= decode else None
  | "" => None
  end.

(** No timestamp of the examples is read as a date. *)
Definition noDate (timestamp : string) : option Z := None.

(** A property service that takes every write. *)
Definition acceptAll (props : gmap string string) (key value : string) : option string := None.

(** A property service that refuses values longer than [limit]. *)
Definition refuseLong (limit : Z) (props : gmap string string) (key value : string)
  : option string :=
  if limit <? JS.length value then Some "Exception: Argument too large: value" else None.

Definition save := saveToStorage stringify parse noDate acceptAll.
Definition load := loadFromStorage parse.

End Codec.

Definition noon : clock := {| nowMs := 1735732800000; nowIso := "2025-01-01T12:00:00.000Z" |}.
Definition later : clock := {| nowMs := 1735736400000; nowIso := "2025-01-01T13:00:00.000Z" |}.

(** A payload of one character more than a slot holds. *)
Definition payloadOverOneSlot : string := JS.repeat "A" 450001.

(** A payload of three slots (450,000 + 450,000 + 1 characters), and the
    two-slot payload of the storage test. *)
Definition payloadThreeSlots : string := JS.repeat "B" 900001.
Definition payloadTwoSlots : string := JS.repeat "C" 600000.

(** A payload longer than [maxTotalSize]. *)
Definition payloadOverBudget : string := JS.repeat "D" 8000001.

(** The store after [chunks.forEach(...)] when every write is taken:
    chunk [k] of the list sits under the chunk key [index + k]. *)
Fixpoint insertChunks (path : string) (chunks : list string) (index : nat)
    (props : gmap string string) : gmap string string :=
  match chunks with
  | [] => props
  | chunk :: rest => insertChunks path rest (S index) (<[chunkKey path index := chunk]> props)
  end.

(** What the reconstruction loop appends for slot [i]: its text, or
    nothing when the slot is absent. *)
Definition slotText (path : string) (props : gmap string string) (i : nat) : string :=
  default "" (props !! chunkKey path i).

(** The number of slots a payload of [len] characters needs. *)
Definition slotsNeeded (len size : Z) : Z := (len + size - 1) / size.

(** The two documents [saveToStorage] serialises. *)
Definition propertyDataOf (now : clock) (content : string) (caller : list (string * string))
  : storedDoc :=
  {| doc_content := Some content;
     doc_metadata := Some {| md_caller := caller; md_timestamp := nowIso now;
                             md_size := JS.length content; md_chunked := false;
                             md_chunkCount := None |} |}.

Definition metadataObjOf (now : clock) (content : string) (caller : list (string * string))
    (chunkCount : Z) : storedDoc :=
  {| doc_content := None;
     doc_metadata := Some {| md_caller := caller; md_timestamp := nowIso now;
                             md_size := JS.length content; md_chunked := true;
                             md_chunkCount := Some chunkCount |} |}.

(** The chunks of a payload under [STORAGE_CONFIG]. *)
Definition payloadChunks (content : string) : list string :=
  splitChunks (String.length content) content (maxChunkSize STORAGE_CONFIG) 0.

(** ** Sample stores *)

(** A chunked entry of three slots whose middle slot is gone. *)
Definition gappedMetadata : metadata := {|
  md_caller := []; md_timestamp := "2025-01-01T12:00:00.000Z";
  md_size := 9; md_chunked := true; md_chunkCount := Some 3 |}.

Definition gappedStore : gmap string string :=
  {[ metaKey "notes" := Codec.stringify {| doc_content := None;
                                           doc_metadata := Some gappedMetadata |};
     chunkKey "notes" 0 := "abc";
     chunkKey "notes" 2 := "ghi" ]}.

(** A three-slot payload written by [saveToStorage], then slot 1 lost. *)
Definition storeAfterLosingSlot : gmap string string :=
  delete (chunkKey "report" 1) (Codec.save noon "report" payloadThreeSlots [] ∅).2.

(** A short payload, then a payload over one slot under the same key. *)
Definition storeShortThenLong : gmap string string :=
  (Codec.save later "k" payloadOverOneSlot [] (Codec.save noon "k" "old" [] ∅).2).2.

(** Under one key: a short payload then a two-slot one; a two-slot
    payload then a short one; a three-slot payload then a two-slot one. *)
Definition storeFirstThenTwoSlots : gmap string string :=
  (Codec.save later "doc" payloadOverOneSlot [] (Codec.save noon "doc" "first" [] ∅).2).2.

Definition storeTwoSlotsThenSecond : gmap string string :=
  (Codec.save later "doc" "second" [] (Codec.save noon "doc" payloadOverOneSlot [] ∅).2).2.

Definition storeThreeSlotsThenTwo : gmap string string :=
  (Codec.save later "doc" payloadOverOneSlot []
     (Codec.save noon "doc" payloadThreeSlots [] ∅).2).2.

(** ** Specialised save and load functions (storage script) *)

(** [STORAGE_CONFIG.rawFilesPath], [.processedFilesPath], [.statusPath] *)
Definition rawFilesPath : string := "raw_files".
Definition processedFilesPath : string := "processed_files".
Definition statusPath : string := "status_control".

Definition rawFilePath (pageId itemId contentType : string) : string :=
  rawFilesPath +:+ "/" +:+ pageId +:+ "/" +:+ itemId +:+ "_" +:+ contentType.

Definition processedFilePath (pageId itemId contentType : string) : string :=
  processedFilesPath +:+ "/" +:+ pageId +:+ "/" +:+ itemId +:+ "_" +:+ contentType.

Definition statusControlPath (pageId : string) : string :=
  statusPath +:+ "/" +:+ pageId.

Section StorageWrappers.

Variable JSON_stringify : storedDoc → string.
Variable JSON_parse : string → option storedDoc.
Variable Date_parse : string → option Z.
Variable rejects : gmap string string → string → string → option string.

(** [saveRawFile(pageId, itemId, contentType, content)] *)
Definition saveRawFile (now : clock) (pageId itemId contentType content : string)
    (props : gmap string string) : saveResult * gmap string string :=
  saveToStorage JSON_stringify JSON_parse Date_parse rejects now
    (rawFilePath pageId itemId contentType) content
    [("type", "raw_file"); ("pageId", pageId); ("itemId", itemId);
     ("contentType", contentType)] props.

(** [saveProcessedFile(pageId, itemId, contentType, content, taskId)] *)
Definition saveProcessedFile (now : clock) (pageId itemId contentType content taskId : string)
    (props : gmap string string) : saveResult * gmap string string :=
  saveToStorage JSON_stringify JSON_parse Date_parse rejects now
    (processedFilePath pageId itemId contentType) content
    [("type", "processed_file"); ("pageId", pageId); ("itemId", itemId);
     ("contentType", contentType); ("taskId", taskId)] props.

(** [saveStatusControl(pageId, statusData)], for status data that is
    already a string. *)
Definition saveStatusControl (now : clock) (pageId statusData : string)
    (props : gmap string string) : saveResult * gmap string string :=
  saveToStorage JSON_stringify JSON_parse Date_parse rejects now
    (statusControlPath pageId) statusData
    [("type", "status_control"); ("pageId", pageId)] props.

(** [loadRawFile], [loadProcessedFile], [loadStatusControl] *)
Definition loadRawFile (pageId itemId contentType : string) (props : gmap string string)
  : option loaded :=
  loadFromStorage JSON_parse (rawFilePath pageId itemId contentType) props.

Definition loadProcessedFile (pageId itemId contentType : string)
    (props : gmap string string) : option loaded :=
  loadFromStorage JSON_parse (processedFilePath pageId itemId contentType) props.

Definition loadStatusControl (pageId : string) (props : gmap string string)
  : option loaded :=
  loadFromStorage JSON_parse (statusControlPath pageId) props.

End StorageWrappers.

(** The properties an entry of [path] may occupy: its single slot, its
    metadata slot and its numbered chunk slots. *)
Definition derivedKey (path key : string) : Prop :=
  key = storageKey path ∨ key = metaKey path ∨ ∃ i, key = chunkKey path i.


(** ** Storage statistics and the clean-up of a finished page *)

(** An element of [stats.entries]. *)
Record statsEntry := StatsEntry {
  se_path : string;
  se_size : Z;
  se_timestamp : string;
  se_chunked : bool;
  se_type : string
}.

(** The object [getStorageStats] returns: [stats.properties], [stats.sizes]
    and [stats.entries]. *)
Record storageStats := StorageStats {
  st_total : Z;
  st_storage : Z;
  st_chunks : Z;
  st_metadata : Z;
  st_other : Z;
  st_sizeTotal : Z;
  st_sizeAverage : Z;
  st_sizeLargest : Z;
  st_entries : list statsEntry
}.

(** [metadata.type]: the caller's field of that name, if any. *)
Definition callerField (name : string) (fields : list (string * string)) : option string :=
  snd <$> List.find (λ kv : string * string, bool_decide (kv.1 = name)) fields.

(** [a || b] on strings. *)
Definition orElse (a : option string) (b : string) : string :=
  match a with
  | Some s => if JS.truthy s then s else b
  | None => b
  end.

(** [stats.entries.sort((a, b) => b.size - a.size)]: largest first, entries
    of equal size in their order of arrival. *)
Fixpoint insertBySize (e : statsEntry) (sorted : list statsEntry) : list statsEntry :=
  match sorted with
  | [] => [e]
  | x :: rest =>
      if se_size e <? se_size x then x :: insertBySize e rest else e :: sorted
  end.

Definition sortBySize (entries : list statsEntry) : list statsEntry :=
  foldr insertBySize [] entries.

Section StorageStats.

Variable JSON_parse : string → option storedDoc.

(** [Math.round(a / b)] in double precision. *)
Variable Math_round_div : Z → Z → Z.

(** The entry [getStorageStats] pushes for a single-slot property. *)
Definition statsEntryOf (key value : string) (data : storedDoc) : statsEntry :=
  let size := JS.length value in
  match doc_metadata data with
  | Some md =>
      {| se_path := pathOfKey key;
         se_size := if md_size md =? 0 then size else md_size md;
         se_timestamp := orElse (Some (md_timestamp md)) "unknown";
         se_chunked := md_chunked md;
         se_type := orElse (callerField "type" (md_caller md)) "unknown" |}
  | None =>
      {| se_path := pathOfKey key; se_size := size; se_timestamp := "unknown";
         se_chunked := false; se_type := "unknown" |}
  end.

(** The body of the [forEach] of [getStorageStats], for one property;
    [st_sizeAverage] is filled in afterwards. *)
Definition statsVisit (stats : storageStats) (kv : string * string) : storageStats :=
  let key := kv.1 in
  let value := kv.2 in
  let size := JS.length value in
  let total := st_total stats + 1 in
  let sizeTotal := st_sizeTotal stats + size in
  let largest := if st_sizeLargest stats <? size then size else st_sizeLargest stats in
  if JS.startsWith "STORAGE_" key then
    if JS.includes "_CHUNK_" key then
      {| st_total := total; st_storage := st_storage stats;
         st_chunks := st_chunks stats + 1; st_metadata := st_metadata stats;
         st_other := st_other stats; st_sizeTotal := sizeTotal;
         st_sizeAverage := st_sizeAverage stats; st_sizeLargest := largest;
         st_entries := st_entries stats |}
    else if JS.endsWith "_META" key then
      {| st_total := total; st_storage := st_storage stats;
         st_chunks := st_chunks stats; st_metadata := st_metadata stats + 1;
         st_other := st_other stats; st_sizeTotal := sizeTotal;
         st_sizeAverage := st_sizeAverage stats; st_sizeLargest := largest;
         st_entries := st_entries stats |}
    else
      {| st_total := total; st_storage := st_storage stats + 1;
         st_chunks := st_chunks stats; st_metadata := st_metadata stats;
         st_other := st_other stats; st_sizeTotal := sizeTotal;
         st_sizeAverage := st_sizeAverage stats; st_sizeLargest := largest;
         st_entries :=
           match JSON_parse value with
           | Some data => st_entries stats ++ [statsEntryOf key value data]
           | None => st_entries stats
           end |}
  else
    {| st_total := total; st_storage := st_storage stats;
       st_chunks := st_chunks stats; st_metadata := st_metadata stats;
       st_other := st_other stats + 1; st_sizeTotal := sizeTotal;
       st_sizeAverage := st_sizeAverage stats; st_sizeLargest := largest;
       st_entries := st_entries stats |}.

Definition emptyStats : storageStats :=
  {| st_total := 0; st_storage := 0; st_chunks := 0; st_metadata := 0; st_other := 0;
     st_sizeTotal := 0; st_sizeAverage := 0; st_sizeLargest := 0; st_entries := [] |}.

(** [getStorageStats()]; the properties are visited in the order of
    [Object.keys(allProperties)]. *)
Definition getStorageStats (props : gmap string string) : storageStats :=
  let stats := foldl statsVisit emptyStats (map_to_list props) in
  {| st_total := st_total stats; st_storage := st_storage stats;
     st_chunks := st_chunks stats; st_metadata := st_metadata stats;
     st_other := st_other stats; st_sizeTotal := st_sizeTotal stats;
     st_sizeAverage :=
       if 0 <? st_total stats then Math_round_div (st_sizeTotal stats) (st_total stats)
       else 0;
     st_sizeLargest := st_sizeLargest stats;
     st_entries := sortBySize (st_entries stats) |}.

(** The filter of [cleanCompletedPageData]. *)
Definition isPageEntry (pageId : string) (entry : statsEntry) : bool :=
  JS.includes ("/" +:+ pageId +:+ "/") (se_path entry)
  || JS.endsWith ("/" +:+ pageId) (se_path entry).

(** [cleanCompletedPageData(pageId)]: the count it returns and the store
    it leaves. *)
Definition cleanCompletedPageData (pageId : string) (props : gmap string string)
  : Z * gmap string string :=
  let props1 := deleteFromStorage JSON_parse (statusControlPath pageId) props in
  let stats := getStorageStats props1 in
  let pageEntries := filter (λ entry, isPageEntry pageId entry = true) (st_entries stats) in
  (1 + Z.of_nat (List.length pageEntries),
   foldl (λ acc entry, deleteFromStorage JSON_parse (se_path entry) acc) props1 pageEntries).

End StorageStats.


(** [Math.round(a / b)] where the quotient is exact. *)
Definition roundedQuotient (a b : Z) : Z := (2 * a + b) / (2 * b).

(** A store that holds one raw file, saved in a single chunk slot with its
    metadata slot, and one that holds it in its single slot. *)
Definition chunkedRawStore : gmap string string :=
  {[ chunkKey (rawFilePath "p" "i" "text") 0 := "abc";
     metaKey (rawFilePath "p" "i" "text") :=
       Codec.stringify
         {| doc_content := None;
            doc_metadata := Some {| md_caller := [];
                                    md_timestamp := "2025-01-01T12:00:00.000Z";
                                    md_size := 3; md_chunked := true;
                                    md_chunkCount := Some 1 |} |} ]}.

Definition singleRawStore : gmap string string :=
  {[ storageKey (rawFilePath "p" "i" "text")
     := Codec.stringify (propertyDataOf noon "abc" []) ]}.


(** ** The index of a document (class [DocumentStructure]) *)

Record documentStructure := DocumentStructure {
  ds_pageId : string;
  ds_index : pageIndex
}.

(** The [index] that [new DocumentStructure(pageId, pageTitle)] sets up. *)
Definition newDocumentStructure (pageId pageTitle : string) : documentStructure :=
  {| ds_pageId := pageId;
     ds_index := {|
       ix_main := {| ix_id := pageId +:+ "_main"; ix_contentId := pageId +:+ "_main";
                     ix_title := pageTitle; ix_sourceType := ""; ix_url := "" |};
       ix_subBlocks := [];
       ix_totalItems := 1 |} |}.

(** [addSubBlock(url, type, title)]: the sub-block it returns, and the
    document with the sub-block pushed and [totalItems] incremented. *)
Definition addSubBlock (url type : string) (title : option string) (doc : documentStructure)
  : indexItem * documentStructure :=
  let totalItems := ix_totalItems (ds_index doc) in
  let subBlock := {|
    ix_id := ds_pageId doc +:+ "_sub_" +:+ pretty totalItems;
    ix_contentId := ds_pageId doc +:+ "_sub_" +:+ pretty totalItems;
    ix_title := orElse title ("External Content " +:+ pretty totalItems);
    ix_sourceType := type;
    ix_url := url |} in
  (subBlock,
   {| ds_pageId := ds_pageId doc;
      ds_index := {| ix_main := ix_main (ds_index doc);
                     ix_subBlocks := ix_subBlocks (ds_index doc) ++ [subBlock];
                     ix_totalItems := totalItems + 1 |} |}).

(** The arguments of one [addSubBlock] call, and a run of such calls on a
    document. *)
Record subBlockCall := SubBlockCall {
  sbc_url : string;
  sbc_type : string;
  sbc_title : option string
}.

Definition addSubBlocks (calls : list subBlockCall) (doc : documentStructure)
  : documentStructure :=
  foldl (λ doc call, (addSubBlock (sbc_url call) (sbc_type call) (sbc_title call) doc).2)
        doc calls.

(** ** [checkPageCompletionStatus] *)

Record completionStatus := CompletionStatus {
  cs_exists : bool;
  cs_completed : bool;
  cs_statusControl : option statusControl;
  cs_completedItems : option Z;
  cs_totalItems : option Z;
  cs_pendingItems : option Z
}.

(** [checkPageCompletionStatus(pageId)] *)
Definition checkPageCompletionStatus (pageId : string) (drive : folder) : completionStatus :=
  match loadPageStatusControl pageId drive with
  | None =>
      {| cs_exists := false; cs_completed := false; cs_statusControl := None;
         cs_completedItems := None; cs_totalItems := None; cs_pendingItems := None |}
  | Some statusControl =>
      let t := sc_tracking statusControl in
      {| cs_exists := true;
         cs_completed := bool_decide (completedItems t = totalItems t);
         cs_statusControl := Some statusControl;
         cs_completedItems := Some (completedItems t);
         cs_totalItems := Some (totalItems t);
         cs_pendingItems := Some (pendingItems t) |}
  end.


(** ** Chunk bookkeeping of the asynchronous workflow *)

(** An entry of [chunking.chunkResults] as [resumeAfterLLMCallback] writes
    it. *)
Record chunkRecord := ChunkRecord {
  ck_index : Z;
  ck_result : string;
  ck_timestamp : string;
  ck_chunkLength : Z
}.

(** [state.chunking] *)
Record chunkingState := ChunkingState {
  cg_totalChunks : Z;
  cg_currentChunkIndex : Z;
  cg_chunks : list string;
  cg_processedChunks : list Z;
  cg_chunkResults : gmap string chunkRecord
}.

(** [state.chunking] as [startLLMProcessing] sets it up for [chunks]. *)
Definition startChunking (chunks : list string) : chunkingState :=
  {| cg_totalChunks := Z.of_nat (List.length chunks);
     cg_currentChunkIndex := 0;
     cg_chunks := chunks;
     cg_processedChunks := [];
     cg_chunkResults := ∅ |}.

(** [chunks[i]] for a number [i]: [None] is [undefined]. *)
Definition chunkAt (chunks : list string) (i : Z) : option string :=
  if i <? 0 then None else chunks !! Z.to_nat i.

(** What [resumeAfterLLMCallback] goes on to do: send the next chunk
    ([mode: 'async_continuing']) or combine the results. *)
Inductive resumeOutcome :=
  | AsyncContinuing (chunking : chunkingState)
  | Combine (chunking : chunkingState).

(** The chunk bookkeeping of [resumeAfterLLMCallback(pageId, state,
    callbackResult)] on [state.chunking]; [None] where reading the length
    of a chunk that is not there throws. *)
Definition resumeAfterLLMCallback (now pageId callbackResult : string)
    (chunking : chunkingState) : option resumeOutcome :=
  let currentChunkIndex := cg_currentChunkIndex chunking in
  match chunkAt (cg_chunks chunking) currentChunkIndex with
  | None => None
  | Some chunk =>
      let chunkResults :=
        <[chunkId pageId currentChunkIndex :=
            {| ck_index := currentChunkIndex; ck_result := callbackResult;
               ck_timestamp := now; ck_chunkLength := JS.length chunk |}]>
          (cg_chunkResults chunking) in
      let processedChunks := cg_processedChunks chunking ++ [currentChunkIndex] in
      let nextChunkIndex := currentChunkIndex + 1 in
      if nextChunkIndex <? cg_totalChunks chunking then
        match chunkAt (cg_chunks chunking) nextChunkIndex with
        | None => None
        | Some nextChunk =>
            Some (AsyncContinuing
                    {| cg_totalChunks := cg_totalChunks chunking;
                       cg_currentChunkIndex := nextChunkIndex;
                       cg_chunks := cg_chunks chunking;
                       cg_processedChunks := processedChunks;
                       cg_chunkResults := chunkResults |})
        end
      else
        Some (Combine
                {| cg_totalChunks := cg_totalChunks chunking;
                   cg_currentChunkIndex := currentChunkIndex;
                   cg_chunks := cg_chunks chunking;
                   cg_processedChunks := processedChunks;
                   cg_chunkResults := chunkResults |})
  end.

(** [state.chunking] as [combineChunkResults] reads it. *)
Definition chunkingOf (state : chunkingState) : chunking :=
  {| totalChunks := cg_totalChunks state;
     chunkResults := (λ r, {| cr_result := Some (ck_result r) |})
                       <$> cg_chunkResults state |}.

(** One callback: the time it arrives and the result it carries. *)
Record callback := Callback {
  cb_now : string;
  cb_result : string
}.

(** A run of callbacks for one page, each resumed on the state the
    previous one left; nothing is resumed after the results have been
    combined. *)
Fixpoint resumeCallbacks (pageId : string) (callbacks : list callback)
    (chunking : chunkingState) : option resumeOutcome :=
  match callbacks with
  | [] => Some (AsyncContinuing chunking)
  | cb :: rest =>
      match resumeAfterLLMCallback (cb_now cb) pageId (cb_result cb) chunking with
      | Some (AsyncContinuing chunking') => resumeCallbacks pageId rest chunking'
      | Some (Combine chunking') =>
          match rest with
          | [] => Some (Combine chunking')
          | _ :: _ => None
          end
      | None => None
      end
  end.


(** Two chunks and their callbacks, the second with an empty result. *)
Definition sampleChunks : list string := ["First part."; "Second part."].

Definition sampleCallbacks : list callback :=
  [ {| cb_now := "t1"; cb_result := "Summary of part one." |};
    {| cb_now := "t2"; cb_result := "" |} ].


(** ** Summarising a large text chunk by chunk ([processLargeContent]) *)

(** The options [processLargeContent] passes to [callLLM]. *)
Record llmOptions := LlmOptions {
  lo_rawContent : string;
  lo_context : string;
  lo_mode : string;
  lo_chunkNumber : option Z;
  lo_totalChunks : option Z
}.

Definition chunkSeparator : string :=
  String JS.newline ("---" +:+ String JS.newline (String JS.newline "")).

(** [`[Chunk ${i + 1} failed to process]`] *)
Definition chunkFailed (i : Z) : string :=
  "[Chunk " +:+ pretty (i + 1) +:+ " failed to process]".

Section LargeContent.

Variable above70 : Z → Z → Z → bool.

(** The language model and whatever it depends on: [callLLM(prompt,
    options)] answers with a text or with [null] and leaves the outside
    world in a new state. *)
Variable LLM : Type.
Variable callLLM : string → llmOptions → LLM → option string * LLM.

(** The prompt templates, filled in by regular-expression replacement. *)
Variable createChunkPrompt : string → Z → Z → string.
Variable createCombinePrompt : string → string.

(** [promptTemplate.replace('${content}', content)] *)
Variable replaceContent : string → string → string.

(** The [for] loop over the chunks, from chunk [i] on; the pauses between
    the calls are left out. *)
Fixpoint summarizeChunks (chunks : list string) (i total : Z) (summaries : list string)
    (llm : LLM) : list string * LLM :=
  match chunks with
  | [] => (summaries, llm)
  | chunk :: rest =>
      let (chunkSummary, llm') :=
        callLLM (createChunkPrompt chunk (i + 1) total)
          {| lo_rawContent := chunk; lo_context := "main_document"; lo_mode := "chunk";
             lo_chunkNumber := Some (i + 1); lo_totalChunks := Some total |} llm in
      summarizeChunks rest (i + 1) total
        (summaries ++ [orElse chunkSummary (chunkFailed i)]) llm'
  end.

(** [processLargeContent(content, promptTemplate)] for a string [content];
    the inner [None] is [null], the outer one a chunk loop that is still
    running when its fuel is used up. *)
Definition processLargeContent (content : string) (promptTemplate : option string)
    (llm : LLM) : option (option string * LLM) :=
  match promptTemplate with
  | Some template =>
      if JS.truthy template then
        if JS.length content <=? CHUNK_SIZE then
          Some (callLLM (replaceContent template content)
                  {| lo_rawContent := content; lo_context := "main_document";
                     lo_mode := "single_pass"; lo_chunkNumber := None;
                     lo_totalChunks := None |} llm)
        else
          match chunkContent above70 content CHUNK_SIZE with
          | None => None
          | Some chunks =>
              if bool_decide (List.length chunks = 0%nat) then Some (None, llm)
              else
                let (summaries, llm1) :=
                  summarizeChunks chunks 0 (Z.of_nat (List.length chunks)) [] llm in
                if (1 <? List.length summaries)%nat then
                  let combinedContent := JS.join chunkSeparator summaries in
                  let (finalSummary, llm2) :=
                    callLLM (createCombinePrompt combinedContent)
                      {| lo_rawContent := combinedContent; lo_context := "main_document";
                         lo_mode := "chunk_combine"; lo_chunkNumber := None;
                         lo_totalChunks := None |} llm1 in
                  Some (Some (orElse finalSummary combinedContent), llm2)
                else
                  Some (if bool_decide (List.length summaries = 1%nat)
                        then head summaries else None, llm1)
          end
      else
        Some (callLLM content
                {| lo_rawContent := content; lo_context := "main_document_fallback";
                   lo_mode := "no_template"; lo_chunkNumber := None;
                   lo_totalChunks := None |} llm)
  | None =>
      Some (callLLM content
              {| lo_rawContent := content; lo_context := "main_document_fallback";
                 lo_mode := "no_template"; lo_chunkNumber := None;
                 lo_totalChunks := None |} llm)
  end.

End LargeContent.

(** A text of one character more than [CHUNK_SIZE], and a language model
    that never answers. *)
Definition textOverChunkSize : string := JS.repeat "A" 15001.

Definition silentLLM (prompt : string) (options : llmOptions) (llm : unit)
  : option string * unit := (None, llm).


(** ** The callback handler ([doPost_HandleZapierLLMResult]) *)

(** The handler script declares [doPost_HandleZapierLLMResult] twice; the
    later declaration replaces the earlier one when the script is loaded,
    and it is the one [doPost] reaches.  It is embedded here, for a request
    that carries the fields it reads.  It saves the result as a processed
    file on Drive, marks the item completed in the page status control and
    runs the final step when every item is completed; it looks no task up
    among the workflow states and contains no access to the script
    properties, which are threaded through to state just that. *)
Module StatusHandler.

Record request := Request {
  rq_taskId : string;
  rq_result : string;
  rq_pageId : string;
  rq_itemId : string;
  rq_contentType : string;
  rq_contentId : string;
  rq_rawFileName : string;
  rq_rawFileId : string
}.

(** What [createFinalSummaryAndSendWebhook] returns. *)
Record finalResult := FinalResult {
  fr_success : bool;
  fr_finalSummaryFile : option string;
  fr_webhookSent : option bool
}.

(** The JSON body the handler answers with, without its [timestamp]; a
    field is [None] where the answer does not have it. *)
Record response := Response {
  rs_status : string;
  rs_message : string;
  rs_error : option string;
  rs_pageId : string;
  rs_taskId : string;
  rs_processedFile : option string;
  rs_finalSummaryFile : option string;
  rs_webhookSent : option bool;
  rs_completedItems : option Z;
  rs_totalItems : option Z
}.

Definition nl : string := String JS.newline "".

Definition processedFileName (rq : request) (timestamp : string) : string :=
  "processed_" +:+ rq_contentId rq +:+ "_" +:+ timestamp +:+ ".md".

(** The text of the processed result file. *)
Definition processedFileContent (rq : request) (processedAt : string) : string :=
  "# " +:+ (if bool_decide (rq_contentType rq = "main_page")
            then "Main Page" else "Sub-Block") +:+ " LLM Result" +:+ nl +:+ nl
    +:+ "**Content ID:** " +:+ rq_contentId rq +:+ nl
    +:+ "**Item ID:** " +:+ rq_itemId rq +:+ nl
    +:+ "**Page ID:** " +:+ rq_pageId rq +:+ nl
    +:+ "**Content Type:** " +:+ rq_contentType rq +:+ nl
    +:+ "**Task ID:** " +:+ rq_taskId rq +:+ nl
    +:+ "**Raw File:** " +:+ rq_rawFileName rq +:+ nl
    +:+ "**Raw File ID:** " +:+ rq_rawFileId rq +:+ nl
    +:+ "**Processed:** " +:+ processedAt +:+ nl +:+ nl
    +:+ "## LLM Processing Result" +:+ nl +:+ nl
    +:+ rq_result rq +:+ nl +:+ nl
    +:+ "---" +:+ nl
    +:+ "*Generated by automated LLM processing*".

(** Whether a response tells the caller that the task was not found: by
    its status or in its message. *)
Definition indicatesNotFound (r : response) : bool :=
  bool_decide (rs_status r = "not_found")
  || JS.includes "not found" (rs_message r)
  || JS.includes "Not found" (rs_message r)
  || JS.includes "NOT FOUND" (rs_message r).

Section Handler.

(** Everything outside the log folder (the outbound webhook). *)
Variable World : Type.

(** Drive may refuse to write a text file (the call throws, with the given
    message) depending on what the folder holds and what is written. *)
Variable driveRejects : gmap string string → string → string → option string.

(** [createFinalSummaryAndSendWebhook(pageId, statusControl)], on the
    status files and the text files of the log folder; it catches its own
    errors and reads no script property. *)
Variable createFinalSummaryAndSendWebhook :
  string → statusControl → folder → gmap string string → World →
  finalResult * folder * gmap string string * World.

(** [saveToGoogleDrive(content, fileName)]: [inl] when it throws. *)
Definition saveToGoogleDrive (content fileName : string) (files : gmap string string)
  : string + gmap string string :=
  match driveRejects files fileName content with
  | Some err => inl err
  | None => inr (<[fileName := content]> files)
  end.

(** [doPost_HandleZapierLLMResult(requestData)]: [timestamp] is the
    file-name form of the current time, [processedAt] and [updatedAt] the
    times read while the file is written and the status updated; [props]
    are the script properties, [drive] holds the status files of the log
    folder and [files] its text files (a status file is named
    [page_status_..json] and a processed file [processed_..md], so a write
    of one kind replaces no file of the other). *)
Definition doPost_HandleZapierLLMResult (timestamp processedAt updatedAt : string)
    (rq : request) (props : gmap string string) (drive : folder)
    (files : gmap string string) (w : World)
  : response * gmap string string * folder * gmap string string * World :=
  let fileName := processedFileName rq timestamp in
  match saveToGoogleDrive (processedFileContent rq processedAt) fileName files with
  | inl error =>
      ({| rs_status := "error";
          rs_message := "Error processing LLM result";
          rs_error := Some error;
          rs_pageId := rq_pageId rq; rs_taskId := rq_taskId rq;
          rs_processedFile := None;
          rs_finalSummaryFile := None; rs_webhookSent := None;
          rs_completedItems := None; rs_totalItems := None |},
       props, drive, files, w)
  | inr files1 =>
      match updateItemStatusInControl updatedAt (rq_pageId rq) (rq_itemId rq)
              (rq_contentType rq) (rq_taskId rq) "completed" (Some fileName) drive with
      | (Some updateResult, drive1) =>
          if ur_allCompleted updateResult && ur_readyForFinalProcessing updateResult then
            match createFinalSummaryAndSendWebhook (rq_pageId rq)
                    (sv_statusControl (ur_saved updateResult)) drive1 files1 w with
            | (finalResult, drive2, files2, w2) =>
                ({| rs_status := "completed_all";
                    rs_message := "All items completed and final webhook sent";
                    rs_error := None;
                    rs_pageId := rq_pageId rq; rs_taskId := rq_taskId rq;
                    rs_processedFile := Some fileName;
                    rs_finalSummaryFile := fr_finalSummaryFile finalResult;
                    rs_webhookSent := fr_webhookSent finalResult;
                    rs_completedItems := None; rs_totalItems := None |},
                 props, drive2, files2, w2)
            end
          else
            ({| rs_status := "completed_item";
                rs_message := "Item processed successfully, waiting for others";
                rs_error := None;
                rs_pageId := rq_pageId rq; rs_taskId := rq_taskId rq;
                rs_processedFile := Some fileName;
                rs_finalSummaryFile := None; rs_webhookSent := None;
                rs_completedItems := Some (completedItems (trackingOf updateResult));
                rs_totalItems := Some (totalItems (trackingOf updateResult)) |},
             props, drive1, files1, w)
      | (None, drive1) =>
          ({| rs_status := "completed_item";
              rs_message := "Item processed successfully, waiting for others";
              rs_error := None;
              rs_pageId := rq_pageId rq; rs_taskId := rq_taskId rq;
              rs_processedFile := Some fileName;
              rs_finalSummaryFile := None; rs_webhookSent := None;
              rs_completedItems := Some 0; rs_totalItems := Some 0 |},
           props, drive1, files1, w)
      end
  end.

End Handler.

End StatusHandler.

(** A callback for the main page of the sample document, one for an item
    the manifest does not track and one for a task no page waits for; a
    Drive that takes every write and a final step that does nothing. *)
Definition mainPageCallback : StatusHandler.request := {|
  StatusHandler.rq_taskId := "task-1";
  StatusHandler.rq_result := "Summary of the page.";
  StatusHandler.rq_pageId := "p1";
  StatusHandler.rq_itemId := "p1_main";
  StatusHandler.rq_contentType := "main_page";
  StatusHandler.rq_contentId := "p1_main";
  StatusHandler.rq_rawFileName := "raw_p1_main.txt";
  StatusHandler.rq_rawFileId := "file-1" |}.

Definition untrackedCallback : StatusHandler.request := {|
  StatusHandler.rq_taskId := "task-9";
  StatusHandler.rq_result := "Summary of something else.";
  StatusHandler.rq_pageId := "p1";
  StatusHandler.rq_itemId := "p1_sub_7";
  StatusHandler.rq_contentType := "sub_block";
  StatusHandler.rq_contentId := "p1_sub_7";
  StatusHandler.rq_rawFileName := "raw_p1_sub_7.txt";
  StatusHandler.rq_rawFileId := "file-7" |}.

Definition unknownTaskCallback : StatusHandler.request := {|
  StatusHandler.rq_taskId := "task-unknown";
  StatusHandler.rq_result := "Some summary";
  StatusHandler.rq_pageId := "page-2";
  StatusHandler.rq_itemId := "page-2_main";
  StatusHandler.rq_contentType := "main_page";
  StatusHandler.rq_contentId := "page-2_main";
  StatusHandler.rq_rawFileName := "raw_page-2_main.txt";
  StatusHandler.rq_rawFileId := "file-2" |}.

Definition driveAcceptsAll (files : gmap string string) (fileName content : string)
  : option string := None.

Definition noFinalStep (pageId : string) (sc : statusControl) (drive : folder)
    (files : gmap string string) (w : unit)
  : StatusHandler.finalResult * folder * gmap string string * unit :=
  ({| StatusHandler.fr_success := true; StatusHandler.fr_finalSummaryFile := None;
      StatusHandler.fr_webhookSent := Some false |}, drive, files, w).

(** The sample handler on the sample folder. *)
Definition sampleHandler (rq : StatusHandler.request) (props : gmap string string)
    (drive : folder)
  : StatusHandler.response * gmap string string * folder * gmap string string * unit :=
  StatusHandler.doPost_HandleZapierLLMResult unit driveAcceptsAll noFinalStep
    "2025-01-01T00-00-00-000Z" "2025-01-01T00:00:00.000Z" "2025-01-01T00:00:00.100Z"
    rq props drive ∅ ().

(** * Properties *)

(** ** Strings *)

Module JSFacts.

Lemma length_nonneg s : 0 ≤ JS.length s.
Proof. unfold JS.length. lia. Qed.

Lemma app_cons c s t : String c s +:+ t = String c (s +:+ t).
Proof. reflexivity. Qed.

Lemma app_nil_l s : "" +:+ s = s.
Proof. reflexivity. Qed.

Lemma app_nil_r s : s +:+ "" = s.
Proof. induction s as [|c s IH]; [done|]. by rewrite app_cons, IH. Qed.

Lemma app_assoc s1 s2 s3 : (s1 +:+ s2) +:+ s3 = s1 +:+ (s2 +:+ s3).
Proof. induction s1 as [|c s1 IH]; [done|]. by rewrite !app_cons, IH. Qed.

Lemma app_length s1 s2 : JS.length (s1 +:+ s2) = JS.length s1 + JS.length s2.
Proof.
  unfold JS.length. induction s1 as [|c s1 IH]; [rewrite app_nil_l; cbn; lia|].
  rewrite app_cons. cbn [String.length]. lia.
Qed.

Lemma take_drop n s : JS.take n s +:+ JS.drop n s = s.
Proof.
  revert s. induction n as [|n IH]; intros [|c s]; try done.
  cbn [JS.take JS.drop]. by rewrite app_cons, IH.
Qed.

Lemma take_all n s : (String.length s ≤ n)%nat → JS.take n s = s.
Proof.
  revert s. induction n as [|n IH]; intros [|c s] H; cbn in *; try done; try lia.
  rewrite IH; [done|lia].
Qed.

Lemma drop_drop n m s : JS.drop n (JS.drop m s) = JS.drop (m + n) s.
Proof.
  revert s. induction m as [|m IH]; intros s; [done|].
  destruct s as [|c s]; [by destruct n|]. cbn. apply IH.
Qed.

Lemma take_take_drop n m s :
  JS.take n s +:+ JS.take m (JS.drop n s) = JS.take (n + m) s.
Proof.
  revert s. induction n as [|n IH]; intros s; [by destruct s|].
  destruct s as [|c s]; [by destruct m|].
  cbn [JS.take JS.drop Nat.add]. by rewrite app_cons, IH.
Qed.

Lemma take_length n s : (n ≤ String.length s)%nat → String.length (JS.take n s) = n.
Proof.
  revert s. induction n as [|n IH]; intros [|c s] H; cbn in *; try done; try lia.
  rewrite IH; [done|lia].
Qed.

Lemma drop_length n s : String.length (JS.drop n s) = (String.length s - n)%nat.
Proof.
  revert s. induction n as [|n IH]; intros [|c s]; cbn; try done; try lia.
Qed.

Lemma clamp_le s i : (JS.clamp s i ≤ String.length s)%nat.
Proof. unfold JS.clamp, JS.length. lia. Qed.

Lemma clamp_mono s i j : i ≤ j → (JS.clamp s i ≤ JS.clamp s j)%nat.
Proof. unfold JS.clamp. lia. Qed.

Lemma clamp_beyond s i : JS.length s ≤ i → JS.clamp s i = String.length s.
Proof. unfold JS.clamp, JS.length. lia. Qed.

(** A prefix of length [a] followed by [s.substring(a, b)] is the prefix
    of length [b]. *)
Lemma take_substring s a b :
  a ≤ b →
  JS.take (JS.clamp s a) s +:+ JS.substring s a b = JS.take (JS.clamp s b) s.
Proof.
  intros Hab. unfold JS.substring.
  pose proof (clamp_mono s a b Hab) as Hm.
  rewrite Nat.max_r, Nat.min_l by done.
  rewrite take_take_drop. f_equal. lia.
Qed.

Lemma substring_length s a b :
  0 ≤ a → a ≤ b → b ≤ JS.length s → JS.length (JS.substring s a b) = b - a.
Proof.
  intros Ha Hab Hb. unfold JS.substring, JS.length in *.
  assert (JS.clamp s a = Z.to_nat a) as -> by (unfold JS.clamp, JS.length; lia).
  assert (JS.clamp s b = Z.to_nat b) as -> by (unfold JS.clamp, JS.length; lia).
  rewrite Nat.max_r, Nat.min_l by lia.
  rewrite take_length; [lia|]. rewrite drop_length. lia.
Qed.

Lemma join_snoc l x : JS.join "" (l ++ [x]) = JS.join "" l +:+ x.
Proof.
  induction l as [|y l IH]; [done|].
  destruct l as [|z l].
  - reflexivity.
  - change (JS.join "" ((y :: z :: l) ++ [x]))
      with (y +:+ "" +:+ JS.join "" ((z :: l) ++ [x])).
    rewrite IH. change (JS.join "" (y :: z :: l)) with (y +:+ "" +:+ JS.join "" (z :: l)).
    by rewrite !app_nil_l, app_assoc.
Qed.

(** The scan returns the incoming [best] or an index in [[i, limit]]. *)
Lemma lastIndexOf_from_range pat s i limit best :
  let r := JS.lastIndexOf_from pat s i limit best in
  r = best ∨ (i ≤ r ∧ r ≤ limit).
Proof.
  revert i best. induction s as [|c s IH]; intros i best; cbn.
  - destruct (Z.ltb_spec limit i); [by left|].
    destruct (JS.startsWith pat ""); [right; lia|by left].
  - destruct (Z.ltb_spec limit i); [by left|].
    destruct (IH (i + 1) (if JS.startsWith pat (String c s) then i else best))
      as [->|?]; [|right; lia].
    destruct (JS.startsWith pat (String c s)); [right; lia|by left].
Qed.

Lemma lastIndexOf_le s pat pos : 0 ≤ pos → JS.lastIndexOf s pat pos ≤ pos.
Proof.
  intros Hpos. unfold JS.lastIndexOf.
  destruct (lastIndexOf_from_range pat s 0 (Z.max pos 0) (-1)) as [->|?]; lia.
Qed.

Lemma repeat_length c n : 0 ≤ n → JS.length (JS.repeat c n) = n.
Proof.
  intros Hn. unfold JS.repeat, JS.length.
  assert (String.length (JS.repeat_nat c (Z.to_nat n)) = Z.to_nat n) as ->; [|lia].
  induction (Z.to_nat n) as [|k IH]; cbn; [done|by rewrite IH].
Qed.

Lemma truthy_nonempty s : 0 < JS.length s → JS.truthy s = true.
Proof. destruct s; [unfold JS.length; cbn; lia|done]. Qed.

End JSFacts.

(** ** Text chunker *)

Section ChunkerFacts.

Variable above70 : Z → Z → Z → bool.

(** A double-precision sum [currentIndex + maxChunkSize * 0.7] with a
    non-negative index and a positive size is at least the index, so a
    break above it lies after the index. *)
Hypothesis above70_gt :
  ∀ x currentIndex maxChunkSize,
    0 ≤ currentIndex → 0 < maxChunkSize →
    above70 x currentIndex maxChunkSize = true → currentIndex < x.

Lemma nextChunkEnd_gt content maxChunkSize currentIndex :
  0 ≤ currentIndex → 0 < maxChunkSize →
  currentIndex < nextChunkEnd above70 content maxChunkSize currentIndex.
Proof.
  intros Hc Hm. unfold nextChunkEnd.
  destruct (Z.ltb_spec (currentIndex + maxChunkSize) (JS.length content)); [|lia].
  destruct (above70 (JS.lastIndexOf content paragraphMark _) _ _) eqn:Hp.
  { by apply above70_gt in Hp. }
  destruct (above70 (JS.lastIndexOf content sentenceMark _) _ _) eqn:Hs; [|lia].
  apply above70_gt in Hs; lia.
Qed.

Lemma chunkLoop_done fuel content maxChunkSize currentIndex chunks :
  JS.length content ≤ currentIndex →
  chunkLoop above70 fuel content maxChunkSize currentIndex chunks = Some chunks.
Proof.
  intros H. destruct fuel; cbn; by destruct (Z.ltb_spec currentIndex (JS.length content)); try lia.
Qed.

Lemma chunkLoop_step fuel content maxChunkSize currentIndex chunks :
  currentIndex < JS.length content →
  chunkLoop above70 (S fuel) content maxChunkSize currentIndex chunks
  = chunkLoop above70 fuel content maxChunkSize
      (nextChunkEnd above70 content maxChunkSize currentIndex)
      (chunks ++ [JS.substring content currentIndex
                    (nextChunkEnd above70 content maxChunkSize currentIndex)]).
Proof.
  intros H. cbn. by destruct (Z.ltb_spec currentIndex (JS.length content)); try lia.
Qed.

(** The loop invariant: the chunks pushed so far spell the first
    [currentIndex] characters; with one unit of fuel per remaining
    character the loop ends and the chunks spell the whole text. *)
Lemma chunkLoop_spells fuel content maxChunkSize currentIndex chunks :
  0 < maxChunkSize → 0 ≤ currentIndex →
  (Z.to_nat (JS.length content - currentIndex) ≤ fuel)%nat →
  JS.join "" chunks = JS.take (JS.clamp content currentIndex) content →
  ∃ out, chunkLoop above70 fuel content maxChunkSize currentIndex chunks = Some out
         ∧ JS.join "" out = content.
Proof.
  intros Hm. revert currentIndex chunks.
  induction fuel as [|fuel IH]; intros cur chunks Hc Hfuel Hinv.
  - exists chunks. split.
    + apply chunkLoop_done. lia.
    + rewrite Hinv. apply JSFacts.take_all. rewrite JSFacts.clamp_beyond; [done|lia].
  - destruct (Z.lt_ge_cases cur (JS.length content)) as [Hlt|Hge].
    + rewrite chunkLoop_step by done.
      pose proof (nextChunkEnd_gt content maxChunkSize cur Hc Hm) as Hgt.
      apply IH; [lia|lia|].
      rewrite JSFacts.join_snoc, Hinv. apply JSFacts.take_substring. lia.
    + exists chunks. split.
      * by apply chunkLoop_done.
      * rewrite Hinv. apply JSFacts.take_all. rewrite JSFacts.clamp_beyond; [done|lia].
Qed.

Lemma chunkContent_spells content maxChunkSize :
  0 < maxChunkSize →
  ∃ chunks, chunkContent above70 content maxChunkSize = Some chunks
            ∧ JS.join "" chunks = content.
Proof.
  intros Hm. unfold chunkContent.
  destruct (Z.leb_spec (JS.length content) maxChunkSize).
  - by exists [content].
  - apply chunkLoop_spells; [done|lia|unfold JS.length; lia|].
    by destruct content.
Qed.

(** C6. For every string and every positive [maxChunkSize], [chunkContent]
    returns a list of chunks whose concatenation is the string. *)
Theorem chunkContent_roundtrip (content : string) (maxChunkSize : Z) :
  0 < maxChunkSize →
  ∃ chunks, chunkContent above70 content maxChunkSize = Some chunks
            ∧ JS.join "" chunks = content.
Proof. apply chunkContent_spells. Qed.

(** For [CHUNK_SIZE] the product [15000 * 0.7] is 10500 exactly in double
    precision and the sums stay exact integers. *)
Hypothesis above70_CHUNK_SIZE :
  ∀ x currentIndex, above70 x currentIndex 15000 = (currentIndex + 10500 <? x).

Lemma nextChunkEnd_search content currentIndex :
  0 ≤ currentIndex → currentIndex + 15000 < JS.length content →
  currentIndex + 10501 ≤ nextChunkEnd above70 content 15000 currentIndex
  ∧ nextChunkEnd above70 content 15000 currentIndex ≤ currentIndex + 15001.
Proof.
  intros Hc Hlt. unfold nextChunkEnd.
  destruct (Z.ltb_spec (currentIndex + 15000) (JS.length content)); [|lia].
  rewrite !above70_CHUNK_SIZE.
  pose proof (JSFacts.lastIndexOf_le content paragraphMark (currentIndex + 15000)).
  pose proof (JSFacts.lastIndexOf_le content sentenceMark (currentIndex + 15000)).
  destruct (Z.ltb_spec (currentIndex + 10500)
              (JS.lastIndexOf content paragraphMark (currentIndex + 15000))); [lia|].
  destruct (Z.ltb_spec (currentIndex + 10500)
              (JS.lastIndexOf content sentenceMark (currentIndex + 15000))); lia.
Qed.

Lemma nextChunkEnd_last content currentIndex :
  JS.length content ≤ currentIndex + 15000 →
  nextChunkEnd above70 content 15000 currentIndex = currentIndex + 15000.
Proof.
  intros H. unfold nextChunkEnd.
  by destruct (Z.ltb_spec (currentIndex + 15000) (JS.length content)); try lia.
Qed.

(** C7, as the code has it. For every text of exactly 40,000 characters and
    [maxChunkSize] 15,000, [chunkContent] returns three or four chunks
    whose concatenation is the text. *)
Theorem chunkContent_scenario_B (content : string) :
  JS.length content = 40000 →
  ∃ chunks, chunkContent above70 content 15000 = Some chunks
            ∧ (List.length chunks = 3%nat ∨ List.length chunks = 4%nat)
            ∧ JS.join "" chunks = content.
Proof.
  intros Hlen.
  destruct (chunkContent_spells content 15000) as (chunks & Hrun & Hjoin); [lia|].
  exists chunks. split; [done|]. split; [|done].
  revert Hrun. unfold chunkContent.
  destruct (Z.leb_spec (JS.length content) 15000); [lia|].
  assert (∃ f, String.length content = S (S (S (S f)))) as [f ->].
  { exists (Z.to_nat 39996). unfold JS.length in Hlen. lia. }
  rewrite chunkLoop_step by lia.
  destruct (nextChunkEnd_search content 0) as [Hlo1 Hhi1]; [lia|lia|].
  set (e1 := nextChunkEnd above70 content 15000 0) in *.
  rewrite chunkLoop_step by lia.
  destruct (nextChunkEnd_search content e1) as [Hlo2 Hhi2]; [lia|lia|].
  set (e2 := nextChunkEnd above70 content 15000 e1) in *.
  rewrite chunkLoop_step by lia.
  destruct (Z.lt_ge_cases (e2 + 15000) (JS.length content)) as [Hmore|Hlast].
  - destruct (nextChunkEnd_search content e2) as [Hlo3 Hhi3]; [lia|lia|].
    set (e3 := nextChunkEnd above70 content 15000 e2) in *.
    destruct (Z.lt_ge_cases e3 (JS.length content)) as [Hin|Hout].
    + rewrite chunkLoop_step by lia.
      rewrite chunkLoop_done by (rewrite nextChunkEnd_last; lia).
      intros [= <-]. by right.
    + rewrite chunkLoop_done by lia.
      intros [= <-]. by left.
  - rewrite chunkLoop_done by (rewrite nextChunkEnd_last; lia).
    intros [= <-]. by left.
Qed.

End ChunkerFacts.

(** The exact comparison meets both assumptions made on the
    double-precision one. *)
Lemma above70_exact_gt x currentIndex maxChunkSize :
  0 ≤ currentIndex → 0 < maxChunkSize →
  above70_exact x currentIndex maxChunkSize = true → currentIndex < x.
Proof. unfold above70_exact. intros ?? H%Z.ltb_lt. lia. Qed.

Lemma above70_exact_CHUNK_SIZE x currentIndex :
  above70_exact x currentIndex 15000 = (currentIndex + 10500 <? x).
Proof.
  unfold above70_exact.
  destruct (Z.ltb_spec (10 * currentIndex + 7 * 15000) (10 * x)),
    (Z.ltb_spec (currentIndex + 10500) x); lia || done.
Qed.

(** In double precision [15000 * 0.7] is 10500, while [90 * 0.7] falls
    below 63. *)
Lemma double_70_percent_of_CHUNK_SIZE :
  PrimFloat.eqb (15000 * 0x1.6666666666666p-1)%float 10500%float = true.
Proof. reflexivity. Qed.

Lemma double_70_percent_of_90 :
  PrimFloat.ltb (90 * 0x1.6666666666666p-1)%float 63%float = true.
Proof. reflexivity. Qed.

Lemma chunkContent_roundtrip_witness :
  0 < 10 ∧ ∃ chunks, chunkContent above70_exact textShort 10 = Some chunks
                     ∧ JS.join "" chunks = textShort.
Proof.
  split; [lia|].
  apply (chunkContent_roundtrip above70_exact above70_exact_gt textShort 10). lia.
Defined.

Lemma chunkContent_scenario_B_witness :
  JS.length textNoBreak = 40000
  ∧ ∃ chunks, chunkContent above70_exact textNoBreak 15000 = Some chunks
              ∧ (List.length chunks = 3%nat ∨ List.length chunks = 4%nat)
              ∧ JS.join "" chunks = textNoBreak.
Proof.
  assert (JS.length textNoBreak = 40000) as Hlen by (vm_compute; reflexivity).
  split; [exact Hlen|].
  exact (chunkContent_scenario_B above70_exact above70_exact_gt
           above70_exact_CHUNK_SIZE textNoBreak Hlen).
Defined.

(** C7 as stated fails: a text of 40,000 characters that [chunkContent]
    cuts into four chunks, each paragraph break lying just above 70% of
    the chunk size. *)
Lemma chunkContent_scenario_B_four_chunks :
  JS.length textFourChunks = 40000
  ∧ option_map (map JS.length) (chunkContent above70_exact textFourChunks 15000)
    = Some [10501; 10501; 10501; 8497].
Proof. split; vm_compute; reflexivity. Qed.

(** A sentence end found at the proposed cut itself gives a chunk of
    [maxChunkSize + 1] characters. *)
Lemma chunkContent_chunk_above_maxChunkSize :
  JS.length textSentenceAtCut = 40000
  ∧ option_map (map JS.length) (chunkContent above70_exact textSentenceAtCut 15000)
    = Some [15001; 15000; 9999].
Proof. split; vm_compute; reflexivity. Qed.

(** ** Completion tracker *)

Lemma bumpCounters_completed previousStatus t :
  bumpCounters "completed" previousStatus t
  = if decide (previousStatus = "completed")
    then (completedItems t, pendingItems t)
    else (completedItems t + 1, pendingItems t - 1).
Proof.
  unfold bumpCounters. rewrite bool_decide_eq_true_2 by done.
  by destruct (decide (previousStatus = "completed"));
    [rewrite bool_decide_eq_true_2|rewrite bool_decide_eq_false_2].
Qed.

Lemma markItem_completed now taskId processedFile it :
  isCompleted (markItem now taskId "completed" processedFile it).
Proof. done. Qed.

(** Replacing a sub-block by a completed one adds one to the number of
    completed sub-blocks, unless it was completed already. *)
Lemma completed_subBlocks_insert (m : gmap string subBlockRecord) itemId sb sb' :
  m !! itemId = Some sb → isCompleted (sb_item sb') →
  size (filter (λ kv : string * subBlockRecord, isCompleted (sb_item kv.2)) (<[itemId := sb']> m))
  = if decide (isCompleted (sb_item sb))
    then size (filter (λ kv : string * subBlockRecord, isCompleted (sb_item kv.2)) m)
    else S (size (filter (λ kv : string * subBlockRecord, isCompleted (sb_item kv.2)) m)).
Proof.
  intros Hm Hc. rewrite map_filter_insert_True by done.
  rewrite map_size_insert.
  destruct (decide (isCompleted (sb_item sb))) as [Hsb|Hsb].
  - assert (filter (λ kv : string * subBlockRecord, isCompleted (sb_item kv.2)) m !! itemId
            = Some sb) as ->; [|done].
    by apply map_lookup_filter_Some.
  - assert (filter (λ kv : string * subBlockRecord, isCompleted (sb_item kv.2)) m !! itemId
            = None) as ->; [|done].
    apply map_lookup_filter_None. right. intros sb0 Hsb0. simplify_eq. done.
Qed.

Lemma completedCount_le_itemCount t : completedCount t ≤ itemCount t.
Proof.
  unfold completedCount, itemCount.
  pose proof (map_size_filter
    (λ kv : string * subBlockRecord, isCompleted (sb_item kv.2)) (subBlocks t)).
  destruct (decide (isCompleted (mainPage t))); lia.
Qed.

(** One [MarkCompleted] call on a stored manifest, for an item id that is
    not the name of a member of [Object.prototype]: what a call that finds
    its item returns and stores. *)
Lemma markCompleted_step pageId c drive sc :
  drive !! statusFileName pageId = Some sc →
  inheritedMember (cp_itemId c) = false →
  match markCompleted pageId c drive with
  | (None, drive') => drive' = drive
  | (Some u, drive') =>
      drive' !! statusFileName pageId = Some (sv_statusControl (ur_saved u))
      ∧ ur_allCompleted u
        = bool_decide (completedItems (trackingOf u) = totalItems (trackingOf u))
      ∧ totalItems (trackingOf u) = totalItems (sc_tracking sc)
      ∧ itemCount (trackingOf u) = itemCount (sc_tracking sc)
      ∧ completedItems (trackingOf u) - completedCount (trackingOf u)
        = completedItems (sc_tracking sc) - completedCount (sc_tracking sc)
      ∧ completedCount (sc_tracking sc) ≤ completedCount (trackingOf u)
  end.
Proof.
  intros Hsc Hown. unfold markCompleted, updateItemStatusInControl, loadPageStatusControl.
  rewrite Hsc. destruct sc as [pid title ini upd t fp]. cbn [sc_tracking].
  destruct (bool_decide (cp_contentType c = "main_page")
            && bool_decide (it_itemId (mainPage t) = cp_itemId c)) eqn:Hmain.
  - cbn. rewrite lookup_insert_eq. rewrite bumpCounters_completed.
    unfold trackingOf, completedCount, itemCount. cbn.
    rewrite (decide_True (P := isCompleted (markItem _ _ _ _ _))) by done.
    unfold isCompleted.
    destruct (decide (it_status (mainPage t) = "completed")); cbn;
      repeat split; try done; lia.
  - destruct (bool_decide (cp_contentType c = "sub_block")); [|done].
    destruct (subBlocks t !! cp_itemId c) as [sb|] eqn:Hsb; [|by rewrite Hown].
    cbn. rewrite lookup_insert_eq. rewrite bumpCounters_completed.
    unfold trackingOf, completedCount, itemCount. cbn.
    rewrite (completed_subBlocks_insert _ _ sb) by done.
    rewrite map_size_insert, Hsb. cbn. unfold isCompleted.
    destruct (decide (it_status (sb_item sb) = "completed")); cbn;
      repeat split; try done; lia.
Qed.

(** Along a sequence of [MarkCompleted] calls on a consistent manifest,
    none of them with an item id that is the name of a member of
    [Object.prototype], every result is consistent, keeps the number of
    items and counts at least as many completed items as the manifest did
    at the start. *)
Lemma markCompletedAll_invariant pageId calls drive sc j v :
  drive !! statusFileName pageId = Some sc →
  consistent (sc_tracking sc) →
  Forall (λ c, inheritedMember (cp_itemId c) = false) calls →
  (markCompletedAll pageId calls drive).1 !! j = Some (Some v) →
  consistent (trackingOf v)
  ∧ itemCount (trackingOf v) = itemCount (sc_tracking sc)
  ∧ completedCount (sc_tracking sc) ≤ completedCount (trackingOf v)
  ∧ ur_allCompleted v
    = bool_decide (completedCount (trackingOf v) = itemCount (trackingOf v)).
Proof.
  revert drive sc j.
  induction calls as [|c rest IH]; intros drive sc j Hsc Hcons Hown Hj; [done|].
  apply Forall_cons in Hown as [Hc Hown].
  cbn in Hj. pose proof (markCompleted_step pageId c drive sc Hsc Hc) as Hstep.
  destruct (markCompleted pageId c drive) as [r drive'].
  destruct (markCompletedAll pageId rest drive') as [rs drive''] eqn:Hrest.
  destruct Hcons as [Hci Hti].
  destruct r as [u|].
  - destruct Hstep as (Hdrive' & Hflag & Htot & Hcount & Hdrift & Hmono).
    assert (consistent (trackingOf u)) as Hcons' by (split; lia).
    destruct j as [|j]; cbn in Hj.
    + simplify_eq. repeat split; try done; try apply Hcons'.
      rewrite Hflag. destruct Hcons' as [-> ->]. done.
    + specialize (IH drive' (sv_statusControl (ur_saved u)) j Hdrive' Hcons' Hown).
      rewrite Hrest in IH. destruct (IH Hj) as (Hcv & Hnv & Hmv & Hfv).
      fold (trackingOf u) in *. split; [done|]. split; [lia|]. split; [lia|done].
  - subst drive'. destruct j as [|j]; cbn in Hj; [done|].
    specialize (IH drive sc j Hsc (conj Hci Hti) Hown). rewrite Hrest in IH. by apply IH.
Qed.

(** C1, as the code has it. Across a sequence of [MarkCompleted] calls on a
    consistent manifest, none of them with an item id that is the name of
    a member of [Object.prototype], a call that finds its item returns
    [allCompleted] true exactly when every tracked item is then completed,
    and once a call has returned true every later call that finds its
    item returns true again. *)
Theorem allCompleted_from_first_completion pageId calls drive sc :
  drive !! statusFileName pageId = Some sc →
  consistent (sc_tracking sc) →
  Forall (λ c, inheritedMember (cp_itemId c) = false) calls →
  (∀ i u, (markCompletedAll pageId calls drive).1 !! i = Some (Some u) →
     ur_allCompleted u
     = bool_decide (completedCount (trackingOf u) = itemCount (trackingOf u)))
  ∧ (∀ i j u v, (i ≤ j)%nat →
       (markCompletedAll pageId calls drive).1 !! i = Some (Some u) →
       (markCompletedAll pageId calls drive).1 !! j = Some (Some v) →
       ur_allCompleted u = true → ur_allCompleted v = true).
Proof.
  intros Hsc Hcons Hown. split.
  { intros i u Hi. by eapply markCompletedAll_invariant. }
  revert drive sc Hsc Hcons. induction calls as [|c rest IH];
    intros drive sc Hsc Hcons i j u v Hij Hi Hj Hu; [done|].
  apply Forall_cons in Hown as [Hc Hown].
  cbn in Hi, Hj. pose proof (markCompleted_step pageId c drive sc Hsc Hc) as Hstep.
  destruct (markCompleted pageId c drive) as [r drive'].
  destruct (markCompletedAll pageId rest drive') as [rs drive''] eqn:Hrest.
  destruct Hcons as [Hci Hti].
  assert (∃ sc', drive' !! statusFileName pageId = Some sc' ∧ consistent (sc_tracking sc')
                 ∧ ∀ w, r = Some w → sc' = sv_statusControl (ur_saved w))
    as (sc' & Hsc' & Hcons' & Hr).
  { destruct r as [w|].
    - destruct Hstep as (Hdrive' & Hflag & Htot & Hcount & Hdrift & Hmono).
      exists (sv_statusControl (ur_saved w)). split; [done|]. split; [|by intros ? [= ->]].
      unfold trackingOf in *. split; lia.
    - subst drive'. exists sc. by repeat split. }
  destruct i as [|i], j as [|j]; cbn in Hi, Hj; try lia.
  - by simplify_eq.
  - simplify_eq. specialize (Hr u eq_refl). subst sc'.
    pose proof (markCompletedAll_invariant pageId rest drive' _ j v Hsc' Hcons' Hown)
      as Hinv.
    rewrite Hrest in Hinv. destruct (Hinv Hj) as (Hcv & Hnv & Hmv & Hfv).
    destruct Hstep as (_ & Hflag & _).
    rewrite Hflag in Hu. apply bool_decide_eq_true in Hu.
    rewrite Hfv. apply bool_decide_eq_true.
    destruct Hcons' as [Hc1 Hc2]. fold (trackingOf u) in *.
    pose proof (completedCount_le_itemCount (trackingOf v)). lia.
  - specialize (IH Hown drive' sc' Hsc' Hcons' i j u v). rewrite Hrest in IH.
    apply IH; [lia|done..].
Qed.

(** The manifest [initializePageStatusControl] stores is consistent when
    the index counts the main page and its sub-blocks, the sub-blocks
    having distinct ids (the document index numbers them). *)
Lemma pending_subBlocks_size (subs : list indexItem) (f : indexItem → subBlockRecord)
    (acc : gmap string subBlockRecord) :
  NoDup (ix_id <$> subs) →
  (∀ x, x ∈ subs → acc !! ix_id x = None) →
  size (foldl (λ acc x, <[ix_id x := f x]> acc) acc subs)
  = (size acc + List.length subs)%nat.
Proof.
  revert acc. induction subs as [|x rest IH]; intros acc Hnd Hfresh; [cbn; lia|].
  cbn [foldl List.length]. apply NoDup_cons in Hnd as [Hx Hnd].
  rewrite IH; [|done|].
  - rewrite map_size_insert_None by (apply Hfresh; left). lia.
  - intros y Hy. rewrite lookup_insert_ne; [apply Hfresh; by right|].
    intros Heq. apply Hx. rewrite Heq. by apply list_elem_of_fmap_2.
Qed.

Lemma pending_subBlocks_filter (subs : list indexItem) (f : indexItem → subBlockRecord)
    (acc : gmap string subBlockRecord) :
  (∀ x, ¬ isCompleted (sb_item (f x))) →
  filter (λ kv : string * subBlockRecord, isCompleted (sb_item kv.2)) acc = ∅ →
  filter (λ kv : string * subBlockRecord, isCompleted (sb_item kv.2))
    (foldl (λ acc x, <[ix_id x := f x]> acc) acc subs) = ∅.
Proof.
  intros Hf. revert acc. induction subs as [|x rest IH]; intros acc Hacc; [done|].
  cbn [foldl]. apply IH. rewrite map_filter_insert_False by apply Hf.
  by rewrite map_filter_delete, Hacc, delete_empty.
Qed.

Lemma initializePageStatusControl_consistent now pageId index drive :
  ix_totalItems index = 1 + Z.of_nat (List.length (ix_subBlocks index)) →
  NoDup (ix_id <$> ix_subBlocks index) →
  consistent
    (sc_tracking (sv_statusControl (initializePageStatusControl now pageId index drive).1)).
Proof.
  intros Htotal Hnd. unfold initializePageStatusControl, savePageStatusControl.
  cbn [fst sv_statusControl set_lastUpdated sc_tracking].
  unfold consistent, completedCount, itemCount.
  cbn [completedItems totalItems mainPage subBlocks].
  rewrite pending_subBlocks_filter; [|by intros x|apply map_filter_empty].
  rewrite pending_subBlocks_size by (done || by intros).
  rewrite map_size_empty, decide_False by done. split; [done|]. rewrite Htotal. lia.
Qed.

Lemma sampleFolder_lookup : sampleFolder !! statusFileName "p1" = Some sampleManifest.
Proof. apply lookup_insert_eq. Qed.

Lemma sampleManifest_consistent : consistent (sc_tracking sampleManifest).
Proof. split; vm_compute; reflexivity. Qed.

Lemma allCompleted_from_first_completion_witness :
  sampleFolder !! statusFileName "p1" = Some sampleManifest
  ∧ consistent (sc_tracking sampleManifest)
  ∧ Forall (λ c, inheritedMember (cp_itemId c) = false) [callMain; callSub; callSubAgain]
  ∧ (∀ i j u v, (i ≤ j)%nat →
       (markCompletedAll "p1" [callMain; callSub; callSubAgain] sampleFolder).1 !! i
         = Some (Some u) →
       (markCompletedAll "p1" [callMain; callSub; callSubAgain] sampleFolder).1 !! j
         = Some (Some v) →
       ur_allCompleted u = true → ur_allCompleted v = true).
Proof.
  split; [exact sampleFolder_lookup|]. split; [exact sampleManifest_consistent|].
  assert (Forall (λ c, inheritedMember (cp_itemId c) = false)
            [callMain; callSub; callSubAgain]) as Hown
    by (repeat constructor).
  split; [exact Hown|].
  exact (proj2 (allCompleted_from_first_completion "p1" [callMain; callSub; callSubAgain]
                  sampleFolder sampleManifest sampleFolder_lookup sampleManifest_consistent
                  Hown)).
Defined.

(** C1 as stated fails: the main page, then the sub-block, then the same
    sub-block once more; the second and the third call both return
    [allCompleted: true]. *)
Lemma allCompleted_true_on_two_calls :
  map saysAllCompleted
    (markCompletedAll "p1" [callMain; callSub; callSubAgain] sampleFolder).1
  = [false; true; true].
Proof. vm_compute. reflexivity. Qed.

(** C2. For an item the manifest records (the main page, or a sub-block
    that is a key of [tracking.subBlocks]), marking it completed a second
    time leaves [completedItems] and [pendingItems] as the first call left
    them, in the returned manifest and in the stored one. *)
Theorem markCompleted_twice_same_counters
    (pageId itemId contentType : string) (now1 now2 taskId1 taskId2 : string)
    (file1 file2 : option string) (drive : folder) (sc : statusControl) :
  drive !! statusFileName pageId = Some sc →
  (contentType = "main_page" ∧ it_itemId (mainPage (sc_tracking sc)) = itemId)
  ∨ (contentType = "sub_block" ∧ is_Some (subBlocks (sc_tracking sc) !! itemId)) →
  ∃ u1 drive1 u2 drive2,
    updateItemStatusInControl now1 pageId itemId contentType taskId1 "completed" file1 drive
    = (Some u1, drive1)
    ∧ updateItemStatusInControl now2 pageId itemId contentType taskId2 "completed" file2
        drive1
      = (Some u2, drive2)
    ∧ completedItems (trackingOf u2) = completedItems (trackingOf u1)
    ∧ pendingItems (trackingOf u2) = pendingItems (trackingOf u1)
    ∧ (sc_tracking <$> drive2 !! statusFileName pageId) = Some (trackingOf u2).
Proof.
  intros Hsc Hrecorded. unfold updateItemStatusInControl, loadPageStatusControl.
  rewrite Hsc. destruct sc as [pid title ini upd t fp]. cbn [sc_tracking] in *.
  destruct (bool_decide (contentType = "main_page")
            && bool_decide (it_itemId (mainPage t) = itemId)) eqn:Hmain.
  - cbn. eexists _, _, _, _. split; [reflexivity|].
    rewrite lookup_insert_eq. cbn. rewrite Hmain.
    rewrite !bumpCounters_completed. cbn.
    split; [reflexivity|]. cbn. by rewrite lookup_insert_eq.
  - destruct Hrecorded as [[-> <-]|[-> [sb Hsb]]].
    { by rewrite !bool_decide_eq_true_2 in Hmain. }
    rewrite bool_decide_eq_true_2 by done. rewrite Hsb.
    cbn. eexists _, _, _, _. split; [reflexivity|].
    rewrite lookup_insert_eq. cbn. rewrite ?Hmain.
    rewrite lookup_insert_eq. rewrite !bumpCounters_completed. cbn.
    split; [reflexivity|]. cbn. by rewrite lookup_insert_eq.
Qed.

Lemma markCompleted_twice_same_counters_witness :
  ∃ u1 drive1 u2 drive2,
    updateItemStatusInControl "t1" "p1" "p1_main" "main_page" "task-1" "completed"
      (Some "processed_p1_main.md") sampleFolder = (Some u1, drive1)
    ∧ updateItemStatusInControl "t2" "p1" "p1_main" "main_page" "task-1" "completed"
        (Some "processed_p1_main.md") drive1 = (Some u2, drive2)
    ∧ completedItems (trackingOf u2) = completedItems (trackingOf u1)
    ∧ pendingItems (trackingOf u2) = pendingItems (trackingOf u1)
    ∧ (sc_tracking <$> drive2 !! statusFileName "p1") = Some (trackingOf u2).
Proof.
  apply (markCompleted_twice_same_counters "p1" "p1_main" "main_page" "t1" "t2"
           "task-1" "task-1" (Some "processed_p1_main.md") (Some "processed_p1_main.md")
           sampleFolder sampleManifest sampleFolder_lookup).
  left. split; reflexivity.
Defined.

(** ** Combination of chunk results *)

Lemma collectSummaries_spec pageId ch count i acc :
  collectSummaries pageId ch count i acc
  = acc ++ (chunkSummary pageId ch <$> seqZ i (Z.of_nat count)).
Proof.
  revert i acc. induction count as [|count IH]; intros i acc.
  - cbn [collectSummaries]. rewrite seqZ_nil by lia. by rewrite app_nil_r.
  - cbn [collectSummaries]. rewrite IH.
    rewrite (seqZ_cons i (Z.of_nat (S count))) by lia.
    rewrite <-app_assoc. cbn [fmap list_fmap app].
    do 4 f_equal; lia.
Qed.

Lemma chunkSummary_spec pageId ch i :
  chunkSummary pageId ch i
  = "## Chunk " +:+ pretty (i + 1) +:+ " of " +:+ pretty (totalChunks ch) +:+ nl2
      +:+ default "[Chunk processing failed or incomplete]" (recordedResult pageId ch i).
Proof.
  unfold chunkSummary, recordedResult.
  destruct (chunkResults ch !! chunkId pageId i) as [[[r|]]|]; try reflexivity.
  destruct (JS.truthy r); reflexivity.
Qed.

(** C10, as the code has it. The chunk summaries are listed in chunk-index
    order, one per index below [totalChunks]; each is the header
    "## Chunk i of N", a blank line, and the recorded result or, when none
    is recorded, the placeholder "[Chunk processing failed or incomplete]";
    they are joined by a rule, and for more than one chunk the final
    summary embeds the joined text. *)
Theorem combineChunkResults_in_index_order (now : string) (contentLength : Z)
    (pageId : string) (ch : chunking) :
  chunkSummaries pageId ch
  = (λ i, "## Chunk " +:+ pretty (i + 1) +:+ " of " +:+ pretty (totalChunks ch) +:+ nl2
          +:+ default "[Chunk processing failed or incomplete]" (recordedResult pageId ch i))
    <$> seqZ 0 (totalChunks ch)
  ∧ combinedSummaries pageId ch = JS.join summarySeparator (chunkSummaries pageId ch)
  ∧ finalSummary now contentLength pageId ch
    = if 1 <? totalChunks ch
      then finalSummaryHead ch +:+ combinedSummaries pageId ch
             +:+ finalSummaryTail now contentLength ch
      else default "No results available" (head (chunkSummaries pageId ch)).
Proof.
  split; [|split].
  - unfold chunkSummaries. rewrite collectSummaries_spec. cbn [app].
    destruct (Z.le_gt_cases 0 (totalChunks ch)) as [Hn|Hn].
    + rewrite Z2Nat.id by exact Hn. apply list_fmap_ext. intros k i _.
      apply chunkSummary_spec.
    + replace (Z.to_nat (totalChunks ch)) with 0%nat by lia.
      rewrite !seqZ_nil by lia. reflexivity.
  - reflexivity.
  - unfold finalSummary. destruct (1 <? totalChunks ch); [reflexivity|].
    destruct (chunkSummaries pageId ch) as [|first rest] eqn:E; [reflexivity|].
    cbn [head default]. destruct first; [|reflexivity].
    exfalso. revert E. unfold chunkSummaries. rewrite collectSummaries_spec. cbn [app].
    destruct (seqZ 0 _) as [|i l]; [discriminate|].
    cbn [fmap list_fmap]. rewrite chunkSummary_spec. discriminate.
Qed.

(** C10 as stated fails on the placeholder: with the second of two chunks
    missing, its entry is the header followed by
    "[Chunk processing failed or incomplete]", and the text
    "[Chunk 2 failed or incomplete]" occurs nowhere in the final summary. *)
Lemma combineChunkResults_placeholder_text :
  chunkSummaries "p1" sampleChunking
  = [ "## Chunk 1 of 2" +:+ nl2 +:+ "Summary of part one.";
      "## Chunk 2 of 2" +:+ nl2 +:+ "[Chunk processing failed or incomplete]" ]
  ∧ JS.includes "[Chunk 2 failed or incomplete]"
      (finalSummary "2025-01-01T00:00:00.000Z" 40000 "p1" sampleChunking) = false
  ∧ JS.includes "[Chunk processing failed or incomplete]"
      (finalSummary "2025-01-01T00:00:00.000Z" 40000 "p1" sampleChunking) = true.
Proof. split; [|split]; vm_compute; reflexivity. Qed.

(** ** Callback handler *)

Section HandlerFacts.

Variable World : Type.
Variable driveRejects : gmap string string → string → string → option string.
Variable createFinalSummaryAndSendWebhook :
  string → statusControl → folder → gmap string string → World →
  StatusHandler.finalResult * folder * gmap string string * World.


End HandlerFacts.


(** ** Bounded key-value store *)

Lemma join_cons x l : JS.join "" (x :: l) = x +:+ JS.join "" l.
Proof. destruct l; [by rewrite JSFacts.app_nil_r|reflexivity]. Qed.

Lemma substring_truthy s a b :
  0 ≤ a → a < JS.length s → a < b → JS.truthy (JS.substring s a b) = true.
Proof.
  intros Ha Hlen Hab. unfold JS.substring.
  assert (JS.clamp s a = Z.to_nat a) as Hca by (unfold JS.clamp, JS.length in *; lia).
  assert (JS.clamp s a < JS.clamp s b)%nat as Hlt by (unfold JS.clamp, JS.length in *; lia).
  rewrite Nat.max_r, Nat.min_l by lia.
  destruct (JS.clamp s b - JS.clamp s a)%nat as [|n] eqn:Hn; [lia|].
  pose proof (JSFacts.drop_length (JS.clamp s a) s) as Hd.
  destruct (JS.drop (JS.clamp s a) s) as [|c r]; [|done].
  cbn in Hd. unfold JS.length in *. lia.
Qed.

(** *** Property names *)

Lemma storageKey_ne_metaKey path : storageKey path ≠ metaKey path.
Proof.
  unfold storageKey, metaKey. intros H. apply (inj (String.app "STORAGE_")) in H.
  rewrite <-(JSFacts.app_nil_r path) in H at 1.
  apply (inj (String.app path)) in H. discriminate H.
Qed.

Lemma storageKey_ne_chunkKey path i : storageKey path ≠ chunkKey path i.
Proof.
  unfold storageKey, chunkKey. intros H. apply (inj (String.app "STORAGE_")) in H.
  rewrite <-(JSFacts.app_nil_r path) in H at 1.
  apply (inj (String.app path)) in H. discriminate H.
Qed.

Lemma metaKey_ne_chunkKey path i : metaKey path ≠ chunkKey path i.
Proof.
  unfold metaKey, chunkKey. intros H. apply (inj (String.app "STORAGE_")) in H.
  apply (inj (String.app path)) in H. discriminate H.
Qed.

Lemma chunkKey_inj path i j : chunkKey path i = chunkKey path j → i = j.
Proof.
  unfold chunkKey. intros H. apply (inj (String.app "STORAGE_")) in H.
  apply (inj (String.app path)) in H. apply (inj (String.app "_CHUNK_")) in H.
  by apply (inj pretty) in H.
Qed.

(** *** Splitting a payload *)

Lemma splitChunks_spells fuel content size i :
  0 < size → 0 ≤ i → (Z.to_nat (JS.length content - i) ≤ fuel)%nat →
  JS.take (JS.clamp content i) content +:+ JS.join "" (splitChunks fuel content size i)
  = content.
Proof.
  intros Hsize. revert i. induction fuel as [|fuel IH]; intros i Hi Hfuel.
  - cbn [splitChunks JS.join]. rewrite JSFacts.app_nil_r. apply JSFacts.take_all.
    rewrite JSFacts.clamp_beyond; [done|lia].
  - cbn [splitChunks]. destruct (Z.ltb_spec i (JS.length content)).
    + rewrite join_cons, <-JSFacts.app_assoc, JSFacts.take_substring by lia.
      apply IH; lia.
    + cbn [JS.join]. rewrite JSFacts.app_nil_r. apply JSFacts.take_all.
      rewrite JSFacts.clamp_beyond; [done|lia].
Qed.

Lemma splitChunks_truthy fuel content size i chunk :
  0 < size → 0 ≤ i → chunk ∈ splitChunks fuel content size i → JS.truthy chunk = true.
Proof.
  intros Hsize. revert i. induction fuel as [|fuel IH]; intros i Hi Hin.
  - by apply elem_of_nil in Hin.
  - cbn [splitChunks] in Hin. destruct (Z.ltb_spec i (JS.length content)).
    + apply elem_of_cons in Hin as [->|Hin].
      * apply substring_truthy; lia.
      * apply (IH (i + size)); [lia|done].
    + by apply elem_of_nil in Hin.
Qed.

Lemma slotsNeeded_step len size :
  0 < size → 0 < len → slotsNeeded len size = 1 + slotsNeeded (Z.max (len - size) 0) size.
Proof.
  intros Hsize Hlen. unfold slotsNeeded.
  destruct (Z.le_gt_cases size len) as [Hle|Hgt].
  - rewrite Z.max_l by lia.
    replace (len + size - 1) with ((len - size + size - 1) + 1 * size) by lia.
    rewrite Z.div_add by lia. lia.
  - rewrite Z.max_r by lia.
    replace (len + size - 1) with ((len - 1) + 1 * size) by lia.
    rewrite Z.div_add by lia. rewrite !Z.div_small by lia. lia.
Qed.

Lemma splitChunks_count fuel content size i :
  0 < size → 0 ≤ i → (Z.to_nat (JS.length content - i) ≤ fuel)%nat →
  Z.of_nat (List.length (splitChunks fuel content size i))
  = slotsNeeded (Z.max (JS.length content - i) 0) size.
Proof.
  intros Hsize. revert i. induction fuel as [|fuel IH]; intros i Hi Hfuel.
  - cbn [splitChunks List.length]. rewrite Z.max_r by lia.
    unfold slotsNeeded. rewrite Z.div_small; lia.
  - cbn [splitChunks]. destruct (Z.ltb_spec i (JS.length content)).
    + cbn [List.length]. rewrite Nat2Z.inj_succ, IH by lia.
      rewrite (slotsNeeded_step (Z.max (JS.length content - i) 0)) by lia.
      replace (Z.max (Z.max (JS.length content - i) 0 - size) 0)
        with (Z.max (JS.length content - (i + size)) 0) by lia.
      lia.
    + cbn [List.length]. rewrite Z.max_r by lia.
      unfold slotsNeeded. rewrite Z.div_small; lia.
Qed.

(** *** Writing and reading the chunk slots *)

Lemma insertChunks_lookup_other path chunks index props key :
  (∀ k, key ≠ chunkKey path k) →
  insertChunks path chunks index props !! key = props !! key.
Proof.
  intros Hkey. revert index props. induction chunks as [|c rest IH]; intros index props; [done|].
  cbn [insertChunks]. rewrite IH. apply lookup_insert_ne.
  intros H. by apply (Hkey index).
Qed.

Lemma insertChunks_lookup_below path chunks index props j :
  (j < index)%nat →
  insertChunks path chunks index props !! chunkKey path j = props !! chunkKey path j.
Proof.
  revert index props. induction chunks as [|c rest IH]; intros index props Hj; [done|].
  cbn [insertChunks]. rewrite IH by lia. apply lookup_insert_ne.
  intros H%chunkKey_inj. lia.
Qed.

Lemma insertChunks_lookup_chunk path chunks index props k chunk :
  chunks !! k = Some chunk →
  insertChunks path chunks index props !! chunkKey path (index + k) = Some chunk.
Proof.
  revert index props k. induction chunks as [|c rest IH]; intros index props k Hk; [done|].
  cbn [insertChunks]. destruct k as [|k]; cbn in Hk.
  - simplify_eq. rewrite Nat.add_0_r, insertChunks_lookup_below by lia.
    apply lookup_insert_eq.
  - replace (index + S k)%nat with (S index + k)%nat by lia. by apply IH.
Qed.

Lemma readChunks_spec path count i props acc :
  readChunks path count i props acc
  = acc +:+ JS.join "" (slotText path props <$> seq i count).
Proof.
  revert i acc. induction count as [|count IH]; intros i acc.
  - cbn. by rewrite JSFacts.app_nil_r.
  - cbn [readChunks seq fmap list_fmap]. rewrite IH, join_cons.
    rewrite <-JSFacts.app_assoc. f_equal. unfold slotText.
    destruct (props !! chunkKey path i) as [chunk|]; cbn [default].
    + destruct chunk; cbn [JS.truthy]; [by rewrite JSFacts.app_nil_r|reflexivity].
    + by rewrite JSFacts.app_nil_r.
Qed.

Lemma slotText_written path chunks index (props : gmap string string) :
  (∀ k chunk, chunks !! k = Some chunk → props !! chunkKey path (index + k) = Some chunk) →
  slotText path props <$> seq index (List.length chunks) = chunks.
Proof.
  revert index. induction chunks as [|c rest IH]; intros index Hw; [done|].
  cbn [List.length seq fmap list_fmap]. f_equal.
  - unfold slotText. specialize (Hw 0%nat c eq_refl). rewrite Nat.add_0_r in Hw.
    by rewrite Hw.
  - apply IH. intros k chunk Hk. specialize (Hw (S k) chunk Hk).
    by replace (S index + k)%nat with (index + S k)%nat by lia.
Qed.

(** *** The store operations *)

Section StorageFacts.

Variable JSON_stringify : storedDoc → string.
Variable JSON_parse : string → option storedDoc.
Variable Date_parse : string → option Z.
Variable rejects : gmap string string → string → string → option string.

Lemma deleteChunks_subseteq path count from (props : gmap string string) :
  deleteChunks path count from props ⊆ props.
Proof.
  revert from props. induction count as [|count IH]; intros from props; [done|].
  cbn [deleteChunks]. etrans; [apply IH|]. apply delete_subseteq.
Qed.

Lemma deleteFromStorage_subseteq path (props : gmap string string) :
  deleteFromStorage JSON_parse path props ⊆ props.
Proof.
  unfold deleteFromStorage.
  pose proof (delete_subseteq props (storageKey path)) as Hd.
  destruct (delete (storageKey path) props !! metaKey path) as [metaData|]; [|done].
  destruct (JS.truthy metaData); [|done].
  destruct (JSON_parse metaData) as [[c [md|]]|]; try done.
  etrans; [apply delete_subseteq|]. etrans; [apply deleteChunks_subseteq|]. done.
Qed.

Lemma deleteAll_subseteq paths (acc : gmap string string) :
  foldl (λ acc path, deleteFromStorage JSON_parse path acc) acc paths ⊆ acc.
Proof.
  revert acc. induction paths as [|path rest IH]; intros acc; [done|].
  cbn [foldl]. etrans; [apply IH|]. apply deleteFromStorage_subseteq.
Qed.

Lemma cleanupOldStorageEntries_subseteq now olderThanHours (props : gmap string string) :
  cleanupOldStorageEntries JSON_parse Date_parse now olderThanHours props ⊆ props.
Proof. unfold cleanupOldStorageEntries. apply deleteAll_subseteq. Qed.

(** The clean-up that precedes a write only removes properties. *)
Lemma autoCleanupIfNeeded_subseteq now (props : gmap string string) :
  autoCleanupIfNeeded JSON_parse Date_parse now props ⊆ props.
Proof.
  unfold autoCleanupIfNeeded.
  destruct (_ <? _); [apply cleanupOldStorageEntries_subseteq|done].
Qed.

Lemma autoCleanupIfNeeded_absent now (props : gmap string string) key :
  props !! key = None →
  autoCleanupIfNeeded JSON_parse Date_parse now props !! key = None.
Proof.
  intros H. eapply lookup_weaken_None; [exact H|apply autoCleanupIfNeeded_subseteq].
Qed.

Lemma writeChunks_inr path chunks index props props' :
  writeChunks rejects path chunks index props = inr props' →
  props' = insertChunks path chunks index props.
Proof.
  revert index props. induction chunks as [|c rest IH]; intros index props.
  - by intros [= <-].
  - cbn [writeChunks insertChunks]. unfold setProperty.
    destruct (rejects props (chunkKey path index) c); [done|]. apply IH.
Qed.

Lemma writeChunks_inl path chunks index props err props1 :
  writeChunks rejects path chunks index props = inl (err, props1) →
  ∃ st key value, rejects st key value = Some err.
Proof.
  revert index props. induction chunks as [|c rest IH]; intros index props; [done|].
  cbn [writeChunks]. unfold setProperty.
  destruct (rejects props (chunkKey path index) c) as [e|] eqn:He.
  - intros [= <- <-]. eauto.
  - apply IH.
Qed.

(** What a successful [saveToStorage] has written. *)
Lemma saveToStorage_ok now path content caller props p size chunked count props' :
  saveToStorage JSON_stringify JSON_parse Date_parse rejects now path content caller props
  = (SaveOk p size chunked count, props') →
  p = path ∧ size = JS.length content
  ∧ ((JS.length content ≤ maxChunkSize STORAGE_CONFIG
      ∧ chunked = false ∧ count = None
      ∧ props' = <[storageKey path := JSON_stringify (propertyDataOf now content caller)]>
                   (autoCleanupIfNeeded JSON_parse Date_parse now props))
     ∨ (maxChunkSize STORAGE_CONFIG < JS.length content
        ∧ chunked = true
        ∧ count = Some (Z.of_nat (List.length (payloadChunks content)))
        ∧ props' = <[metaKey path :=
                       JSON_stringify
                         (metadataObjOf now content caller
                            (Z.of_nat (List.length (payloadChunks content))))]>
                     (insertChunks path (payloadChunks content) 0
                        (autoCleanupIfNeeded JSON_parse Date_parse now props)))).
Proof.
  unfold saveToStorage. cbn [autoCleanup STORAGE_CONFIG].
  set (props0 := autoCleanupIfNeeded JSON_parse Date_parse now props).
  destruct (Z.leb_spec (JS.length content) (maxChunkSize STORAGE_CONFIG)) as [Hle|Hgt].
  - unfold setProperty. destruct (rejects props0 _ _); [done|].
    intros [= <- <- <- <- <-]. split; [done|]. split; [done|]. left. done.
  - fold (payloadChunks content).
    destruct (writeChunks rejects path (payloadChunks content) 0 props0)
      as [[err props1]|props1] eqn:Hw; [done|].
    apply writeChunks_inr in Hw. subst props1.
    unfold setProperty. destruct (rejects _ _ _); [done|].
    intros [= <- <- <- <- <-]. split; [done|]. split; [done|]. right. done.
Qed.

(** What a failed [saveToStorage] reports is an error of the property
    service. *)
Lemma saveToStorage_failed now path content caller props err props' :
  saveToStorage JSON_stringify JSON_parse Date_parse rejects now path content caller props
  = (SaveFailed err, props') →
  ∃ st key value, rejects st key value = Some err.
Proof.
  unfold saveToStorage. cbn [autoCleanup STORAGE_CONFIG].
  set (props0 := autoCleanupIfNeeded JSON_parse Date_parse now props).
  destruct (Z.leb_spec (JS.length content) (maxChunkSize STORAGE_CONFIG)) as [Hle|Hgt].
  - unfold setProperty. destruct (rejects props0 _ _) eqn:He; [|done].
    intros [= <- <-]. eauto.
  - destruct (writeChunks rejects path _ 0 props0) as [[e props1]|props1] eqn:Hw.
    + intros [= <- <-]. by eapply writeChunks_inl.
    + unfold setProperty. destruct (rejects _ _ _) eqn:He; [|done].
      intros [= <- <-]. eauto.
Qed.

Lemma payloadChunks_spell content : JS.join "" (payloadChunks content) = content.
Proof.
  pose proof (splitChunks_spells (String.length content) content
                (maxChunkSize STORAGE_CONFIG) 0) as H.
  unfold payloadChunks. rewrite <-H at 3; [|done|lia|unfold JS.length; lia].
  by destruct content.
Qed.

Lemma payloadChunks_count content :
  Z.of_nat (List.length (payloadChunks content))
  = slotsNeeded (JS.length content) (maxChunkSize STORAGE_CONFIG).
Proof.
  unfold payloadChunks. rewrite splitChunks_count; [|done|lia|unfold JS.length; lia].
  f_equal. unfold JS.length. lia.
Qed.

(** Reading a chunked entry: the slots [0 .. chunkCount - 1] in index
    order, an absent slot adding nothing. *)
Lemma loadFromStorage_chunked path (props : gmap string string) metaData c md n :
  props !! storageKey path = None →
  props !! metaKey path = Some metaData →
  JS.truthy metaData = true →
  JSON_parse metaData = Some {| doc_content := c; doc_metadata := Some md |} →
  md_chunkCount md = Some n →
  loadFromStorage JSON_parse path props
  = Some {| ld_content :=
              Some (JS.join "" (slotText path props <$> seq 0 (Z.to_nat n)));
            ld_metadata := Some md |}.
Proof.
  intros Hsingle Hmeta Htruthy Hparse Hn. unfold loadFromStorage.
  rewrite Hsingle, Hmeta, Htruthy, Hparse, Hn. cbn [default].
  by rewrite readChunks_spec.
Qed.

End StorageFacts.

(** *** Round trip *)

Section StorageLaws.

Variable JSON_stringify : storedDoc → string.
Variable JSON_parse : string → option storedDoc.
Variable Date_parse : string → option Z.
Variable rejects : gmap string string → string → string → option string.

(** [JSON.parse] reads back what [JSON.stringify] wrote, and the text of an
    object is never the empty string. *)
Hypothesis parse_stringify : ∀ d, JSON_parse (JSON_stringify d) = Some d.
Hypothesis stringify_truthy : ∀ d, JS.truthy (JSON_stringify d) = true.

Lemma load_after_save now path content caller props p size chunked count props' :
  saveToStorage JSON_stringify JSON_parse Date_parse rejects now path content caller props
  = (SaveOk p size chunked count, props') →
  JS.length content ≤ maxChunkSize STORAGE_CONFIG ∨ props !! storageKey path = None →
  ∃ md, loadFromStorage JSON_parse path props'
        = Some {| ld_content := Some content; ld_metadata := Some md |}
        ∧ md_chunkCount md = count.
Proof.
  intros Hsave Hfree.
  apply saveToStorage_ok in Hsave
    as (-> & -> & [(Hle & -> & -> & ->)|(Hgt & -> & -> & ->)]).
  - eexists. unfold loadFromStorage. rewrite lookup_insert_eq, stringify_truthy.
    rewrite parse_stringify. by split.
  - destruct Hfree as [Hle|Hfree]; [lia|].
    eexists. split; [|shelve].
    erewrite loadFromStorage_chunked; cycle 1.
    + rewrite lookup_insert_ne by (intros H; by apply (storageKey_ne_metaKey path)).
      rewrite insertChunks_lookup_other by apply storageKey_ne_chunkKey.
      by apply autoCleanupIfNeeded_absent.
    + apply lookup_insert_eq.
    + apply stringify_truthy.
    + apply parse_stringify.
    + reflexivity.
    + rewrite Nat2Z.id. do 3 f_equal.
      rewrite slotText_written; [apply payloadChunks_spell|].
      intros k chunk Hk. rewrite lookup_insert_ne by apply metaKey_ne_chunkKey.
      by apply insertChunks_lookup_chunk.
      Unshelve. reflexivity.
Qed.

(** A successful [saveToStorage] followed by [loadFromStorage] returns the
    payload, for a payload of one slot, and for a longer one when no
    single-slot property is stored under the key. *)
Theorem storage_roundtrip_on_free_key now path content caller props
    p size chunked count props' :
  saveToStorage JSON_stringify JSON_parse Date_parse rejects now path content caller props
  = (SaveOk p size chunked count, props') →
  JS.length content ≤ maxChunkSize STORAGE_CONFIG ∨ props !! storageKey path = None →
  ld_content <$> loadFromStorage JSON_parse path props' = Some (Some content).
Proof.
  intros Hsave Hfree.
  destruct (load_after_save _ _ _ _ _ _ _ _ _ _ Hsave Hfree) as (md & -> & _). done.
Qed.

(** Scenario E. A payload of 600,000 characters saved under a key without
    single-slot property is stored as a chunked entry of two slots and read
    back whole. *)
Theorem storage_scenario_E now path content caller props p size chunked count props' :
  JS.length content = 600000 →
  props !! storageKey path = None →
  saveToStorage JSON_stringify JSON_parse Date_parse rejects now path content caller props
  = (SaveOk p size chunked count, props') →
  chunked = true ∧ count = Some 2
  ∧ ∃ md, loadFromStorage JSON_parse path props'
          = Some {| ld_content := Some content; ld_metadata := Some md |}
          ∧ md_chunkCount md = Some 2.
Proof.
  intros Hlen Hfree Hsave.
  destruct (load_after_save _ _ _ _ _ _ _ _ _ _ Hsave (or_intror Hfree)) as (md & Hload & Hmd).
  apply saveToStorage_ok in Hsave as (_ & _ & [(Hle & _)|(_ & -> & -> & _)]).
  { cbn in Hle. lia. }
  rewrite payloadChunks_count, Hlen in *. split; [done|]. split; [done|]. by exists md.
Qed.

End StorageLaws.

(** C4, as the code has it. Reading a chunked entry returns the slots that
    are present, concatenated in index order: a slot that is absent adds
    nothing and the read still succeeds, with the payload shortened by
    the missing slot. *)
Theorem loadFromStorage_skips_missing_slots (JSON_parse : string → option storedDoc)
    (path : string) (props : gmap string string) (metaData : string)
    (c : option string) (md : metadata) (n : Z) :
  props !! storageKey path = None →
  props !! metaKey path = Some metaData →
  JS.truthy metaData = true →
  JSON_parse metaData = Some {| doc_content := c; doc_metadata := Some md |} →
  md_chunkCount md = Some n →
  loadFromStorage JSON_parse path props
  = Some {| ld_content :=
              Some (JS.join "" ((λ i, default "" (props !! chunkKey path i))
                                  <$> seq 0 (Z.to_nat n)));
            ld_metadata := Some md |}.
Proof. apply loadFromStorage_chunked. Qed.

(** C8, as the code has it. [saveToStorage] compares nothing with
    [maxTotalSize]: when the property service takes every write, every
    payload is reported as saved, in [slotsNeeded] chunk slots when it
    exceeds one slot; and a failure it reports is an error the property
    service raised on a write. *)
Theorem saveToStorage_has_no_budget_check (JSON_stringify : storedDoc → string)
    (JSON_parse : string → option storedDoc) (Date_parse : string → option Z)
    (now : clock) (path content : string) (caller : list (string * string))
    (props : gmap string string) :
  (saveToStorage JSON_stringify JSON_parse Date_parse (λ _ _ _, None)
     now path content caller props).1
  = SaveOk path (JS.length content) (maxChunkSize STORAGE_CONFIG <? JS.length content)
      (if maxChunkSize STORAGE_CONFIG <? JS.length content
       then Some (slotsNeeded (JS.length content) (maxChunkSize STORAGE_CONFIG))
       else None)
  ∧ ∀ rejects,
      match (saveToStorage JSON_stringify JSON_parse Date_parse rejects
               now path content caller props).1 with
      | SaveFailed err => ∃ st key value, rejects st key value = Some err
      | SaveOk _ _ _ _ => True
      end.
Proof.
  split.
  - destruct (saveToStorage _ _ _ _ _ _ _ _ _) as [[p size chunked count|err] props'] eqn:Hs.
    + apply saveToStorage_ok in Hs as (-> & -> & [(Hle & -> & -> & _)|(Hgt & -> & -> & _)]).
      * cbn [fst]. by destruct (Z.ltb_spec (maxChunkSize STORAGE_CONFIG) (JS.length content));
          [lia|].
      * cbn [fst]. destruct (Z.ltb_spec (maxChunkSize STORAGE_CONFIG) (JS.length content));
          [|lia]. by rewrite payloadChunks_count.
    + apply saveToStorage_failed in Hs as (st & key & value & Hr). discriminate Hr.
  - intros rejects.
    destruct (saveToStorage _ _ _ _ _ _ _ _ _) as [[p size chunked count|err] props'] eqn:Hs;
      [done|].
    cbn [fst]. by eapply saveToStorage_failed.
Qed.

(** *** The concrete instance *)

Lemma number_digits p : Codec.number (Codec.digits p) = Some p.
Proof. induction p as [p IH|p IH|]; cbn; by rewrite ?IH. Qed.

Lemma codec_parse_stringify d : Codec.parse (Codec.stringify d) = Some d.
Proof.
  unfold Codec.parse, Codec.stringify. rewrite decide_True by done.
  rewrite number_digits. cbn. apply decode_encode.
Qed.

Lemma codec_stringify_truthy d : JS.truthy (Codec.stringify d) = true.
Proof. reflexivity. Qed.

Lemma storage_roundtrip_on_free_key_witness :
  ld_content <$> Codec.load "k" (Codec.save noon "k" "hello" [] ∅).2 = Some (Some "hello").
Proof.
  unfold Codec.save, Codec.load.
  destruct (saveToStorage Codec.stringify Codec.parse Codec.noDate Codec.acceptAll
              noon "k" "hello" [] ∅) as [[p size chunked count|err] props'] eqn:E.
  - apply (storage_roundtrip_on_free_key Codec.stringify Codec.parse Codec.noDate
             Codec.acceptAll codec_parse_stringify codec_stringify_truthy
             noon "k" "hello" [] ∅ p size chunked count props' E).
    right. apply lookup_empty.
  - apply saveToStorage_failed in E as (st & key & value & Hr). discriminate Hr.
Defined.

Lemma payloadTwoSlots_length : JS.length payloadTwoSlots = 600000.
Proof. by apply JSFacts.repeat_length. Qed.

Lemma storage_scenario_E_witness :
  JS.length payloadTwoSlots = 600000
  ∧ (Codec.save noon "large" payloadTwoSlots [] ∅).1 = SaveOk "large" 600000 true (Some 2)
  ∧ ∃ md, Codec.load "large" (Codec.save noon "large" payloadTwoSlots [] ∅).2
          = Some {| ld_content := Some payloadTwoSlots; ld_metadata := Some md |}
          ∧ md_chunkCount md = Some 2.
Proof.
  split; [exact payloadTwoSlots_length|]. unfold Codec.save, Codec.load.
  destruct (saveToStorage Codec.stringify Codec.parse Codec.noDate Codec.acceptAll
              noon "large" payloadTwoSlots [] ∅)
    as [[p size chunked count|err] props'] eqn:E.
  - pose proof (saveToStorage_ok _ _ _ _ _ _ _ _ _ _ _ _ _ _ E) as (-> & -> & _).
    destruct (storage_scenario_E Codec.stringify Codec.parse Codec.noDate
                Codec.acceptAll codec_parse_stringify codec_stringify_truthy
                noon "large" payloadTwoSlots [] ∅ _ _ chunked count props'
                payloadTwoSlots_length (lookup_empty _) E) as (-> & -> & Hload).
    split; [|exact Hload]. cbn [fst]. by rewrite payloadTwoSlots_length.
  - apply saveToStorage_failed in E as (st & key & value & Hr). discriminate Hr.
Defined.

Lemma loadFromStorage_skips_missing_slots_witness :
  gappedStore !! storageKey "notes" = None
  ∧ Codec.load "notes" gappedStore
    = Some {| ld_content :=
                Some (JS.join "" ((λ i, default "" (gappedStore !! chunkKey "notes" i))
                                    <$> seq 0 (Z.to_nat 3)));
              ld_metadata := Some gappedMetadata |}.
Proof.
  assert (gappedStore !! storageKey "notes" = None) as Hsingle by (vm_compute; reflexivity).
  split; [exact Hsingle|].
  apply (loadFromStorage_skips_missing_slots Codec.parse "notes" gappedStore
           (Codec.stringify {| doc_content := None; doc_metadata := Some gappedMetadata |})
           None gappedMetadata 3 Hsingle).
  - vm_compute. reflexivity.
  - reflexivity.
  - apply codec_parse_stringify.
  - reflexivity.
Defined.

(** C4 as stated fails: with slot 1 of a three-slot entry gone, the read
    is not an error; it returns the 450,001 characters of slots 0 and 2
    where 900,001 were written. *)
Lemma loadFromStorage_returns_truncated_payload :
  (Codec.save noon "report" payloadThreeSlots [] ∅).1
  = SaveOk "report" 900001 true (Some 3)
  ∧ storeAfterLosingSlot !! chunkKey "report" 1 = None
  ∧ (λ l, JS.length <$> ld_content l) <$> Codec.load "report" storeAfterLosingSlot
    = Some (Some 450001)
  ∧ Codec.load "notes" gappedStore
    = Some {| ld_content := Some "abcghi"; ld_metadata := Some gappedMetadata |}.
Proof.
  split; [vm_compute; reflexivity|]. split; [vm_compute; reflexivity|].
  split; vm_compute; reflexivity.
Qed.

Lemma payloadOverBudget_length : JS.length payloadOverBudget = 8000001.
Proof. by apply JSFacts.repeat_length. Qed.

Lemma saveToStorage_accepting stringify parse dparse now path content caller props :
  maxChunkSize STORAGE_CONFIG < JS.length content →
  (saveToStorage stringify parse dparse Codec.acceptAll now path content caller props).1
  = SaveOk path (JS.length content) true
      (Some (slotsNeeded (JS.length content) (maxChunkSize STORAGE_CONFIG))).
Proof.
  intros Hgt.
  destruct (saveToStorage _ _ _ _ _ _ _ _ _) as [[p size chunked count|err] props'] eqn:Hs.
  - apply saveToStorage_ok in Hs as (-> & -> & [(Hle & _)|(_ & -> & -> & _)]); [lia|].
    cbn [fst]. by rewrite payloadChunks_count.
  - apply saveToStorage_failed in Hs as (st & key & value & Hr). discriminate Hr.
Qed.

(** C8 as stated fails: a payload of 8,000,001 characters, more than
    [maxTotalSize], is reported as saved, in 18 chunk slots. *)
Lemma saveToStorage_over_budget_succeeds :
  maxTotalSize STORAGE_CONFIG < JS.length payloadOverBudget
  ∧ (Codec.save noon "big" payloadOverBudget [] ∅).1 = SaveOk "big" 8000001 true (Some 18).
Proof.
  split.
  - rewrite payloadOverBudget_length. reflexivity.
  - unfold Codec.save. rewrite saveToStorage_accepting.
    + by rewrite payloadOverBudget_length.
    + rewrite payloadOverBudget_length. reflexivity.
Qed.

(** C3 at its failing input: under a key that holds a single-slot entry,
    a payload of 450,001 characters is saved with success, in two chunk
    slots, and the read that follows returns the old entry. *)
Lemma stale_single_slot_answers_after_chunked_save :
  (Codec.save later "k" payloadOverOneSlot [] (Codec.save noon "k" "old" [] ∅).2).1
  = SaveOk "k" 450001 true (Some 2)
  ∧ ld_content <$> Codec.load "k" storeShortThenLong = Some (Some "old").
Proof. split; vm_compute; reflexivity. Qed.

(** C5 at its failing inputs: after "first" and then a two-slot payload,
    the read returns "first"; after a two-slot payload and then "second",
    both chunk slots and the metadata of the first write are still stored;
    after a three-slot payload and then a two-slot one, slot 2 of the first
    write is still stored. *)
Lemma overwrite_leaves_first_write_behind :
  ld_content <$> Codec.load "doc" storeFirstThenTwoSlots = Some (Some "first")
  ∧ ld_content <$> Codec.load "doc" storeTwoSlotsThenSecond = Some (Some "second")
  ∧ JS.length <$> storeTwoSlotsThenSecond !! chunkKey "doc" 0 = Some 450000
  ∧ JS.length <$> storeTwoSlotsThenSecond !! chunkKey "doc" 1 = Some 1
  ∧ JS.truthy <$> storeTwoSlotsThenSecond !! metaKey "doc" = Some true
  ∧ storeThreeSlotsThenTwo !! chunkKey "doc" 2 = Some "B".
Proof.
  split; [vm_compute; reflexivity|]. split; [vm_compute; reflexivity|].
  split; [vm_compute; reflexivity|]. split; [vm_compute; reflexivity|].
  split; vm_compute; reflexivity.
Qed.

(** ** More on the bounded key-value store *)

Section StorageMore.

Variable JSON_stringify : storedDoc → string.
Variable JSON_parse : string → option storedDoc.
Variable Date_parse : string → option Z.
Variable rejects : gmap string string → string → string → option string.

Lemma deleteChunks_lookup_other path count from (props : gmap string string) key :
  (∀ i, key ≠ chunkKey path i) →
  deleteChunks path count from props !! key = props !! key.
Proof.
  intros Hkey. revert from props. induction count as [|count IH]; intros from props; [done|].
  cbn [deleteChunks]. rewrite IH. apply lookup_delete_ne. intros H. by apply (Hkey from).
Qed.

Lemma deleteChunks_lookup_chunk path count from (props : gmap string string) i :
  deleteChunks path count from props !! chunkKey path i
  = if decide (from ≤ i < from + count)%nat then None else props !! chunkKey path i.
Proof.
  revert from props. induction count as [|count IH]; intros from props.
  - cbn [deleteChunks]. rewrite decide_False by lia. done.
  - cbn [deleteChunks]. rewrite IH.
    destruct (decide (i = from)) as [->|Hne].
    + rewrite (decide_True (P := (from ≤ from < from + S count)%nat)) by lia.
      rewrite decide_False by lia. apply lookup_delete_eq.
    + rewrite lookup_delete_ne by (intros H%chunkKey_inj; lia).
      destruct (decide (S from ≤ i < S from + count)%nat),
        (decide (from ≤ i < from + S count)%nat); try done; lia.
Qed.

(** [deleteFromStorage] touches no property but those of its path. *)
Lemma deleteFromStorage_lookup_other path (props : gmap string string) key :
  ¬ derivedKey path key →
  deleteFromStorage JSON_parse path props !! key = props !! key.
Proof.
  intros Hkey. unfold deleteFromStorage.
  assert (storageKey path ≠ key) as Hs by (intros <-; apply Hkey; by left).
  assert (metaKey path ≠ key) as Hm by (intros <-; apply Hkey; right; by left).
  assert (∀ i, key ≠ chunkKey path i) as Hc
    by (intros i ->; apply Hkey; right; right; by exists i).
  destruct (delete (storageKey path) props !! metaKey path) as [metaData|];
    [|by apply lookup_delete_ne].
  destruct (JS.truthy metaData); [|by apply lookup_delete_ne].
  destruct (JSON_parse metaData) as [[c [md|]]|]; try by apply lookup_delete_ne.
  rewrite lookup_delete_ne by done. rewrite deleteChunks_lookup_other by done.
  by apply lookup_delete_ne.
Qed.

(** X4. After [deleteFromStorage(path)], [loadFromStorage(path)] returns
    null, whatever the store held. *)
Theorem load_after_delete_is_null (path : string) (props : gmap string string) :
  loadFromStorage JSON_parse path (deleteFromStorage JSON_parse path props) = None.
Proof.
  unfold deleteFromStorage.
  destruct (delete (storageKey path) props !! metaKey path) as [metaData|] eqn:Hmeta.
  - destruct (JS.truthy metaData) eqn:Htruthy.
    + destruct (JSON_parse metaData) as [[c [md|]]|] eqn:Hparse.
      * unfold loadFromStorage.
        rewrite lookup_delete_ne by (intros H; by apply (storageKey_ne_metaKey path)).
        rewrite deleteChunks_lookup_other by apply storageKey_ne_chunkKey.
        by rewrite lookup_delete_eq, lookup_delete_eq.
      * unfold loadFromStorage. by rewrite lookup_delete_eq, Hmeta, Htruthy, Hparse.
      * unfold loadFromStorage. by rewrite lookup_delete_eq, Hmeta, Htruthy, Hparse.
    + unfold loadFromStorage. by rewrite lookup_delete_eq, Hmeta, Htruthy.
  - unfold loadFromStorage. by rewrite lookup_delete_eq, Hmeta.
Qed.

(** [loadFromStorage] reads only the properties of its path. *)
Lemma loadFromStorage_ext path (props1 props2 : gmap string string) :
  (∀ key, derivedKey path key → props1 !! key = props2 !! key) →
  loadFromStorage JSON_parse path props1 = loadFromStorage JSON_parse path props2.
Proof.
  intros Hagree. unfold loadFromStorage.
  rewrite (Hagree (storageKey path)) by (by left).
  rewrite (Hagree (metaKey path)) by (right; by left).
  destruct (props2 !! storageKey path) as [single|]; [destruct (JS.truthy single); [done|]|];
    (destruct (props2 !! metaKey path) as [metaData|]; [|done];
     destruct (JS.truthy metaData); [|done];
     destruct (JSON_parse metaData) as [[c [md|]]|]; [|done..];
     rewrite !readChunks_spec; do 5 f_equal; apply list_fmap_ext; intros k i _;
     unfold slotText; rewrite (Hagree (chunkKey path i)); [done|];
     right; right; by exists i).
Qed.

Lemma writeChunks_lookup_other path chunks index (props : gmap string string) key :
  (∀ i, key ≠ chunkKey path i) →
  match writeChunks rejects path chunks index props with
  | inl (_, props') | inr props' => props' !! key = props !! key
  end.
Proof.
  intros Hkey. revert index props. induction chunks as [|c rest IH]; intros index props; [done|].
  cbn [writeChunks]. unfold setProperty.
  destruct (rejects props (chunkKey path index) c); [reflexivity|]. cbv beta iota.
  specialize (IH (S index) (<[chunkKey path index := c]> props)).
  destruct (writeChunks rejects path rest (S index) _) as [[e p]|p];
    rewrite IH; apply lookup_insert_ne; intros H; by apply (Hkey index).
Qed.

(** Whether it succeeds or fails, [saveToStorage] changes no property but
    those of its path, after the clean-up that precedes the write. *)
Lemma saveToStorage_lookup_other now path content caller (props : gmap string string) key :
  ¬ derivedKey path key →
  (saveToStorage JSON_stringify JSON_parse Date_parse rejects now path content caller
     props).2 !! key
  = autoCleanupIfNeeded JSON_parse Date_parse now props !! key.
Proof.
  intros Hkey.
  assert (storageKey path ≠ key) as Hs by (intros <-; apply Hkey; by left).
  assert (metaKey path ≠ key) as Hm by (intros <-; apply Hkey; right; by left).
  assert (∀ i, key ≠ chunkKey path i) as Hc
    by (intros i ->; apply Hkey; right; right; by exists i).
  unfold saveToStorage. cbn [autoCleanup STORAGE_CONFIG].
  set (props0 := autoCleanupIfNeeded JSON_parse Date_parse now props).
  destruct (JS.length content <=? maxChunkSize STORAGE_CONFIG).
  - unfold setProperty. destruct (rejects props0 _ _); [done|]. cbn [snd].
    by apply lookup_insert_ne.
  - pose proof (writeChunks_lookup_other path
                  (splitChunks (String.length content) content
                     (maxChunkSize STORAGE_CONFIG) 0) 0 props0 key Hc) as Hw.
    destruct (writeChunks rejects path _ 0 props0) as [[e p]|p]; [done|].
    unfold setProperty. destruct (rejects p _ _); [done|]. cbn [snd].
    by rewrite lookup_insert_ne.
Qed.

(** A store of at most [maxEntries] properties is below the threshold of
    the clean-up. *)
Lemma autoCleanupIfNeeded_small now (props : gmap string string) :
  Z.of_nat (size props) ≤ maxEntries STORAGE_CONFIG →
  autoCleanupIfNeeded JSON_parse Date_parse now props = props.
Proof.
  intros Hsize. unfold autoCleanupIfNeeded.
  pose proof (length_filter (λ key, isEntryKey key = true) (map_to_list props).*1) as Hf.
  rewrite length_fmap, length_map_to_list in Hf.
  destruct (Z.ltb_spec (maxEntries STORAGE_CONFIG)
              (Z.of_nat (List.length
                 (filter (λ key, isEntryKey key = true) (map_to_list props).*1))));
    [lia|done].
Qed.

(** X5. In a store of at most 50 properties, [saveToStorage] changes no
    property other than those of its path, whether it succeeds or fails. *)
Theorem saveToStorage_keeps_other_entries now path content caller
    (props : gmap string string) key :
  Z.of_nat (size props) ≤ maxEntries STORAGE_CONFIG →
  ¬ derivedKey path key →
  (saveToStorage JSON_stringify JSON_parse Date_parse rejects now path content caller
     props).2 !! key = props !! key.
Proof.
  intros Hsize Hkey. rewrite saveToStorage_lookup_other by done.
  by rewrite autoCleanupIfNeeded_small.
Qed.

End StorageMore.

(** *** The shape of property names *)

Lemma startsWith_app pat s : JS.startsWith pat (pat +:+ s) = true.
Proof.
  induction pat as [|c pat IH]; [done|].
  rewrite JSFacts.app_cons. cbn [JS.startsWith]. by rewrite decide_True.
Qed.

Lemma startsWith_app_r pat s t : JS.startsWith pat s = true → JS.startsWith pat (s +:+ t) = true.
Proof.
  revert s. induction pat as [|c pat IH]; intros s H; [done|].
  destruct s as [|d s]; [done|]. rewrite JSFacts.app_cons. cbn [JS.startsWith] in *.
  destruct (decide (c = d)); [by apply IH|done].
Qed.

Lemma startsWith_inv pat s :
  JS.startsWith pat s = true → pat +:+ JS.drop (String.length pat) s = s.
Proof.
  revert s. induction pat as [|c pat IH]; intros s H; [by destruct s|].
  destruct s as [|d s]; [done|]. cbn [JS.startsWith] in H.
  destruct (decide (c = d)) as [->|]; [|done].
  rewrite JSFacts.app_cons. cbn [String.length JS.drop]. by rewrite IH.
Qed.

Lemma includes_startsWith pat s : JS.startsWith pat s = true → JS.includes pat s = true.
Proof. intros H. destruct s; cbn [JS.includes]; by rewrite H. Qed.

Lemma includes_skip pat a s : JS.includes pat s = true → JS.includes pat (a +:+ s) = true.
Proof.
  intros H. induction a as [|c a IH]; [done|].
  rewrite JSFacts.app_cons. cbn [JS.includes]. rewrite IH.
  by destruct (JS.startsWith pat (String c (a +:+ s))).
Qed.

Lemma rev_app_spec s acc : String.rev_app s acc = String.rev s +:+ acc.
Proof.
  unfold String.rev. revert acc. induction s as [|c s IH]; intros acc; [done|].
  cbn [String.rev_app]. rewrite IH, (IH (String c "")).
  by rewrite JSFacts.app_assoc, JSFacts.app_cons, JSFacts.app_nil_l.
Qed.

Lemma rev_app_distr a b : String.rev (a +:+ b) = String.rev b +:+ String.rev a.
Proof.
  induction a as [|c a IH]; [by rewrite JSFacts.app_nil_l, JSFacts.app_nil_r|].
  rewrite JSFacts.app_cons. unfold String.rev at 1 3. cbn [String.rev_app].
  by rewrite !rev_app_spec, IH, JSFacts.app_assoc.
Qed.

Lemma endsWith_skip pat a s : JS.endsWith pat s = true → JS.endsWith pat (a +:+ s) = true.
Proof. unfold JS.endsWith. intros H. rewrite rev_app_distr. by apply startsWith_app_r. Qed.

Lemma isEntryKey_metaKey path : isEntryKey (metaKey path) = false.
Proof.
  unfold isEntryKey, metaKey.
  rewrite (endsWith_skip "_META" "STORAGE_" (path +:+ "_META"))
    by (by apply endsWith_skip).
  apply andb_false_r.
Qed.

Lemma isEntryKey_chunkKey path i : isEntryKey (chunkKey path i) = false.
Proof.
  unfold isEntryKey, chunkKey.
  rewrite (includes_skip "_CHUNK_" "STORAGE_" (path +:+ "_CHUNK_" +:+ pretty i))
    by (apply includes_skip, includes_startsWith, startsWith_app).
  by rewrite andb_false_r.
Qed.

Lemma storageKey_pathOfKey key : isEntryKey key = true → storageKey (pathOfKey key) = key.
Proof.
  unfold isEntryKey. intros [[H _]%andb_prop _]%andb_prop.
  by apply (startsWith_inv "STORAGE_").
Qed.

(** Among the properties of a path, only its single slot passes the filter
    of the clean-up. *)
Lemma derivedKey_entry path key :
  isEntryKey key = true → derivedKey path key → key = storageKey path.
Proof.
  intros Hentry [->|[->|[i ->]]]; [done|..].
  - by rewrite isEntryKey_metaKey in Hentry.
  - by rewrite isEntryKey_chunkKey in Hentry.
Qed.

Lemma derivedKey_head path key c :
  String.get 0 path = Some c → derivedKey path key → String.get 8 key = Some c.
Proof.
  destruct path as [|d path]; [done|]. intros [= ->].
  by intros [->|[->|[i ->]]].
Qed.

(** *** Clean-up, and deletion after a save *)

Section StorageCleanup.

Variable JSON_stringify : storedDoc → string.
Variable JSON_parse : string → option storedDoc.
Variable Date_parse : string → option Z.
Variable rejects : gmap string string → string → string → option string.

Lemma deleteFromStorage_lookup_storageKey path (props : gmap string string) :
  deleteFromStorage JSON_parse path props !! storageKey path = None.
Proof.
  unfold deleteFromStorage.
  destruct (delete (storageKey path) props !! metaKey path) as [metaData|];
    [|apply lookup_delete_eq].
  destruct (JS.truthy metaData); [|apply lookup_delete_eq].
  destruct (JSON_parse metaData) as [[c [md|]]|]; try apply lookup_delete_eq.
  rewrite lookup_delete_ne by (intros H; by apply (storageKey_ne_metaKey path)).
  rewrite deleteChunks_lookup_other by apply storageKey_ne_chunkKey.
  apply lookup_delete_eq.
Qed.

Lemma deleteAll_lookup_other paths (acc : gmap string string) key :
  (∀ path, path ∈ paths → ¬ derivedKey path key) →
  foldl (λ acc path, deleteFromStorage JSON_parse path acc) acc paths !! key = acc !! key.
Proof.
  revert acc. induction paths as [|path rest IH]; intros acc Hkey; [done|].
  cbn [foldl]. rewrite IH by (intros p Hp; apply Hkey; by right).
  apply deleteFromStorage_lookup_other, Hkey. by left.
Qed.

Lemma deleteAll_lookup_storageKey paths (acc : gmap string string) path :
  path ∈ paths →
  foldl (λ acc path, deleteFromStorage JSON_parse path acc) acc paths !! storageKey path
  = None.
Proof.
  revert acc. induction paths as [|p rest IH]; intros acc Hin; [by apply elem_of_nil in Hin|].
  cbn [foldl]. apply elem_of_cons in Hin as [->|Hin]; [|by apply IH].
  eapply lookup_weaken_None; [apply deleteFromStorage_lookup_storageKey|].
  apply deleteAll_subseteq.
Qed.

(** X6. On a single-slot entry, [cleanupOldStorageEntries] is decided by
    the entry's own value alone: the entry is removed when it is stale
    (its text does not parse, or its timestamp is older than the cutoff)
    and kept untouched otherwise. *)
Theorem cleanup_decides_entry_by_its_age now olderThanHours (props : gmap string string)
    key value :
  props !! key = Some value →
  isEntryKey key = true →
  cleanupOldStorageEntries JSON_parse Date_parse now olderThanHours props !! key
  = if isStale JSON_parse Date_parse (nowMs now - olderThanHours * 60 * 60 * 1000) value
    then None else Some value.
Proof.
  intros Hkey Hentry. unfold cleanupOldStorageEntries.
  set (cutoffTime := nowMs now - olderThanHours * 60 * 60 * 1000).
  destruct (isStale JSON_parse Date_parse cutoffTime value) eqn:Hstale.
  - rewrite <-(storageKey_pathOfKey key Hentry). apply deleteAll_lookup_storageKey.
    apply list_elem_of_omap. exists (key, value). split.
    + by apply elem_of_map_to_list.
    + cbn [fst snd]. by rewrite Hentry, Hstale.
  - rewrite deleteAll_lookup_other; [done|].
    intros path [[k v] [Hkv Hpath]]%list_elem_of_omap Hderived.
    apply elem_of_map_to_list in Hkv. cbn [fst snd] in Hpath.
    destruct (isEntryKey k) eqn:Hk; [|done].
    destruct (isStale JSON_parse Date_parse cutoffTime v) eqn:Hv; [|done].
    injection Hpath as <-.
    apply (derivedKey_entry _ _ Hentry) in Hderived.
    rewrite (storageKey_pathOfKey k Hk) in Hderived. subst k.
    rewrite Hkey in Hkv. injection Hkv as <-. congruence.
Qed.

Lemma autoCleanupIfNeeded_lookup_fresh now (props : gmap string string) key value :
  props !! key = Some value →
  isEntryKey key = true →
  isStale JSON_parse Date_parse (nowMs now - maxAge STORAGE_CONFIG * 60 * 60 * 1000) value
  = false →
  autoCleanupIfNeeded JSON_parse Date_parse now props !! key = Some value.
Proof.
  intros Hkey Hentry Hfresh. unfold autoCleanupIfNeeded.
  destruct (_ <? _); [|done].
  unfold cleanupOldStorageEntries. rewrite deleteAll_lookup_other; [done|].
  intros path [[k v] [Hkv Hpath]]%list_elem_of_omap Hderived.
  apply elem_of_map_to_list in Hkv. cbn [fst snd] in Hpath.
  destruct (isEntryKey k) eqn:Hk; [|done].
  destruct (isStale JSON_parse Date_parse _ v) eqn:Hv; [|done].
  injection Hpath as <-.
  apply (derivedKey_entry _ _ Hentry) in Hderived.
  rewrite (storageKey_pathOfKey k Hk) in Hderived. subst k.
  rewrite Hkey in Hkv. injection Hkv as <-. congruence.
Qed.

(** X7. Whatever the size of the store, [saveToStorage] neither removes
    nor changes the single-slot entry of another path whose timestamp is
    not older than [maxAge] hours, whether the save succeeds or fails. *)
Theorem saveToStorage_keeps_fresh_entries now path content caller
    (props : gmap string string) key value :
  props !! key = Some value →
  isEntryKey key = true →
  key ≠ storageKey path →
  isStale JSON_parse Date_parse (nowMs now - maxAge STORAGE_CONFIG * 60 * 60 * 1000) value
  = false →
  (saveToStorage JSON_stringify JSON_parse Date_parse rejects now path content caller
     props).2 !! key = Some value.
Proof.
  intros Hkey Hentry Hne Hfresh.
  rewrite saveToStorage_lookup_other
    by (intros Hderived; by apply Hne, derivedKey_entry).
  by apply autoCleanupIfNeeded_lookup_fresh.
Qed.

Lemma saveToStorage_keeps_other_kind now path content caller (props : gmap string string)
    otherPath c d :
  Z.of_nat (size props) ≤ maxEntries STORAGE_CONFIG →
  String.get 0 path = Some c → String.get 0 otherPath = Some d → c ≠ d →
  loadFromStorage JSON_parse otherPath
    (saveToStorage JSON_stringify JSON_parse Date_parse rejects now path content caller
       props).2
  = loadFromStorage JSON_parse otherPath props.
Proof.
  intros Hsize Hc Hd Hne. apply loadFromStorage_ext. intros key Hkey.
  rewrite saveToStorage_lookup_other; [by rewrite autoCleanupIfNeeded_small|].
  intros Hkey'. apply (derivedKey_head _ _ _ Hd) in Hkey.
  apply (derivedKey_head _ _ _ Hc) in Hkey'. congruence.
Qed.

(** X8. The three kinds of entries do not get in each other's way. In a
    store of at most 50 properties, saving a raw file, a processed file
    or a status control changes nothing of what the load functions of the
    other two kinds return, for any pages, items and content types. *)
Theorem specialised_saves_do_not_interfere now pageId itemId contentType content taskId
    (props : gmap string string) pageId' itemId' contentType' :
  Z.of_nat (size props) ≤ maxEntries STORAGE_CONFIG →
  (loadProcessedFile JSON_parse pageId' itemId' contentType'
     (saveRawFile JSON_stringify JSON_parse Date_parse rejects now
        pageId itemId contentType content props).2
   = loadProcessedFile JSON_parse pageId' itemId' contentType' props
   ∧ loadStatusControl JSON_parse pageId'
       (saveRawFile JSON_stringify JSON_parse Date_parse rejects now
          pageId itemId contentType content props).2
     = loadStatusControl JSON_parse pageId' props)
  ∧ (loadRawFile JSON_parse pageId' itemId' contentType'
       (saveProcessedFile JSON_stringify JSON_parse Date_parse rejects now
          pageId itemId contentType content taskId props).2
     = loadRawFile JSON_parse pageId' itemId' contentType' props
     ∧ loadStatusControl JSON_parse pageId'
         (saveProcessedFile JSON_stringify JSON_parse Date_parse rejects now
            pageId itemId contentType content taskId props).2
       = loadStatusControl JSON_parse pageId' props)
  ∧ (loadRawFile JSON_parse pageId' itemId' contentType'
       (saveStatusControl JSON_stringify JSON_parse Date_parse rejects now
          pageId content props).2
     = loadRawFile JSON_parse pageId' itemId' contentType' props
     ∧ loadProcessedFile JSON_parse pageId' itemId' contentType'
         (saveStatusControl JSON_stringify JSON_parse Date_parse rejects now
            pageId content props).2
       = loadProcessedFile JSON_parse pageId' itemId' contentType' props).
Proof.
  intros Hsize.
  unfold loadRawFile, loadProcessedFile, loadStatusControl, saveRawFile, saveProcessedFile,
    saveStatusControl.
  repeat split;
    by eapply saveToStorage_keeps_other_kind; [exact Hsize|reflexivity|reflexivity|].
Qed.

End StorageCleanup.

Section StorageFailure.

Variable JSON_stringify : storedDoc → string.
Variable JSON_parse : string → option storedDoc.
Variable Date_parse : string → option Z.
Variable rejects : gmap string string → string → string → option string.

Lemma loadFromStorage_absent path (props : gmap string string) :
  props !! storageKey path = None → props !! metaKey path = None →
  loadFromStorage JSON_parse path props = None.
Proof. intros Hs Hm. unfold loadFromStorage. by rewrite Hs, Hm. Qed.

(** X9. A save that fails on a path the store holds nothing under leaves
    nothing to read there: [loadFromStorage] returns null, also when some
    chunk slots were written before the service refused a write. *)
Theorem failed_save_leaves_nothing_readable now path content caller
    (props : gmap string string) err props' :
  saveToStorage JSON_stringify JSON_parse Date_parse rejects now path content caller props
  = (SaveFailed err, props') →
  props !! storageKey path = None →
  props !! metaKey path = None →
  loadFromStorage JSON_parse path props' = None.
Proof.
  intros Hsave Hs Hm.
  apply (autoCleanupIfNeeded_absent JSON_parse Date_parse now) in Hs, Hm.
  revert Hsave. unfold saveToStorage. cbn [autoCleanup STORAGE_CONFIG].
  set (props0 := autoCleanupIfNeeded JSON_parse Date_parse now props) in *.
  destruct (JS.length content <=? maxChunkSize STORAGE_CONFIG).
  - unfold setProperty. destruct (rejects props0 _ _); [|done].
    intros [= <- <-]. by apply loadFromStorage_absent.
  - pose proof (writeChunks_lookup_other rejects path
                  (splitChunks (String.length content) content
                     (maxChunkSize STORAGE_CONFIG) 0) 0 props0) as Hw.
    destruct (writeChunks rejects path _ 0 props0) as [[e p]|p].
    + intros [= <- <-]. apply loadFromStorage_absent.
      * rewrite Hw; [done|]. apply storageKey_ne_chunkKey.
      * rewrite Hw; [done|]. apply metaKey_ne_chunkKey.
    + unfold setProperty. destruct (rejects p _ _); [|done].
      intros [= <- <-]. apply loadFromStorage_absent.
      * rewrite Hw; [done|]. apply storageKey_ne_chunkKey.
      * rewrite Hw; [done|]. apply metaKey_ne_chunkKey.
Qed.

End StorageFailure.

Section StorageUndo.

Variable JSON_stringify : storedDoc → string.
Variable JSON_parse : string → option storedDoc.
Variable Date_parse : string → option Z.
Variable rejects : gmap string string → string → string → option string.

Hypothesis parse_stringify : ∀ d, JSON_parse (JSON_stringify d) = Some d.
Hypothesis stringify_truthy : ∀ d, JS.truthy (JSON_stringify d) = true.

Lemma insertChunks_delete_below path chunks index (props : gmap string string) j :
  (j < index)%nat →
  delete (chunkKey path j) (insertChunks path chunks index props)
  = insertChunks path chunks index (delete (chunkKey path j) props).
Proof.
  revert index props. induction chunks as [|c rest IH]; intros index props Hj; [done|].
  cbn [insertChunks]. rewrite IH by lia. f_equal.
  apply delete_insert_ne. intros H%chunkKey_inj. lia.
Qed.

Lemma deleteChunks_insertChunks path chunks index (props : gmap string string) :
  (∀ j, props !! chunkKey path j = None) →
  deleteChunks path (List.length chunks) index (insertChunks path chunks index props)
  = props.
Proof.
  intros Hfree. revert index. induction chunks as [|c rest IH]; intros index; [done|].
  cbn [List.length deleteChunks insertChunks].
  rewrite insertChunks_delete_below by lia.
  rewrite delete_insert_id by apply Hfree. apply IH.
Qed.

Lemma deleteChunks_insert_other path count from (props : gmap string string) key value :
  (∀ i, key ≠ chunkKey path i) →
  deleteChunks path count from (<[key := value]> props)
  = <[key := value]> (deleteChunks path count from props).
Proof.
  intros Hkey. revert from props. induction count as [|count IH]; intros from props; [done|].
  cbn [deleteChunks]. rewrite <-IH. f_equal.
  apply delete_insert_ne. intros H. by apply (Hkey from).
Qed.

(** X10. Deletion undoes a save: after a successful [saveToStorage] on a
    path the store held nothing under, [deleteFromStorage] of that path
    gives back the store the save started from (the store as the save's
    own clean-up left it), with the single slot, the metadata slot and
    every chunk slot removed. *)
Theorem delete_after_save_restores_store now path content caller
    (props : gmap string string) p size chunked count props' :
  saveToStorage JSON_stringify JSON_parse Date_parse rejects now path content caller props
  = (SaveOk p size chunked count, props') →
  (∀ key, derivedKey path key → props !! key = None) →
  deleteFromStorage JSON_parse path props'
  = autoCleanupIfNeeded JSON_parse Date_parse now props.
Proof.
  intros Hsave Hfree.
  assert (∀ key, derivedKey path key →
            autoCleanupIfNeeded JSON_parse Date_parse now props !! key = None) as Hfree0
    by (intros key Hkey; by apply autoCleanupIfNeeded_absent, Hfree).
  apply saveToStorage_ok in Hsave as (_ & _ & Hcases).
  set (props0 := autoCleanupIfNeeded JSON_parse Date_parse now props) in *.
  assert (props0 !! storageKey path = None) as Hs by (apply Hfree0; by left).
  assert (props0 !! metaKey path = None) as Hm by (apply Hfree0; right; by left).
  assert (∀ j, props0 !! chunkKey path j = None) as Hc
    by (intros j; apply Hfree0; right; right; by exists j).
  destruct Hcases as [(_ & _ & _ & ->)|(_ & _ & _ & ->)]; unfold deleteFromStorage.
  - rewrite delete_insert_id by done. by rewrite Hm.
  - set (chunks := payloadChunks content).
    rewrite (delete_id _ (storageKey path)).
    2:{ rewrite lookup_insert_ne by (intros H; by apply (storageKey_ne_metaKey path)).
        rewrite insertChunks_lookup_other; [done|]. apply storageKey_ne_chunkKey. }
    rewrite lookup_insert_eq, stringify_truthy, parse_stringify.
    cbn [metadataObjOf md_chunkCount default id]. rewrite Nat2Z.id.
    rewrite deleteChunks_insert_other by apply metaKey_ne_chunkKey.
    rewrite deleteChunks_insertChunks by done.
    by apply delete_insert_id.
Qed.

End StorageUndo.

Lemma saveToStorage_keeps_other_entries_witness :
  (Codec.save noon "a" "hello" [] {["STORAGE_b" := "x"]}).2 !! "STORAGE_b" = Some "x".
Proof.
  unfold Codec.save.
  etrans; [apply (saveToStorage_keeps_other_entries Codec.stringify Codec.parse
                    Codec.noDate Codec.acceptAll noon "a" "hello" []
                    {["STORAGE_b" := "x"]} "STORAGE_b")|reflexivity].
  - by vm_compute.
  - intros Hkey. eapply (derivedKey_head "a") in Hkey; [|reflexivity]. discriminate Hkey.
Defined.

Lemma cleanup_decides_entry_by_its_age_witness :
  cleanupOldStorageEntries Codec.parse Codec.noDate noon 24 {["STORAGE_a" := "x"]}
    !! "STORAGE_a" = None.
Proof.
  exact (cleanup_decides_entry_by_its_age Codec.parse Codec.noDate noon 24
           {["STORAGE_a" := "x"]} "STORAGE_a" "x" eq_refl eq_refl).
Defined.

Lemma saveToStorage_keeps_fresh_entries_witness :
  (Codec.save later "a" "hello" []
     {["STORAGE_b" := Codec.stringify (propertyDataOf noon "x" [])]}).2 !! "STORAGE_b"
  = Some (Codec.stringify (propertyDataOf noon "x" [])).
Proof.
  unfold Codec.save.
  apply (saveToStorage_keeps_fresh_entries Codec.stringify Codec.parse Codec.noDate
           Codec.acceptAll later "a" "hello" []).
  - reflexivity.
  - reflexivity.
  - discriminate.
  - unfold isStale. by rewrite codec_parse_stringify.
Defined.

Lemma specialised_saves_do_not_interfere_witness :
  (loadProcessedFile Codec.parse "page" "page_main" "text"
     (saveRawFile Codec.stringify Codec.parse Codec.noDate Codec.acceptAll noon
        "page" "page_main" "text" "summary" ∅).2
   = loadProcessedFile Codec.parse "page" "page_main" "text" ∅
   ∧ loadStatusControl Codec.parse "page"
       (saveRawFile Codec.stringify Codec.parse Codec.noDate Codec.acceptAll noon
          "page" "page_main" "text" "summary" ∅).2
     = loadStatusControl Codec.parse "page" ∅)
  ∧ (loadRawFile Codec.parse "page" "page_main" "text"
       (saveProcessedFile Codec.stringify Codec.parse Codec.noDate Codec.acceptAll noon
          "page" "page_main" "text" "summary" "task" ∅).2
     = loadRawFile Codec.parse "page" "page_main" "text" ∅
     ∧ loadStatusControl Codec.parse "page"
         (saveProcessedFile Codec.stringify Codec.parse Codec.noDate Codec.acceptAll noon
            "page" "page_main" "text" "summary" "task" ∅).2
       = loadStatusControl Codec.parse "page" ∅)
  ∧ (loadRawFile Codec.parse "page" "page_main" "text"
       (saveStatusControl Codec.stringify Codec.parse Codec.noDate Codec.acceptAll noon
          "page" "summary" ∅).2
     = loadRawFile Codec.parse "page" "page_main" "text" ∅
     ∧ loadProcessedFile Codec.parse "page" "page_main" "text"
         (saveStatusControl Codec.stringify Codec.parse Codec.noDate Codec.acceptAll noon
            "page" "summary" ∅).2
       = loadProcessedFile Codec.parse "page" "page_main" "text" ∅).
Proof.
  apply (specialised_saves_do_not_interfere Codec.stringify Codec.parse Codec.noDate
           Codec.acceptAll noon "page" "page_main" "text" "summary" "task" ∅
           "page" "page_main" "text").
  by vm_compute.
Defined.

Lemma failed_save_leaves_nothing_readable_witness :
  loadFromStorage Codec.parse "k"
    (saveToStorage Codec.stringify Codec.parse Codec.noDate (Codec.refuseLong 10)
       noon "k" "hello" [] ∅).2 = None.
Proof.
  destruct (saveToStorage Codec.stringify Codec.parse Codec.noDate (Codec.refuseLong 10)
              noon "k" "hello" [] ∅) as [[p size chunked count|err] props'] eqn:E.
  - apply (f_equal (λ r, match r.1 with SaveOk _ _ _ _ => true | SaveFailed _ => false end))
      in E.
    vm_compute in E. discriminate E.
  - apply (failed_save_leaves_nothing_readable Codec.stringify Codec.parse Codec.noDate
             (Codec.refuseLong 10) noon "k" "hello" [] ∅ err props' E);
      apply lookup_empty.
Defined.

Lemma delete_after_save_restores_store_witness :
  deleteFromStorage Codec.parse "k" (Codec.save noon "k" "hello" [] ∅).2 = ∅.
Proof.
  unfold Codec.save.
  destruct (saveToStorage Codec.stringify Codec.parse Codec.noDate Codec.acceptAll
              noon "k" "hello" [] ∅) as [[p size chunked count|err] props'] eqn:E.
  - etrans; [apply (delete_after_save_restores_store Codec.stringify Codec.parse
                      Codec.noDate Codec.acceptAll codec_parse_stringify
                      codec_stringify_truthy noon "k" "hello" [] ∅ p size chunked count
                      props' E)|].
    + intros key _. apply lookup_empty.
    + apply autoCleanupIfNeeded_small. by vm_compute.
  - apply saveToStorage_failed in E as (st & key & value & Hr). discriminate Hr.
Defined.

(** *** Statistics and the clean-up of a finished page *)

Lemma insertBySize_Permutation e sorted : insertBySize e sorted ≡ₚ e :: sorted.
Proof.
  induction sorted as [|x rest IH]; [done|]. cbn [insertBySize].
  destruct (se_size e <? se_size x); [|done].
  rewrite IH. apply Permutation_swap.
Qed.

Lemma sortBySize_Permutation entries : sortBySize entries ≡ₚ entries.
Proof.
  induction entries as [|e rest IH]; [done|].
  unfold sortBySize in *. cbn [foldr]. by rewrite insertBySize_Permutation, IH.
Qed.

Lemma foldl_delete_fmap {A} (f : A → string) JSON_parse (l : list A)
    (acc : gmap string string) :
  foldl (λ acc x, deleteFromStorage JSON_parse (f x) acc) acc l
  = foldl (λ acc path, deleteFromStorage JSON_parse path acc) acc (f <$> l).
Proof. revert acc. induction l as [|x l IH]; intros acc; [done|]. cbn. apply IH. Qed.

Section StatsFacts.

Variable JSON_parse : string → option storedDoc.
Variable Math_round_div : Z → Z → Z.

Lemma statsVisit_total stats kv :
  st_total (statsVisit JSON_parse stats kv) = st_total stats + 1.
Proof.
  unfold statsVisit.
  by destruct (JS.startsWith "STORAGE_" kv.1), (JS.includes "_CHUNK_" kv.1),
    (JS.endsWith "_META" kv.1).
Qed.

Lemma statsVisit_sum stats kv :
  let stats' := statsVisit JSON_parse stats kv in
  st_storage stats' + st_chunks stats' + st_metadata stats' + st_other stats'
  = st_storage stats + st_chunks stats + st_metadata stats + st_other stats + 1.
Proof.
  unfold statsVisit.
  destruct (JS.startsWith "STORAGE_" kv.1), (JS.includes "_CHUNK_" kv.1),
    (JS.endsWith "_META" kv.1);
    cbn [st_storage st_chunks st_metadata st_other]; lia.
Qed.

Lemma statsVisit_storage stats kv :
  st_storage (statsVisit JSON_parse stats kv)
  = st_storage stats + (if isEntryKey kv.1 then 1 else 0).
Proof.
  unfold statsVisit, isEntryKey.
  destruct (JS.startsWith "STORAGE_" kv.1), (JS.includes "_CHUNK_" kv.1),
    (JS.endsWith "_META" kv.1);
    cbn [st_storage andb negb]; lia.
Qed.

Lemma statsVisit_entries stats kv :
  st_entries (statsVisit JSON_parse stats kv)
  = st_entries stats
    ++ (if isEntryKey kv.1 then
          match JSON_parse kv.2 with
          | Some data => [statsEntryOf kv.1 kv.2 data]
          | None => []
          end
        else []).
Proof.
  unfold statsVisit, isEntryKey.
  destruct (JS.startsWith "STORAGE_" kv.1), (JS.includes "_CHUNK_" kv.1),
    (JS.endsWith "_META" kv.1);
    cbn [st_entries andb negb]; rewrite ?app_nil_r; try done.
  by destruct (JSON_parse kv.2); rewrite ?app_nil_r.
Qed.

Lemma statsFold_total stats l :
  st_total (foldl (statsVisit JSON_parse) stats l)
  = st_total stats + Z.of_nat (List.length l).
Proof.
  revert stats. induction l as [|kv l IH]; intros stats; [cbn; lia|].
  cbn [foldl List.length]. rewrite IH, statsVisit_total. lia.
Qed.

Lemma statsFold_sum stats l :
  let stats' := foldl (statsVisit JSON_parse) stats l in
  st_storage stats' + st_chunks stats' + st_metadata stats' + st_other stats'
  = st_storage stats + st_chunks stats + st_metadata stats + st_other stats
    + Z.of_nat (List.length l).
Proof.
  revert stats. induction l as [|kv l IH]; intros stats; [cbn; lia|].
  cbn [foldl List.length]. cbn zeta in *. rewrite IH.
  pose proof (statsVisit_sum stats kv) as H. cbn zeta in H. lia.
Qed.

Lemma statsFold_storage stats l :
  st_storage (foldl (statsVisit JSON_parse) stats l)
  = st_storage stats
    + Z.of_nat (List.length (filter (λ key, isEntryKey key = true) l.*1)).
Proof.
  revert stats. induction l as [|kv l IH]; intros stats; [cbn; lia|].
  cbn [foldl fmap list_fmap]. rewrite IH, statsVisit_storage, filter_cons.
  destruct (isEntryKey kv.1) eqn:Hk.
  - rewrite decide_True by done. cbn [List.length]. lia.
  - rewrite decide_False by done. lia.
Qed.

Lemma statsFold_entries_length stats l :
  Z.of_nat (List.length (st_entries (foldl (statsVisit JSON_parse) stats l)))
  - st_storage (foldl (statsVisit JSON_parse) stats l)
  ≤ Z.of_nat (List.length (st_entries stats)) - st_storage stats.
Proof.
  revert stats. induction l as [|kv l IH]; intros stats; [cbn; lia|].
  cbn [foldl]. etrans; [apply IH|].
  rewrite statsVisit_entries, statsVisit_storage, length_app.
  destruct (isEntryKey kv.1); [destruct (JSON_parse kv.2)|]; cbn [List.length]; lia.
Qed.

Lemma statsFold_entries stats l e :
  e ∈ st_entries (foldl (statsVisit JSON_parse) stats l)
  ↔ e ∈ st_entries stats
    ∨ ∃ key value data, (key, value) ∈ l ∧ isEntryKey key = true
        ∧ JSON_parse value = Some data ∧ e = statsEntryOf key value data.
Proof.
  revert stats. induction l as [|[k v] l IH]; intros stats.
  - cbn [foldl]. split; [by left|]. intros [H|(key & value & data & H & _)]; [done|].
    by apply elem_of_nil in H.
  - cbn [foldl]. rewrite IH, statsVisit_entries, elem_of_app. cbn [fst snd]. split.
    + intros [[H|H]|(key & value & data & H & Hrest)].
      * by left.
      * right. destruct (isEntryKey k) eqn:Hk; [|by apply elem_of_nil in H].
        destruct (JSON_parse v) as [data|] eqn:Hv; [|by apply elem_of_nil in H].
        apply list_elem_of_singleton in H as ->. exists k, v, data.
        split; [by left|done].
      * right. exists key, value, data. split; [by right|done].
    + intros [H|(key & value & data & H & Hk & Hv & ->)]; [left; by left|].
      apply elem_of_cons in H as [[= -> ->]|H].
      * left. right. rewrite Hk, Hv. by apply list_elem_of_singleton.
      * right. by exists key, value, data.
Qed.

(** X11. The counters of [getStorageStats]: [total] is the number of
    properties of the store, the four kinds ([storage], [chunks],
    [metadata], [other]) add up to it, and [entries] never lists more than
    [storage] entries. *)
Theorem getStorageStats_counters_add_up (props : gmap string string) :
  st_total (getStorageStats JSON_parse Math_round_div props) = Z.of_nat (size props)
  ∧ st_storage (getStorageStats JSON_parse Math_round_div props)
    + st_chunks (getStorageStats JSON_parse Math_round_div props)
    + st_metadata (getStorageStats JSON_parse Math_round_div props)
    + st_other (getStorageStats JSON_parse Math_round_div props)
    = st_total (getStorageStats JSON_parse Math_round_div props)
  ∧ Z.of_nat (List.length (st_entries (getStorageStats JSON_parse Math_round_div props)))
    ≤ st_storage (getStorageStats JSON_parse Math_round_div props).
Proof.
  unfold getStorageStats.
  cbn [st_total st_storage st_chunks st_metadata st_other st_entries].
  pose proof (statsFold_total emptyStats (map_to_list props)) as Ht.
  pose proof (statsFold_sum emptyStats (map_to_list props)) as Hs.
  pose proof (statsFold_entries_length emptyStats (map_to_list props)) as He.
  cbn zeta in Hs. cbn [emptyStats st_total st_storage st_chunks st_metadata st_other
                       st_entries List.length] in Ht, Hs, He.
  rewrite length_map_to_list in Ht, Hs.
  rewrite (Permutation_length (sortBySize_Permutation _)).
  repeat split; lia.
Qed.

(** X12. The [storage] counter of [getStorageStats] is the quantity the
    automatic clean-up compares with [maxEntries]: the clean-up runs
    exactly when the statistics report more than 50 single-slot
    entries. *)
Theorem autoCleanup_runs_above_storage_count Date_parse now (props : gmap string string) :
  autoCleanupIfNeeded JSON_parse Date_parse now props
  = if maxEntries STORAGE_CONFIG
       <? st_storage (getStorageStats JSON_parse Math_round_div props)
    then cleanupOldStorageEntries JSON_parse Date_parse now (maxAge STORAGE_CONFIG) props
    else props.
Proof.
  unfold autoCleanupIfNeeded, getStorageStats. cbn [st_storage].
  rewrite statsFold_storage. cbn [emptyStats st_storage]. by rewrite Z.add_0_l.
Qed.

Lemma load_None_of_deleted path (props props' : gmap string string) :
  props' ⊆ deleteFromStorage JSON_parse path props →
  loadFromStorage JSON_parse path props' = None.
Proof.
  intros Hsub.
  assert (props' !! storageKey path = None) as Hs.
  { eapply lookup_weaken_None; [apply deleteFromStorage_lookup_storageKey|exact Hsub]. }
  destruct (props' !! metaKey path) as [v|] eqn:Hm;
    [|by apply loadFromStorage_absent].
  pose proof (lookup_weaken _ _ _ _ Hm Hsub) as Hv.
  revert Hv. unfold deleteFromStorage.
  destruct (delete (storageKey path) props !! metaKey path) as [metaData|] eqn:Hmeta.
  - destruct (JS.truthy metaData) eqn:Htruthy.
    + destruct (JSON_parse metaData) as [[c [md|]]|] eqn:Hparse.
      * by rewrite lookup_delete_eq.
      * rewrite Hmeta. intros [= ->]. unfold loadFromStorage.
        by rewrite Hs, Hm, Htruthy, Hparse.
      * rewrite Hmeta. intros [= ->]. unfold loadFromStorage.
        by rewrite Hs, Hm, Htruthy, Hparse.
    + rewrite Hmeta. intros [= ->]. unfold loadFromStorage. by rewrite Hs, Hm, Htruthy.
  - by rewrite Hmeta.
Qed.

Lemma deleteAll_load_None paths (acc : gmap string string) path :
  path ∈ paths →
  loadFromStorage JSON_parse path
    (foldl (λ acc path, deleteFromStorage JSON_parse path acc) acc paths) = None.
Proof.
  revert acc. induction paths as [|p rest IH]; intros acc Hin; [by apply elem_of_nil in Hin|].
  cbn [foldl]. apply elem_of_cons in Hin as [->|Hin]; [|by apply IH].
  eapply load_None_of_deleted, deleteAll_subseteq.
Qed.

(** X13. After [cleanCompletedPageData(pageId)] the status control of the
    page is gone: [loadStatusControl(pageId)] returns null, whatever the
    store held. *)
Theorem cleanCompletedPageData_removes_status_control pageId (props : gmap string string) :
  loadStatusControl JSON_parse pageId
    (cleanCompletedPageData JSON_parse Math_round_div pageId props).2 = None.
Proof.
  unfold loadStatusControl, cleanCompletedPageData. cbn [snd].
  eapply load_None_of_deleted. rewrite foldl_delete_fmap. apply deleteAll_subseteq.
Qed.

(** X14. [cleanCompletedPageData(pageId)] removes every single-slot entry
    whose text parses and whose path contains [/pageId/] or ends with
    [/pageId]: loading that path afterwards returns null. *)
Theorem cleanCompletedPageData_removes_page_entries pageId (props : gmap string string)
    path value data :
  props !! storageKey path = Some value →
  isEntryKey (storageKey path) = true →
  JSON_parse value = Some data →
  JS.includes ("/" +:+ pageId +:+ "/") path || JS.endsWith ("/" +:+ pageId) path = true →
  loadFromStorage JSON_parse path
    (cleanCompletedPageData JSON_parse Math_round_div pageId props).2 = None.
Proof.
  intros Hkey Hentry Hparse Hpage. unfold cleanCompletedPageData. cbn [snd].
  set (props1 := deleteFromStorage JSON_parse (statusControlPath pageId) props).
  rewrite foldl_delete_fmap.
  destruct (decide (storageKey path = storageKey (statusControlPath pageId))) as [Heq|Hne].
  - apply (inj (String.app "STORAGE_")) in Heq. subst path.
    eapply load_None_of_deleted, deleteAll_subseteq.
  - apply deleteAll_load_None.
    assert (props1 !! storageKey path = Some value) as Hkey1.
    { unfold props1. rewrite deleteFromStorage_lookup_other; [done|].
      intros Hderived. by apply Hne, derivedKey_entry. }
    apply list_elem_of_fmap. exists (statsEntryOf (storageKey path) value data).
    assert (se_path (statsEntryOf (storageKey path) value data) = path) as Hpath
      by (unfold statsEntryOf; by destruct (doc_metadata data)).
    split; [done|].
    apply list_elem_of_filter. split; [unfold isPageEntry; by rewrite Hpath|].
    unfold getStorageStats. cbn [st_entries]. rewrite sortBySize_Permutation.
    apply statsFold_entries. right. exists (storageKey path), value, data.
    split; [by apply elem_of_map_to_list|done].
Qed.

(** X15. [cleanCompletedPageData] finds the files of a page through the
    single-slot entries of the statistics only. In a store that holds no
    single-slot entry it deletes the status control and nothing else, so
    that a raw or processed file of the page that was saved in chunks is
    still there afterwards. *)
Theorem cleanCompletedPageData_leaves_chunked_files pageId (props : gmap string string) :
  (∀ key, isEntryKey key = true → props !! key = None) →
  cleanCompletedPageData JSON_parse Math_round_div pageId props
  = (1, deleteFromStorage JSON_parse (statusControlPath pageId) props)
  ∧ ∀ itemId contentType,
      loadRawFile JSON_parse pageId itemId contentType
        (cleanCompletedPageData JSON_parse Math_round_div pageId props).2
      = loadRawFile JSON_parse pageId itemId contentType props
      ∧ loadProcessedFile JSON_parse pageId itemId contentType
          (cleanCompletedPageData JSON_parse Math_round_div pageId props).2
        = loadProcessedFile JSON_parse pageId itemId contentType props.
Proof.
  intros Hnone.
  set (props1 := deleteFromStorage JSON_parse (statusControlPath pageId) props).
  assert (st_entries (getStorageStats JSON_parse Math_round_div props1) = []) as Hentries.
  { apply elem_of_nil_inv. intros e He. unfold getStorageStats in He.
    cbn [st_entries] in He. rewrite sortBySize_Permutation in He.
    apply statsFold_entries in He as [He|(key & value & data & Hin & Hk & _)];
      [by apply elem_of_nil in He|].
    apply elem_of_map_to_list in Hin.
    pose proof (lookup_weaken _ _ _ _ Hin (deleteFromStorage_subseteq _ _ _)) as Hp.
    by rewrite (Hnone key Hk) in Hp. }
  assert (cleanCompletedPageData JSON_parse Math_round_div pageId props = (1, props1))
    as Hclean.
  { unfold cleanCompletedPageData. fold props1. by rewrite Hentries. }
  split; [done|]. intros itemId contentType. rewrite Hclean. cbn [snd].
  unfold loadRawFile, loadProcessedFile, props1.
  split; apply loadFromStorage_ext; intros key Hkey;
    apply deleteFromStorage_lookup_other; intros Hkey';
    (eapply derivedKey_head in Hkey; [|reflexivity]);
    (eapply derivedKey_head in Hkey'; [|reflexivity]); congruence.
Qed.

End StatsFacts.

Lemma cleanCompletedPageData_removes_page_entries_witness :
  loadRawFile Codec.parse "p" "i" "text"
    (cleanCompletedPageData Codec.parse roundedQuotient "p" singleRawStore).2 = None.
Proof.
  apply (cleanCompletedPageData_removes_page_entries Codec.parse roundedQuotient "p"
           singleRawStore (rawFilePath "p" "i" "text")
           (Codec.stringify (propertyDataOf noon "abc" []))
           (propertyDataOf noon "abc" [])).
  - reflexivity.
  - reflexivity.
  - apply codec_parse_stringify.
  - reflexivity.
Defined.

Lemma chunkedRawStore_no_entry key :
  isEntryKey key = true → chunkedRawStore !! key = None.
Proof.
  intros Hk. apply eq_None_not_Some. intros [v Hv]. unfold chunkedRawStore in Hv.
  apply lookup_insert_Some in Hv as [[<- _]|[_ Hv]];
    [by rewrite isEntryKey_chunkKey in Hk|].
  apply lookup_singleton_Some in Hv as [<- _]. by rewrite isEntryKey_metaKey in Hk.
Qed.

Lemma cleanCompletedPageData_leaves_chunked_files_witness :
  cleanCompletedPageData Codec.parse roundedQuotient "p" chunkedRawStore
  = (1, deleteFromStorage Codec.parse (statusControlPath "p") chunkedRawStore)
  ∧ ld_content
      <$> loadRawFile Codec.parse "p" "i" "text"
            (cleanCompletedPageData Codec.parse roundedQuotient "p" chunkedRawStore).2
    = Some (Some "abc").
Proof.
  destruct (cleanCompletedPageData_leaves_chunked_files Codec.parse roundedQuotient "p"
              chunkedRawStore chunkedRawStore_no_entry) as [Hclean Hload].
  split; [exact Hclean|].
  destruct (Hload "i" "text") as [-> _]. vm_compute. reflexivity.
Defined.

(** ** More on the completion tracker *)

Lemma rev_involutive s : String.rev (String.rev s) = s.
Proof.
  induction s as [|c s IH]; [done|].
  unfold String.rev at 2. cbn [String.rev_app].
  rewrite rev_app_spec, rev_app_distr, IH. reflexivity.
Qed.

Lemma app_inj_r a b s : a +:+ s = b +:+ s → a = b.
Proof.
  intros H. apply (f_equal String.rev) in H. rewrite !rev_app_distr in H.
  apply (inj (String.app (String.rev s))) in H.
  apply (f_equal String.rev) in H. by rewrite !rev_involutive in H.
Qed.

Lemma statusFileName_inj p q : statusFileName p = statusFileName q → p = q.
Proof.
  unfold statusFileName. intros H. apply (inj (String.app "page_status_")) in H.
  by apply app_inj_r in H.
Qed.

(** What a call of [updateItemStatusInControl] that does not return null
    has done: the tracking it saved differs from the one it loaded in at
    most one item record and in the two counters, which move when the
    status is 'completed' and the previous status was not. *)
Lemma updateItemStatusInControl_Some now pageId itemId contentType taskId status
    processedFile (drive : folder) sc u drive' :
  drive !! statusFileName pageId = Some sc →
  updateItemStatusInControl now pageId itemId contentType taskId status processedFile drive
  = (Some u, drive') →
  ∃ notCompletedBefore : bool,
    totalItems (trackingOf u) = totalItems (sc_tracking sc)
    ∧ (completedItems (trackingOf u), pendingItems (trackingOf u))
      = (if bool_decide (status = "completed") && notCompletedBefore
         then (completedItems (sc_tracking sc) + 1, pendingItems (sc_tracking sc) - 1)
         else (completedItems (sc_tracking sc), pendingItems (sc_tracking sc)))
    ∧ ur_allCompleted u
      = bool_decide (completedItems (trackingOf u) = totalItems (trackingOf u))
    ∧ drive' = <[statusFileName pageId := sv_statusControl (ur_saved u)]> drive.
Proof.
  intros Hsc. unfold updateItemStatusInControl, loadPageStatusControl. rewrite Hsc.
  destruct (bool_decide (contentType = "main_page")
            && bool_decide (it_itemId (mainPage (sc_tracking sc)) = itemId)).
  - unfold savePageStatusControl. intros [= <- <-].
    exists (negb (bool_decide (it_status (mainPage (sc_tracking sc)) = "completed"))).
    unfold trackingOf, bumpCounters.
    cbn [ur_saved sv_statusControl set_lastUpdated set_tracking sc_tracking totalItems
         completedItems pendingItems ur_allCompleted].
    by destruct (_ && _).
  - destruct (bool_decide (contentType = "sub_block")); [|done].
    destruct (subBlocks (sc_tracking sc) !! itemId) as [sb|].
    + unfold savePageStatusControl. intros [= <- <-].
      exists (negb (bool_decide (it_status (sb_item sb) = "completed"))).
      unfold trackingOf, bumpCounters.
      cbn [ur_saved sv_statusControl set_lastUpdated set_tracking sc_tracking totalItems
           completedItems pendingItems ur_allCompleted].
      by destruct (_ && _).
    + destruct (inheritedMember itemId); [|done].
      unfold savePageStatusControl. intros [= <- <-].
      exists true. rewrite andb_true_r. unfold trackingOf.
      cbn [ur_saved sv_statusControl set_lastUpdated set_tracking sc_tracking totalItems
           completedItems pendingItems ur_allCompleted].
      by destruct (bool_decide (status = "completed")).
Qed.

Lemma updateItemStatusInControl_None now pageId itemId contentType taskId status
    processedFile (drive : folder) drive' :
  updateItemStatusInControl now pageId itemId contentType taskId status processedFile drive
  = (None, drive') →
  drive' = drive.
Proof.
  unfold updateItemStatusInControl.
  destruct (loadPageStatusControl pageId drive) as [sc|]; [|by intros [= <-]].
  destruct (bool_decide (contentType = "main_page")
            && bool_decide (it_itemId (mainPage (sc_tracking sc)) = itemId)); [done|].
  destruct (bool_decide (contentType = "sub_block")); [|by intros [= <-]].
  destruct (subBlocks (sc_tracking sc) !! itemId) as [sb|]; [done|].
  destruct (inheritedMember itemId); [done|by intros [= <-]].
Qed.

(** X16. The counters of a manifest only move forward. A status update of
    any kind keeps [totalItems] and the sum of [completedItems] and
    [pendingItems]; [completedItems] grows by at most one and never
    shrinks, and a status other than 'completed' leaves both counters as
    they were, also on an item that was counted as completed before. *)
Theorem update_moves_counters_forward now pageId itemId contentType taskId status
    processedFile (drive : folder) sc u drive' :
  drive !! statusFileName pageId = Some sc →
  updateItemStatusInControl now pageId itemId contentType taskId status processedFile drive
  = (Some u, drive') →
  totalItems (trackingOf u) = totalItems (sc_tracking sc)
  ∧ completedItems (trackingOf u) + pendingItems (trackingOf u)
    = completedItems (sc_tracking sc) + pendingItems (sc_tracking sc)
  ∧ completedItems (sc_tracking sc) ≤ completedItems (trackingOf u)
    ≤ completedItems (sc_tracking sc) + 1
  ∧ (status ≠ "completed" →
     completedItems (trackingOf u) = completedItems (sc_tracking sc)
     ∧ pendingItems (trackingOf u) = pendingItems (sc_tracking sc)).
Proof.
  intros Hsc Hup.
  destruct (updateItemStatusInControl_Some _ _ _ _ _ _ _ _ _ _ _ Hsc Hup)
    as (previousStatus & Htotal & Hcounters & _).
  split; [done|]. revert Hcounters.
  destruct (bool_decide (status = "completed")) eqn:Hstatus; cbn [andb].
  - apply bool_decide_eq_true in Hstatus.
    destruct previousStatus; intros [= -> ->]; repeat split; try lia; done.
  - intros [= -> ->]. repeat split; lia.
Qed.

(** X17. A status update changes the manifest of its own page and no
    other file of the folder, and it changes nothing at all when it
    returns null. *)
Theorem update_touches_only_its_manifest now pageId itemId contentType taskId status
    processedFile (drive : folder) r drive' otherPage :
  updateItemStatusInControl now pageId itemId contentType taskId status processedFile drive
  = (r, drive') →
  otherPage ≠ pageId ∨ r = None →
  loadPageStatusControl otherPage drive' = loadPageStatusControl otherPage drive.
Proof.
  intros Hup Hother. destruct r as [u|].
  - destruct Hother as [Hne|]; [|done]. unfold loadPageStatusControl.
    destruct (drive !! statusFileName pageId) as [sc|] eqn:Hsc.
    + destruct (updateItemStatusInControl_Some _ _ _ _ _ _ _ _ _ _ _ Hsc Hup)
        as (_ & _ & _ & _ & ->).
      apply lookup_insert_ne. intros H%statusFileName_inj. by apply Hne.
    + unfold updateItemStatusInControl, loadPageStatusControl in Hup.
      by rewrite Hsc in Hup.
  - by rewrite (updateItemStatusInControl_None _ _ _ _ _ _ _ _ _ Hup).
Qed.

(** X18. [checkPageCompletionStatus] called after a status update reads
    back what the update saved: the manifest exists, it is the one the
    update returned, and [completed] is the [allCompleted] flag of the
    update. *)
Theorem check_after_update_agrees now pageId itemId contentType taskId status
    processedFile (drive : folder) u drive' :
  updateItemStatusInControl now pageId itemId contentType taskId status processedFile drive
  = (Some u, drive') →
  cs_exists (checkPageCompletionStatus pageId drive') = true
  ∧ cs_completed (checkPageCompletionStatus pageId drive') = ur_allCompleted u
  ∧ cs_statusControl (checkPageCompletionStatus pageId drive')
    = Some (sv_statusControl (ur_saved u))
  ∧ cs_completedItems (checkPageCompletionStatus pageId drive')
    = Some (completedItems (trackingOf u)).
Proof.
  intros Hup.
  destruct (drive !! statusFileName pageId) as [sc|] eqn:Hsc.
  - destruct (updateItemStatusInControl_Some _ _ _ _ _ _ _ _ _ _ _ Hsc Hup)
      as (_ & _ & _ & Hall & ->).
    unfold checkPageCompletionStatus, loadPageStatusControl.
    rewrite lookup_insert_eq. cbn [cs_exists cs_completed cs_statusControl cs_completedItems].
    by rewrite Hall.
  - unfold updateItemStatusInControl, loadPageStatusControl in Hup.
    by rewrite Hsc in Hup.
Qed.

(** X28. An item id that is the name of a member of [Object.prototype]
    is counted although the manifest does not track it. On a consistent
    manifest without that key, a 'sub_block' update to 'completed' with
    such an id does not return null: it saves a manifest whose item
    records are all as before and whose [completedItems] is one more than
    the number of completed items, and it reports [allCompleted] exactly
    when one tracked item is still not completed. *)
Theorem update_counts_inherited_member now pageId itemId taskId processedFile
    (drive : folder) sc :
  drive !! statusFileName pageId = Some sc →
  consistent (sc_tracking sc) →
  inheritedMember itemId = true →
  subBlocks (sc_tracking sc) !! itemId = None →
  ∃ u drive',
    updateItemStatusInControl now pageId itemId "sub_block" taskId "completed"
      processedFile drive = (Some u, drive')
    ∧ drive' !! statusFileName pageId = Some (sv_statusControl (ur_saved u))
    ∧ mainPage (trackingOf u) = mainPage (sc_tracking sc)
    ∧ subBlocks (trackingOf u) = subBlocks (sc_tracking sc)
    ∧ completedItems (trackingOf u) = completedCount (trackingOf u) + 1
    ∧ (ur_allCompleted u = true
       ↔ completedCount (trackingOf u) + 1 = itemCount (trackingOf u)).
Proof.
  intros Hsc [Hcompleted Htotal] Hinherited Hkey.
  unfold updateItemStatusInControl, loadPageStatusControl. rewrite Hsc.
  rewrite (bool_decide_eq_false_2 ("sub_block" = "main_page")) by done.
  rewrite (bool_decide_eq_true_2 ("sub_block" = "sub_block")) by done.
  cbn [andb]. rewrite Hkey, Hinherited.
  rewrite (bool_decide_eq_true_2 ("completed" = "completed")) by done.
  unfold savePageStatusControl. eexists _, _. split; [reflexivity|].
  unfold trackingOf, completedCount, itemCount in *.
  cbn [ur_saved sv_statusControl set_lastUpdated set_tracking sc_tracking mainPage
       subBlocks totalItems completedItems ur_allCompleted fst snd].
  split; [by rewrite lookup_insert_eq|]. split; [done|]. split; [done|].
  split; [lia|]. rewrite bool_decide_eq_true. lia.
Qed.

(** *** The index of a document *)

Lemma addSubBlocks_pageId calls doc : ds_pageId (addSubBlocks calls doc) = ds_pageId doc.
Proof.
  revert doc. induction calls as [|c calls IH]; intros doc; [done|].
  unfold addSubBlocks in *. cbn [foldl]. by rewrite IH.
Qed.

Lemma addSubBlocks_index calls doc :
  ix_totalItems (ds_index doc) = 1 + Z.of_nat (List.length (ix_subBlocks (ds_index doc))) →
  ix_id <$> ix_subBlocks (ds_index doc)
  = (λ k : nat, ds_pageId doc +:+ "_sub_" +:+ pretty (Z.of_nat k))
      <$> seq 1 (List.length (ix_subBlocks (ds_index doc))) →
  let doc' := addSubBlocks calls doc in
  ix_totalItems (ds_index doc')
  = 1 + Z.of_nat (List.length (ix_subBlocks (ds_index doc)) + List.length calls)
  ∧ List.length (ix_subBlocks (ds_index doc'))
    = (List.length (ix_subBlocks (ds_index doc)) + List.length calls)%nat
  ∧ ix_id <$> ix_subBlocks (ds_index doc')
    = (λ k : nat, ds_pageId doc +:+ "_sub_" +:+ pretty (Z.of_nat k))
        <$> seq 1 (List.length (ix_subBlocks (ds_index doc)) + List.length calls).
Proof.
  revert doc. induction calls as [|c calls IH]; intros doc Htotal Hids.
  - cbn zeta. unfold addSubBlocks. cbn [foldl List.length]. by rewrite Nat.add_0_r.
  - cbn zeta. unfold addSubBlocks. cbn [foldl].
    set (doc1 := (addSubBlock (sbc_url c) (sbc_type c) (sbc_title c) doc).2).
    specialize (IH doc1). cbn zeta in IH. unfold addSubBlocks in IH.
    assert (List.length (ix_subBlocks (ds_index doc1))
            = S (List.length (ix_subBlocks (ds_index doc)))) as Hlen.
    { unfold doc1, addSubBlock. cbn [snd ds_index ix_subBlocks].
      rewrite length_app. cbn [List.length]. lia. }
    assert (ds_pageId doc1 = ds_pageId doc) as Hpage by done.
    rewrite Hlen, Hpage in IH. cbn [List.length].
    replace (List.length (ix_subBlocks (ds_index doc)) + S (List.length calls))%nat
      with (S (List.length (ix_subBlocks (ds_index doc))) + List.length calls)%nat by lia.
    apply IH.
    + unfold doc1, addSubBlock. cbn [snd ds_index ix_totalItems]. lia.
    + unfold doc1, addSubBlock. cbn [snd ds_index ix_subBlocks ds_pageId].
      rewrite fmap_app, Hids. cbn [fmap list_fmap ix_id].
      rewrite seq_S, fmap_app. cbn [fmap list_fmap]. do 4 f_equal.
      rewrite Htotal. f_equal. lia.
Qed.

(** X19. The index that the constructor of [DocumentStructure] and any
    run of [addSubBlock] calls build has distinct item ids and a
    [totalItems] that counts the main page and the sub-blocks, so the
    manifest [initializePageStatusControl] makes from it is consistent:
    its counters agree with its item records, nothing is completed yet,
    and [checkPageCompletionStatus] reports the page as not completed. *)
Theorem manifest_of_document_index_is_consistent now pageId pageTitle calls
    (drive : folder) :
  consistent
    (sc_tracking
       (sv_statusControl
          (initializePageStatusControl now pageId
             (ds_index (addSubBlocks calls (newDocumentStructure pageId pageTitle)))
             drive).1))
  ∧ cs_totalItems
      (checkPageCompletionStatus pageId
         (initializePageStatusControl now pageId
            (ds_index (addSubBlocks calls (newDocumentStructure pageId pageTitle)))
            drive).2)
    = Some (1 + Z.of_nat (List.length calls))
  ∧ cs_completed
      (checkPageCompletionStatus pageId
         (initializePageStatusControl now pageId
            (ds_index (addSubBlocks calls (newDocumentStructure pageId pageTitle)))
            drive).2)
    = false.
Proof.
  destruct (addSubBlocks_index calls (newDocumentStructure pageId pageTitle))
    as (Htotal & Hlen & Hids); [done..|].
  cbn [newDocumentStructure ds_index ix_subBlocks List.length Nat.add ds_pageId] in *.
  set (index := ds_index (addSubBlocks calls (newDocumentStructure pageId pageTitle))) in *.
  split; [|split].
  - apply initializePageStatusControl_consistent; [rewrite Htotal, Hlen; lia|].
    rewrite Hids. apply NoDup_fmap_2; [|apply NoDup_seq].
    intros i j H. apply (inj (String.app pageId)) in H.
    apply (inj (String.app "_sub_")) in H. apply (inj pretty) in H. lia.
  - unfold checkPageCompletionStatus, loadPageStatusControl, initializePageStatusControl,
      savePageStatusControl. cbn [snd]. rewrite lookup_insert_eq.
    cbn [cs_totalItems set_lastUpdated sc_tracking totalItems]. by rewrite Htotal.
  - unfold checkPageCompletionStatus, loadPageStatusControl, initializePageStatusControl,
      savePageStatusControl. cbn [snd]. rewrite lookup_insert_eq.
    cbn [cs_completed set_lastUpdated sc_tracking totalItems completedItems].
    apply bool_decide_eq_false. rewrite Htotal. lia.
Qed.

Lemma update_moves_counters_forward_witness :
  ∃ u drive',
    updateItemStatusInControl "t1" "p1" "p1_main" "main_page" "task-1" "error" None
      sampleFolder = (Some u, drive')
    ∧ totalItems (trackingOf u) = totalItems (sc_tracking sampleManifest)
    ∧ completedItems (trackingOf u) + pendingItems (trackingOf u)
      = completedItems (sc_tracking sampleManifest)
        + pendingItems (sc_tracking sampleManifest)
    ∧ completedItems (sc_tracking sampleManifest) ≤ completedItems (trackingOf u)
      ≤ completedItems (sc_tracking sampleManifest) + 1
    ∧ ("error" ≠ "completed" →
       completedItems (trackingOf u) = completedItems (sc_tracking sampleManifest)
       ∧ pendingItems (trackingOf u) = pendingItems (sc_tracking sampleManifest)).
Proof.
  destruct (updateItemStatusInControl "t1" "p1" "p1_main" "main_page" "task-1" "error" None
              sampleFolder) as [[u|] drive'] eqn:E.
  - exists u, drive'. split; [reflexivity|].
    exact (update_moves_counters_forward _ _ _ _ _ _ _ _ _ _ _ sampleFolder_lookup E).
  - apply (f_equal (λ r, bool_decide (is_Some r.1))) in E. vm_compute in E. discriminate E.
Defined.

Lemma update_touches_only_its_manifest_witness :
  ∃ r drive',
    updateItemStatusInControl "t1" "p1" "p1_main" "main_page" "task-1" "completed" None
      sampleFolder = (r, drive')
    ∧ loadPageStatusControl "p2" drive' = loadPageStatusControl "p2" sampleFolder.
Proof.
  destruct (updateItemStatusInControl "t1" "p1" "p1_main" "main_page" "task-1" "completed"
              None sampleFolder) as [r drive'] eqn:E.
  exists r, drive'. split; [reflexivity|].
  apply (update_touches_only_its_manifest _ _ _ _ _ _ _ _ _ _ "p2" E).
  left. discriminate.
Defined.

Lemma update_counts_inherited_member_witness :
  ∃ u drive',
    updateItemStatusInControl "t1" "p1" "constructor" "sub_block" "task-7" "completed"
      None sampleFolder = (Some u, drive')
    ∧ drive' !! statusFileName "p1" = Some (sv_statusControl (ur_saved u))
    ∧ mainPage (trackingOf u) = mainPage (sc_tracking sampleManifest)
    ∧ subBlocks (trackingOf u) = subBlocks (sc_tracking sampleManifest)
    ∧ completedItems (trackingOf u) = completedCount (trackingOf u) + 1
    ∧ (ur_allCompleted u = true
       ↔ completedCount (trackingOf u) + 1 = itemCount (trackingOf u)).
Proof.
  apply (update_counts_inherited_member "t1" "p1" "constructor" "task-7" None
           sampleFolder sampleManifest sampleFolder_lookup sampleManifest_consistent);
    reflexivity.
Defined.

Lemma check_after_update_agrees_witness :
  ∃ u drive',
    updateItemStatusInControl "t1" "p1" "p1_main" "main_page" "task-1" "completed" None
      sampleFolder = (Some u, drive')
    ∧ cs_exists (checkPageCompletionStatus "p1" drive') = true
    ∧ cs_completed (checkPageCompletionStatus "p1" drive') = ur_allCompleted u
    ∧ cs_statusControl (checkPageCompletionStatus "p1" drive')
      = Some (sv_statusControl (ur_saved u))
    ∧ cs_completedItems (checkPageCompletionStatus "p1" drive')
      = Some (completedItems (trackingOf u)).
Proof.
  destruct (updateItemStatusInControl "t1" "p1" "p1_main" "main_page" "task-1" "completed"
              None sampleFolder) as [[u|] drive'] eqn:E.
  - exists u, drive'. split; [reflexivity|].
    exact (check_after_update_agrees _ _ _ _ _ _ _ _ _ _ E).
  - apply (f_equal (λ r, bool_decide (is_Some r.1))) in E. vm_compute in E. discriminate E.
Defined.

(** ** Chunk results across callbacks *)

Lemma chunkId_inj pageId i j : chunkId pageId i = chunkId pageId j → i = j.
Proof.
  unfold chunkId. intros H. apply (inj (String.app pageId)) in H.
  apply (inj (String.app "_chunk_")) in H. by apply (inj pretty) in H.
Qed.

Lemma chunkAt_lookup chunks (i : nat) chunk :
  chunks !! i = Some chunk → chunkAt chunks (Z.of_nat i) = Some chunk.
Proof.
  intros H. unfold chunkAt. destruct (Z.ltb_spec (Z.of_nat i) 0); [lia|].
  by rewrite Nat2Z.id.
Qed.

Lemma resumeCallbacks_run pageId chunks rest :
  ∀ seen chunking,
    rest ≠ [] →
    (List.length seen + List.length rest)%nat = List.length chunks →
    cg_totalChunks chunking = Z.of_nat (List.length chunks) →
    cg_currentChunkIndex chunking = Z.of_nat (List.length seen) →
    cg_chunks chunking = chunks →
    cg_processedChunks chunking = seqZ 0 (Z.of_nat (List.length seen)) →
    (∀ (i : nat) cb, seen !! i = Some cb →
       ck_result <$> cg_chunkResults chunking !! chunkId pageId (Z.of_nat i)
       = Some (cb_result cb)) →
    ∃ chunking',
      resumeCallbacks pageId rest chunking = Some (Combine chunking')
      ∧ cg_totalChunks chunking' = Z.of_nat (List.length chunks)
      ∧ cg_processedChunks chunking' = seqZ 0 (Z.of_nat (List.length chunks))
      ∧ (∀ (i : nat) cb, (seen ++ rest) !! i = Some cb →
           ck_result <$> cg_chunkResults chunking' !! chunkId pageId (Z.of_nat i)
           = Some (cb_result cb)).
Proof.
  induction rest as [|cb rest IH]; intros seen chunking Hne Hlen Htotal Hcur Hchunks
    Hprocessed Hresults; [done|].
  cbn [List.length] in Hlen.
  destruct (lookup_lt_is_Some_2 chunks (List.length seen)) as [chunk Hchunk]; [lia|].
  assert (∀ (i : nat) cb',
            (seen ++ [cb]) !! i = Some cb' →
            ck_result
              <$> (<[chunkId pageId (Z.of_nat (List.length seen)) :=
                       {| ck_index := Z.of_nat (List.length seen);
                          ck_result := cb_result cb; ck_timestamp := cb_now cb;
                          ck_chunkLength := JS.length chunk |}]>
                     (cg_chunkResults chunking)) !! chunkId pageId (Z.of_nat i)
            = Some (cb_result cb')) as Hstored.
  { intros i cb' Hi. apply lookup_app_Some in Hi as [Hi|[Hge Hi]].
    - rewrite lookup_insert_ne; [by apply Hresults|].
      apply lookup_lt_Some in Hi. intros H%chunkId_inj. lia.
    - apply list_lookup_singleton_Some in Hi as [Hi <-].
      replace i with (List.length seen) by lia. by rewrite lookup_insert_eq. }
  cbn [resumeCallbacks]. unfold resumeAfterLLMCallback.
  rewrite Hcur, Hchunks, (chunkAt_lookup _ _ _ Hchunk), Htotal.
  destruct rest as [|cb2 rest].
  - cbn [List.length] in Hlen.
    destruct (Z.ltb_spec (Z.of_nat (List.length seen) + 1) (Z.of_nat (List.length chunks)));
      [lia|].
    eexists. split; [reflexivity|].
    cbn [cg_totalChunks cg_processedChunks cg_chunkResults].
    split; [done|]. split; [|done].
    rewrite Hprocessed. replace (List.length chunks) with (S (List.length seen)) by lia.
    by rewrite seqZ_S.
  - cbn [List.length] in Hlen.
    destruct (Z.ltb_spec (Z.of_nat (List.length seen) + 1) (Z.of_nat (List.length chunks)));
      [|lia].
    destruct (lookup_lt_is_Some_2 chunks (S (List.length seen))) as [next Hnext]; [lia|].
    replace (Z.of_nat (List.length seen) + 1) with (Z.of_nat (S (List.length seen))) by lia.
    rewrite (chunkAt_lookup _ _ _ Hnext).
    destruct (IH (seen ++ [cb])
                {| cg_totalChunks := Z.of_nat (List.length chunks);
                   cg_currentChunkIndex := Z.of_nat (S (List.length seen));
                   cg_chunks := chunks;
                   cg_processedChunks :=
                     cg_processedChunks chunking ++ [Z.of_nat (List.length seen)];
                   cg_chunkResults :=
                     <[chunkId pageId (Z.of_nat (List.length seen)) :=
                         {| ck_index := Z.of_nat (List.length seen);
                            ck_result := cb_result cb; ck_timestamp := cb_now cb;
                            ck_chunkLength := JS.length chunk |}]>
                       (cg_chunkResults chunking) |})
      as (chunking' & Hrun & Htotal' & Hprocessed' & Hresults').
    + done.
    + rewrite length_app. cbn [List.length]. lia.
    + done.
    + cbn [cg_currentChunkIndex]. rewrite length_app. cbn [List.length]. f_equal. lia.
    + done.
    + cbn [cg_processedChunks]. rewrite length_app, Hprocessed. cbn [List.length].
      replace (List.length seen + 1)%nat with (S (List.length seen)) by lia.
      by rewrite seqZ_S.
    + exact Hstored.
    + exists chunking'. split; [exact Hrun|]. split; [done|]. split; [done|].
      intros i cb' Hi. apply Hresults'. by rewrite <-app_assoc.
Qed.

(** X21. Every callback's result ends up at its own place. When the
    callbacks of a page arrive one per chunk, each but the last makes the
    workflow continue with the next chunk and the last one makes it
    combine; the chunks were processed in index order, and the summaries
    that are combined are, in index order, the header of chunk [i] followed
    by the result of callback [i] (or by the placeholder where that
    result is the empty string). *)
Theorem callbacks_fill_summaries_in_order (pageId : string) (chunks : list string)
    (callbacks : list callback) :
  chunks ≠ [] →
  List.length callbacks = List.length chunks →
  ∃ chunking,
    resumeCallbacks pageId callbacks (startChunking chunks) = Some (Combine chunking)
    ∧ cg_processedChunks chunking = seqZ 0 (Z.of_nat (List.length chunks))
    ∧ chunkSummaries pageId (chunkingOf chunking)
      = imap (λ i cb,
                "## Chunk " +:+ pretty (Z.of_nat i + 1) +:+ " of "
                  +:+ pretty (Z.of_nat (List.length chunks)) +:+ nl2
                  +:+ (if JS.truthy (cb_result cb) then cb_result cb
                       else failedPlaceholder))
             callbacks.
Proof.
  intros Hne Hlen.
  destruct (resumeCallbacks_run pageId chunks callbacks [] (startChunking chunks))
    as (chunking & Hrun & Htotal & Hprocessed & Hresults); try done.
  { intros ->. by destruct chunks. }
  exists chunking. split; [exact Hrun|]. split; [exact Hprocessed|].
  unfold chunkSummaries. rewrite collectSummaries_spec. cbn [app chunkingOf totalChunks].
  rewrite Htotal, !Nat2Z.id. apply list_eq. intros i.
  rewrite list_lookup_fmap, list_lookup_imap.
  destruct (callbacks !! i) as [cb|] eqn:Hcb.
  - pose proof (lookup_lt_Some _ _ _ Hcb) as Hi.
    rewrite lookup_seqZ_lt by lia. rewrite Z.add_0_l. cbn [fmap option_fmap option_map].
    rewrite chunkSummary_spec. cbn [totalChunks chunkingOf]. rewrite Htotal.
    unfold recordedResult. cbn [chunkResults chunkingOf]. rewrite lookup_fmap.
    specialize (Hresults i cb Hcb).
    destruct (cg_chunkResults chunking !! chunkId pageId (Z.of_nat i)) as [rec|];
      [|done].
    injection Hresults as Hrec. cbn [fmap option_fmap option_map]. rewrite Hrec.
    by destruct (JS.truthy (cb_result cb)).
  - apply lookup_ge_None_1 in Hcb. by rewrite lookup_seqZ_ge by lia.
Qed.

Lemma callbacks_fill_summaries_in_order_witness :
  ∃ chunking,
    resumeCallbacks "p1" sampleCallbacks (startChunking sampleChunks)
    = Some (Combine chunking)
    ∧ cg_processedChunks chunking = seqZ 0 (Z.of_nat (List.length sampleChunks))
    ∧ chunkSummaries "p1" (chunkingOf chunking)
      = imap (λ i cb,
                "## Chunk " +:+ pretty (Z.of_nat i + 1) +:+ " of "
                  +:+ pretty (Z.of_nat (List.length sampleChunks)) +:+ nl2
                  +:+ (if JS.truthy (cb_result cb) then cb_result cb
                       else failedPlaceholder))
             sampleCallbacks.
Proof.
  apply (callbacks_fill_summaries_in_order "p1" sampleChunks sampleCallbacks);
    [discriminate|reflexivity].
Defined.

(** ** The size of the chunks *)

Lemma substring_length_clamped s a b :
  0 ≤ a → a ≤ b → a ≤ JS.length s →
  JS.length (JS.substring s a b) = Z.min b (JS.length s) - a.
Proof.
  intros Ha Hab Hlen. unfold JS.substring, JS.length in *.
  assert (JS.clamp s a = Z.to_nat a) as -> by (unfold JS.clamp, JS.length; lia).
  assert (JS.clamp s b = Z.to_nat (Z.min b (Z.of_nat (String.length s)))) as ->
    by (unfold JS.clamp, JS.length; lia).
  rewrite Nat.max_r, Nat.min_l by lia.
  rewrite JSFacts.take_length; [lia|]. rewrite JSFacts.drop_length. lia.
Qed.

Lemma startsWith_length pat s :
  JS.startsWith pat s = true → JS.length pat ≤ JS.length s.
Proof.
  unfold JS.length. revert s. induction pat as [|c pat IH]; intros s H.
  - cbn [String.length]. lia.
  - destruct s as [|d s]; [done|]. cbn [JS.startsWith] in H.
    destruct (decide (c = d)); [|done]. apply IH in H. cbn [String.length]. lia.
Qed.

(** A match that the scan reports lies within the subject. *)
Lemma lastIndexOf_from_fits pat s i limit best :
  JS.lastIndexOf_from pat s i limit best = best
  ∨ JS.lastIndexOf_from pat s i limit best + JS.length pat ≤ i + JS.length s.
Proof.
  revert i best. induction s as [|c s IH]; intros i best; cbn [JS.lastIndexOf_from].
  - destruct (Z.ltb_spec limit i); [by left|].
    destruct (JS.startsWith pat "") eqn:Hpat; [|by left].
    right. apply startsWith_length in Hpat. lia.
  - destruct (Z.ltb_spec limit i); [by left|].
    destruct (IH (i + 1) (if JS.startsWith pat (String c s) then i else best))
      as [->|Hfits].
    + destruct (JS.startsWith pat (String c s)) eqn:Hpat; [|by left].
      right. apply startsWith_length in Hpat. lia.
    + right. revert Hfits. unfold JS.length. cbn [String.length]. lia.
Qed.

Lemma lastIndexOf_fits s pat pos :
  0 ≤ JS.lastIndexOf s pat pos → JS.lastIndexOf s pat pos + JS.length pat ≤ JS.length s.
Proof.
  unfold JS.lastIndexOf. intros Hfound.
  destruct (lastIndexOf_from_fits pat s 0 (Z.max pos 0) (-1)) as [Hbest|Hfits]; lia.
Qed.

Section ChunkSizes.

Variable above70 : Z → Z → Z → bool.

Hypothesis above70_gt :
  ∀ x currentIndex maxChunkSize,
    0 ≤ currentIndex → 0 < maxChunkSize →
    above70 x currentIndex maxChunkSize = true → currentIndex < x.

Lemma nextChunkEnd_le content maxChunkSize currentIndex :
  0 ≤ currentIndex → 0 < maxChunkSize →
  nextChunkEnd above70 content maxChunkSize currentIndex ≤ currentIndex + maxChunkSize + 1.
Proof.
  intros Hc Hm. unfold nextChunkEnd.
  destruct (Z.ltb_spec (currentIndex + maxChunkSize) (JS.length content)); [|lia].
  pose proof (JSFacts.lastIndexOf_le content paragraphMark (currentIndex + maxChunkSize)).
  pose proof (JSFacts.lastIndexOf_le content sentenceMark (currentIndex + maxChunkSize)).
  destruct (above70 (JS.lastIndexOf content paragraphMark _) _ _); [lia|].
  destruct (above70 (JS.lastIndexOf content sentenceMark _) _ _); lia.
Qed.

Lemma chunkLoop_sizes fuel content maxChunkSize currentIndex chunks out :
  0 < maxChunkSize → 0 ≤ currentIndex →
  chunkLoop above70 fuel content maxChunkSize currentIndex chunks = Some out →
  Forall (λ chunk, 0 < JS.length chunk ≤ maxChunkSize + 1) chunks →
  Forall (λ chunk, 0 < JS.length chunk ≤ maxChunkSize + 1) out.
Proof.
  intros Hm. revert currentIndex chunks.
  induction fuel as [|fuel IH]; intros cur chunks Hc Hrun Hall.
  - cbn in Hrun. destruct (cur <? JS.length content); [done|]. by injection Hrun as <-.
  - destruct (Z.lt_ge_cases cur (JS.length content)) as [Hlt|Hge].
    + rewrite (chunkLoop_step above70) in Hrun by done.
      pose proof (nextChunkEnd_gt above70 above70_gt content maxChunkSize cur Hc Hm).
      pose proof (nextChunkEnd_le content maxChunkSize cur Hc Hm).
      eapply IH; [|exact Hrun|]; [lia|].
      apply Forall_app. split; [done|]. apply Forall_singleton.
      rewrite substring_length_clamped by lia. lia.
    + rewrite (chunkLoop_done above70) in Hrun by done. by injection Hrun as <-.
Qed.

(** X22. No chunk of [chunkContent] is longer than [maxChunkSize + 1]
    characters (the extra character is the full stop kept by a cut at a
    sentence break), and no chunk of a non-empty text is empty. *)
Theorem chunkContent_chunk_sizes (content : string) (maxChunkSize : Z) chunks :
  0 < maxChunkSize →
  chunkContent above70 content maxChunkSize = Some chunks →
  Forall (λ chunk, JS.length chunk ≤ maxChunkSize + 1) chunks
  ∧ (content ≠ "" → Forall (λ chunk, 0 < JS.length chunk) chunks).
Proof.
  intros Hm. unfold chunkContent.
  destruct (Z.leb_spec (JS.length content) maxChunkSize) as [Hle|Hgt].
  - intros [= <-]. split.
    + apply Forall_singleton. lia.
    + intros Hne. apply Forall_singleton. destruct content; [done|].
      unfold JS.length. cbn [String.length]. lia.
  - intros Hrun. apply chunkLoop_sizes in Hrun; [|done|done|by apply Forall_nil].
    split; [|intros _]; eapply Forall_impl; try exact Hrun; cbn; intros; lia.
Qed.

(** A chunk that is cut short of the text ends before the end of the
    text: a break is the index of a two-character match. *)
Lemma nextChunkEnd_lt content maxChunkSize currentIndex :
  0 ≤ currentIndex → 0 < maxChunkSize →
  currentIndex + maxChunkSize < JS.length content →
  nextChunkEnd above70 content maxChunkSize currentIndex < JS.length content.
Proof.
  intros Hc Hm Hlt. unfold nextChunkEnd.
  destruct (Z.ltb_spec (currentIndex + maxChunkSize) (JS.length content)); [|lia].
  pose proof (lastIndexOf_fits content paragraphMark (currentIndex + maxChunkSize)) as Hp.
  pose proof (lastIndexOf_fits content sentenceMark (currentIndex + maxChunkSize)) as Hs.
  change (JS.length paragraphMark) with 2 in Hp.
  change (JS.length sentenceMark) with 2 in Hs.
  destruct (above70 (JS.lastIndexOf content paragraphMark _) _ _) eqn:Hpb.
  { apply above70_gt in Hpb; lia. }
  destruct (above70 (JS.lastIndexOf content sentenceMark _) _ _) eqn:Hsb; [|lia].
  apply above70_gt in Hsb; lia.
Qed.

(** The loop only pushes. *)
Lemma chunkLoop_grows fuel content maxChunkSize currentIndex chunks out :
  chunkLoop above70 fuel content maxChunkSize currentIndex chunks = Some out →
  (List.length chunks ≤ List.length out)%nat.
Proof.
  revert currentIndex chunks. induction fuel as [|fuel IH]; intros cur chunks Hrun.
  - cbn in Hrun. destruct (cur <? JS.length content); [done|]. by injection Hrun as <-.
  - destruct (Z.lt_ge_cases cur (JS.length content)) as [Hlt|Hge].
    + rewrite (chunkLoop_step above70) in Hrun by done. apply IH in Hrun.
      rewrite length_app in Hrun. cbn [List.length] in Hrun. lia.
    + rewrite (chunkLoop_done above70) in Hrun by done. by injection Hrun as <-.
Qed.

(** X3. Scenario A and its converse. For a positive [maxChunkSize],
    [chunkContent] returns the text itself as its only chunk when the text
    is no longer than [maxChunkSize], and at least two chunks when it is
    longer: the first chunk of a longer text always ends before the end of
    the text. *)
Theorem chunkContent_one_chunk_only_when_short (content : string) (maxChunkSize : Z)
    chunks :
  0 < maxChunkSize →
  chunkContent above70 content maxChunkSize = Some chunks →
  (JS.length content ≤ maxChunkSize → chunks = [content])
  ∧ (maxChunkSize < JS.length content → (2 ≤ List.length chunks)%nat).
Proof.
  intros Hm. unfold chunkContent.
  destruct (Z.leb_spec (JS.length content) maxChunkSize) as [Hle|Hgt].
  - intros [= <-]. split; [done|lia].
  - intros Hrun. split; [lia|]. intros _.
    destruct (String.length content) as [|fuel] eqn:Hlen;
      [unfold JS.length in Hgt; lia|].
    rewrite (chunkLoop_step above70) in Hrun by lia.
    pose proof (nextChunkEnd_lt content maxChunkSize 0 ltac:(lia) Hm ltac:(lia)) as Hend.
    destruct fuel as [|fuel].
    + cbn in Hrun.
      by destruct (Z.ltb_spec (nextChunkEnd above70 content maxChunkSize 0)
                     (JS.length content)); [|lia].
    + rewrite (chunkLoop_step above70) in Hrun by done.
      apply chunkLoop_grows in Hrun. rewrite !length_app in Hrun.
      cbn [List.length] in Hrun. lia.
Qed.

End ChunkSizes.

Lemma chunkContent_one_chunk_only_when_short_witness :
  chunkContent above70_exact "One. Two. Three." 6 = Some ["One. T"; "wo. Th"; "ree."]
  ∧ (JS.length "One. Two. Three." ≤ 6 → ["One. T"; "wo. Th"; "ree."] = ["One. Two. Three."])
  ∧ (6 < JS.length "One. Two. Three." →
     (2 ≤ List.length ["One. T"; "wo. Th"; "ree."])%nat).
Proof.
  split; [reflexivity|].
  apply (chunkContent_one_chunk_only_when_short above70_exact above70_exact_gt
           "One. Two. Three." 6); [lia|reflexivity].
Defined.

Lemma chunkContent_chunk_sizes_witness :
  chunkContent above70_exact "One. Two. Three." 6 = Some ["One. T"; "wo. Th"; "ree."]
  ∧ Forall (λ chunk, JS.length chunk ≤ 6 + 1) ["One. T"; "wo. Th"; "ree."]
  ∧ ("One. Two. Three." ≠ "" →
     Forall (λ chunk, 0 < JS.length chunk) ["One. T"; "wo. Th"; "ree."]).
Proof.
  split; [reflexivity|].
  apply (chunkContent_chunk_sizes above70_exact above70_exact_gt "One. Two. Three." 6);
    [lia|reflexivity].
Defined.

(** ** Summarising a large text *)

Lemma orElse_truthy a b : JS.truthy b = true → JS.truthy (orElse a b) = true.
Proof.
  intros Hb. unfold orElse. destruct a as [s|]; [|done].
  by destruct (JS.truthy s) eqn:Hs.
Qed.

Lemma join_truthy sep first rest :
  JS.truthy first = true → JS.truthy (JS.join sep (first :: rest)) = true.
Proof.
  intros H. destruct first as [|c first]; [done|].
  destruct rest as [|second rest]; [done|]. cbn [JS.join]. by rewrite JSFacts.app_cons.
Qed.

Section LargeContentFacts.

Variable above70 : Z → Z → Z → bool.
Variable LLM : Type.
Variable callLLM : string → llmOptions → LLM → option string * LLM.
Variable createChunkPrompt : string → Z → Z → string.
Variable createCombinePrompt : string → string.
Variable replaceContent : string → string → string.

Hypothesis above70_gt :
  ∀ x currentIndex maxChunkSize,
    0 ≤ currentIndex → 0 < maxChunkSize →
    above70 x currentIndex maxChunkSize = true → currentIndex < x.

Lemma summarizeChunks_summaries chunks i total summaries llm :
  List.length (summarizeChunks LLM callLLM createChunkPrompt chunks i total summaries llm).1
  = (List.length summaries + List.length chunks)%nat
  ∧ (Forall (λ s, JS.truthy s = true) summaries →
     Forall (λ s, JS.truthy s = true)
       (summarizeChunks LLM callLLM createChunkPrompt chunks i total summaries llm).1).
Proof.
  revert i summaries llm. induction chunks as [|chunk rest IH]; intros i summaries llm.
  - cbn [summarizeChunks fst List.length]. split; [lia|done].
  - cbn [summarizeChunks]. destruct (callLLM _ _ llm) as [chunkSummary llm'].
    destruct (IH (i + 1) (summaries ++ [orElse chunkSummary (chunkFailed i)]) llm')
      as [Hlen Hall].
    split.
    + rewrite Hlen, length_app. cbn [List.length]. lia.
    + intros Hs. apply Hall, Forall_app. split; [done|].
      apply Forall_singleton. by apply orElse_truthy.
Qed.

(** X23. For a text longer than [CHUNK_SIZE] and a usable prompt
    template, [processLargeContent] returns a non-empty text whatever the
    language model answers, also when every call to it fails: failed
    chunks are replaced by a placeholder, and a failed combination by the
    joined chunk summaries. *)
Theorem processLargeContent_always_answers (content template : string) (llm : LLM) :
  CHUNK_SIZE < JS.length content →
  JS.truthy template = true →
  ∃ result llm',
    processLargeContent above70 LLM callLLM createChunkPrompt createCombinePrompt
      replaceContent content (Some template) llm = Some (Some result, llm')
    ∧ JS.truthy result = true.
Proof.
  intros Hlong Htemplate. unfold processLargeContent. rewrite Htemplate.
  destruct (Z.leb_spec (JS.length content) CHUNK_SIZE); [lia|].
  destruct (chunkContent_spells above70 above70_gt content CHUNK_SIZE)
    as (chunks & -> & Hjoin); [done|].
  destruct chunks as [|chunk rest].
  { cbn [JS.join] in Hjoin. subst content. unfold CHUNK_SIZE, JS.length in Hlong.
    cbn [String.length] in Hlong. lia. }
  rewrite bool_decide_eq_false_2 by done.
  destruct (summarizeChunks_summaries (chunk :: rest) 0
              (Z.of_nat (List.length (chunk :: rest))) [] llm) as [Hlen Hall].
  specialize (Hall (Forall_nil_2 _)).
  destruct (summarizeChunks LLM callLLM createChunkPrompt (chunk :: rest) 0 _ [] llm)
    as [summaries llm1].
  cbn [fst List.length Nat.add] in Hlen, Hall.
  destruct summaries as [|first others]; [done|].
  apply Forall_cons in Hall as [Hfirst _].
  destruct (Nat.ltb_spec 1 (List.length (first :: others))) as [Hmany|Hone].
  - destruct (callLLM _ _ llm1) as [finalSummary llm2].
    eexists _, _. split; [reflexivity|]. by apply orElse_truthy, join_truthy.
  - destruct others as [|second others]; [|cbn [List.length] in Hone; lia].
    eexists _, _. split; [reflexivity|]. done.
Qed.

End LargeContentFacts.

Lemma textOverChunkSize_length : JS.length textOverChunkSize = 15001.
Proof. by apply JSFacts.repeat_length. Qed.

Lemma processLargeContent_always_answers_witness :
  ∃ result llm',
    processLargeContent above70_exact unit silentLLM (λ chunk _ _, chunk) (λ s, s)
      (λ template _, template) textOverChunkSize (Some "Summarise.") ()
    = Some (Some result, llm')
    ∧ JS.truthy result = true.
Proof.
  apply (processLargeContent_always_answers above70_exact unit silentLLM
           (λ chunk _ _, chunk) (λ s, s) (λ template _, template) above70_exact_gt
           textOverChunkSize "Summarise." ()).
  - rewrite textOverChunkSize_length. unfold CHUNK_SIZE. lia.
  - reflexivity.
Defined.

(** ** The callback handler and the page status control *)

Lemma updateItemStatusInControl_ready now pageId itemId contentType taskId status
    processedFile (drive : folder) u drive' :
  updateItemStatusInControl now pageId itemId contentType taskId status processedFile drive
  = (Some u, drive') →
  ur_readyForFinalProcessing u = ur_allCompleted u.
Proof.
  unfold updateItemStatusInControl.
  destruct (loadPageStatusControl pageId drive) as [sc|]; [|done].
  destruct (bool_decide (contentType = "main_page")
            && bool_decide (it_itemId (mainPage (sc_tracking sc)) = itemId)).
  - unfold savePageStatusControl. by intros [= <- <-].
  - destruct (bool_decide (contentType = "sub_block")); [|done].
    destruct (subBlocks (sc_tracking sc) !! itemId) as [sb|].
    + unfold savePageStatusControl. by intros [= <- <-].
    + destruct (inheritedMember itemId); [|done].
      unfold savePageStatusControl. by intros [= <- <-].
Qed.

Section StatusHandlerFacts.

Variable World : Type.
Variable driveRejects : gmap string string → string → string → option string.
Variable createFinalSummaryAndSendWebhook :
  string → statusControl → folder → gmap string string → World →
  StatusHandler.finalResult * folder * gmap string string * World.


End StatusHandlerFacts.


(** ** Looking a task up among the workflow states *)

Lemma workflowStateKey_of_key key :
  JS.startsWith "WORKFLOW_STATE_" key = true → workflowStateKey (JS.drop 15 key) = key.
Proof. apply (startsWith_inv "WORKFLOW_STATE_"). Qed.

Section LookupFacts.

Variable stateTaskId : string → option (option string).

Lemma findInEntries_cons taskId key value rest :
  findInEntries stateTaskId taskId ((key, value) :: rest)
  = if JS.startsWith "WORKFLOW_STATE_" key then
      match stateTaskId value with
      | Some (Some t) =>
          if bool_decide (t = taskId) then Some (JS.drop 15 key)
          else findInEntries stateTaskId taskId rest
      | _ => findInEntries stateTaskId taskId rest
      end
    else findInEntries stateTaskId taskId rest.
Proof. reflexivity. Qed.

Lemma findInEntries_Some taskId entries pageId :
  findInEntries stateTaskId taskId entries = Some pageId →
  ∃ value, (workflowStateKey pageId, value) ∈ entries
           ∧ stateTaskId value = Some (Some taskId).
Proof.
  induction entries as [|[key value] rest IH]; [done|]. rewrite findInEntries_cons.
  destruct (JS.startsWith "WORKFLOW_STATE_" key) eqn:Hkey.
  - destruct (stateTaskId value) as [[t|]|] eqn:Hvalue.
    + destruct (bool_decide (t = taskId)) eqn:Ht.
      * apply bool_decide_eq_true in Ht as ->. intros Hfound.
        apply (inj Some) in Hfound. subst pageId.
        exists value. rewrite (workflowStateKey_of_key key Hkey). split; [by left|done].
      * intros (v & Hin & Hv)%IH. exists v. split; [by right|done].
    + intros (v & Hin & Hv)%IH. exists v. split; [by right|done].
    + intros (v & Hin & Hv)%IH. exists v. split; [by right|done].
  - intros (v & Hin & Hv)%IH. exists v. split; [by right|done].
Qed.

Lemma findInEntries_None taskId entries key value :
  findInEntries stateTaskId taskId entries = None →
  (key, value) ∈ entries →
  JS.startsWith "WORKFLOW_STATE_" key = true →
  stateTaskId value ≠ Some (Some taskId).
Proof.
  induction entries as [|[k v] rest IH]; intros Hfind Hin Hkey;
    [by apply elem_of_nil in Hin|].
  rewrite findInEntries_cons in Hfind. apply elem_of_cons in Hin as [[= <- <-]|Hin].
  - rewrite Hkey in Hfind. destruct (stateTaskId value) as [[t|]|]; try done.
    destruct (bool_decide (t = taskId)) eqn:Ht; [done|].
    apply bool_decide_eq_false in Ht. congruence.
  - apply IH; [|done..].
    destruct (JS.startsWith "WORKFLOW_STATE_" k); [|done].
    destruct (stateTaskId v) as [[t|]|]; try done.
    by destruct (bool_decide (t = taskId)).
Qed.

(** X25. [findPageIdByTaskId] answers with a page exactly when some page
    waits for the task: the page it returns has a stored workflow state
    whose task id is the one asked for, and it returns null only when no
    stored workflow state has that task id. *)
Theorem findPageIdByTaskId_finds_a_waiting_page (taskId : string)
    (props : gmap string string) :
  match findPageIdByTaskId stateTaskId taskId props with
  | Some pageId =>
      ∃ value, props !! workflowStateKey pageId = Some value
               ∧ stateTaskId value = Some (Some taskId)
  | None =>
      ∀ pageId value, props !! workflowStateKey pageId = Some value →
                      stateTaskId value ≠ Some (Some taskId)
  end.
Proof.
  unfold findPageIdByTaskId.
  destruct (findInEntries stateTaskId taskId (map_to_list props)) as [pageId|] eqn:Hfind.
  - apply findInEntries_Some in Hfind as (value & Hin & Hvalue).
    exists value. split; [by apply elem_of_map_to_list|done].
  - intros pageId value Hlookup.
    eapply findInEntries_None; [exact Hfind|by apply elem_of_map_to_list|].
    apply startsWith_app.
Qed.

End LookupFacts.

(** ** The store and the other script properties *)

Lemma derivedKey_startsWith path key :
  derivedKey path key → JS.startsWith "STORAGE_" key = true.
Proof. intros [->|[->|[i ->]]]; apply startsWith_app. Qed.

Section StorageIsolation.

Variable JSON_stringify : storedDoc → string.
Variable JSON_parse : string → option storedDoc.
Variable Date_parse : string → option Z.
Variable rejects : gmap string string → string → string → option string.
Variable Math_round_div : Z → Z → Z.

(** X27. The store keeps to its own properties. A script property whose
    name does not start with [STORAGE_] (a workflow state, a result kept
    for polling, a configuration value) is never removed or changed by
    [saveToStorage], whatever its outcome and whatever clean-up it
    triggers, by [deleteFromStorage], by [cleanupOldStorageEntries] or by
    [cleanCompletedPageData]. *)
Theorem storage_leaves_other_properties_alone now path content caller olderThanHours
    pageId (props : gmap string string) key :
  JS.startsWith "STORAGE_" key = false →
  (saveToStorage JSON_stringify JSON_parse Date_parse rejects now path content caller
     props).2 !! key = props !! key
  ∧ deleteFromStorage JSON_parse path props !! key = props !! key
  ∧ cleanupOldStorageEntries JSON_parse Date_parse now olderThanHours props !! key
    = props !! key
  ∧ (cleanCompletedPageData JSON_parse Math_round_div pageId props).2 !! key
    = props !! key.
Proof.
  intros Hkey.
  assert (∀ p, ¬ derivedKey p key) as Hother.
  { intros p Hp%derivedKey_startsWith. congruence. }
  assert (∀ hours, cleanupOldStorageEntries JSON_parse Date_parse now hours props !! key
                   = props !! key) as Hcleanup.
  { intros hours. unfold cleanupOldStorageEntries. by apply deleteAll_lookup_other. }
  split; [|split; [|split]].
  - rewrite saveToStorage_lookup_other by done. unfold autoCleanupIfNeeded.
    destruct (_ <? _); [apply Hcleanup|done].
  - by apply deleteFromStorage_lookup_other.
  - apply Hcleanup.
  - unfold cleanCompletedPageData. cbn [snd]. rewrite foldl_delete_fmap.
    rewrite deleteAll_lookup_other by done. by apply deleteFromStorage_lookup_other.
Qed.

End StorageIsolation.

Lemma storage_leaves_other_properties_alone_witness :
  (Codec.save noon "page-1" "hello" [] sampleProperties).2 !! workflowStateKey "page-1"
  = sampleProperties !! workflowStateKey "page-1"
  ∧ deleteFromStorage Codec.parse "page-1" sampleProperties !! workflowStateKey "page-1"
    = sampleProperties !! workflowStateKey "page-1"
  ∧ cleanupOldStorageEntries Codec.parse Codec.noDate noon 24 sampleProperties
      !! workflowStateKey "page-1"
    = sampleProperties !! workflowStateKey "page-1"
  ∧ (cleanCompletedPageData Codec.parse roundedQuotient "page-1" sampleProperties).2
      !! workflowStateKey "page-1"
    = sampleProperties !! workflowStateKey "page-1".
Proof.
  apply (storage_leaves_other_properties_alone Codec.stringify Codec.parse Codec.noDate
           Codec.acceptAll roundedQuotient noon "page-1" "hello" [] 24 "page-1"
           sampleProperties (workflowStateKey "page-1")).
  reflexivity.
Defined.
